(** * any_worker::Rate — the periodic-loop pacer of any_node

    A shallow embedding of [any_worker/src/Rate.cpp] and the properties of
    its pacing operation [Rate::sleep].

    - [double] values are IEEE-754 binary64 numbers, modelled with the
      Standard Library's executable specification [SpecFloat]
      (round to nearest, ties to even), so every arithmetic step of the
      source rounds exactly as the compiled code does;
    - [long] / [time_t] values are [Z] with the signed 64-bit range written
      out: an operation that leaves the range, and a floating-to-integer
      conversion whose truncated value does not fit, is undefined behaviour
      in C++ and is modelled by [None];
    - [unsigned int] counters are [Z] with wrap-around modulo [2^32];
    - the clock is an input: each [clock_gettime] of the source is an
      argument of the modelled function; [clock_nanosleep] and the message
      logger are outputs, collected in a trace of events. *)

From Stdlib Require Import String ZArith Bool List Lia.
From Stdlib Require Import QArith Qpower Field Lqa.
From Stdlib Require Import SpecFloat.
Import ListNotations.
Local Open Scope Z_scope.

(** ** Undefined behaviour as an option monad *)

Definition bind {A B : Type} (m : option A) (k : A -> option B) : option B :=
  match m with
  | Some a => k a
  | None => None
  end.

Notation "x <- m ;; k" := (bind m (fun x => k))
  (at level 61, m at next level, right associativity).

(** ** Machine integers *)

Module Long.

Definition MIN : Z := - 2 ^ 63.
Definition MAX : Z := 2 ^ 63 - 1.

Definition in_range (z : Z) : bool := (MIN <=? z) && (z <=? MAX).

(** Signed overflow is undefined. *)
Definition checked (z : Z) : option Z :=
  if in_range z then Some z else None.

Definition add (a b : Z) : option Z := checked (a + b).
Definition sub (a b : Z) : option Z := checked (a - b).

End Long.

Module UInt.

Definition modulus : Z := 2 ^ 32.
Definition wrap (z : Z) : Z := z mod modulus.
Definition incr (n : Z) : Z := wrap (n + 1).
Definition decr (n : Z) : Z := wrap (n - 1).

End UInt.

(** ** IEEE-754 binary64 *)

Module Double.

Definition prec : Z := 53.
Definition emax : Z := 1024.

Definition double : Type := spec_float.

Definition add : double -> double -> double := SFadd prec emax.
Definition sub : double -> double -> double := SFsub prec emax.
Definition mul : double -> double -> double := SFmul prec emax.
Definition div : double -> double -> double := SFdiv prec emax.
Definition sqrt : double -> double := SFsqrt prec emax.

Definition ltb : double -> double -> bool := SFltb.
Definition leb : double -> double -> bool := SFleb.
(** C++ [a > b] and [a >= b]. *)
Definition gtb (a b : double) : bool := SFltb b a.
Definition geb (a b : double) : bool := SFleb b a.

(** Integer to floating conversion (exact below [2^53], rounded above). *)
Definition of_Z (z : Z) : double := binary_normalize prec emax z 0 false.

Definition zero : double := S754_zero false.
Definition one : double := of_Z 1.
Definition quiet_NaN : double := S754_nan.
Definition infinity : double := S754_infinity false.

Definition isnan (x : double) : bool :=
  match x with S754_nan => true | _ => false end.

Definition isinf (x : double) : bool :=
  match x with S754_infinity _ => true | _ => false end.

Definition isfinite (x : double) : bool :=
  match x with S754_zero _ | S754_finite _ _ _ => true | _ => false end.

(** Truncation toward zero of the magnitude [m * 2^e]. *)
Definition trunc_mag (m : positive) (e : Z) : Z :=
  match e with
  | Z0 => Zpos m
  | Zpos p => Zpos m * 2 ^ Zpos p
  | Zneg p => Zpos m / 2 ^ Zpos p
  end.

(** Floating to [long] conversion: the fractional part is discarded; the
    behaviour is undefined when the truncated value is not representable
    (this covers NaN and the infinities). *)
Definition to_long (x : double) : option Z :=
  match x with
  | S754_zero _ => Some 0
  | S754_finite s m e => Long.checked (cond_Zopp s (trunc_mag m e))
  | S754_infinity _ | S754_nan => None
  end.

(** The values a [double] variable can hold. *)
Definition is_binary64 (x : double) : Prop := valid_binary prec emax x = true.

End Double.

Import Double.

Declare Scope double_scope.
Delimit Scope double_scope with D.
Infix "+" := Double.add : double_scope.
Infix "-" := Double.sub : double_scope.
Infix "*" := Double.mul : double_scope.
Infix "/" := Double.div : double_scope.
Infix "<" := Double.ltb : double_scope.
Infix ">" := Double.gtb : double_scope.
Infix ">=" := Double.geb : double_scope.

(** ** Data *)

Record timespec : Type := mkTimespec { tv_sec : Z; tv_nsec : Z }.

Inductive severity : Type := Warn | Error.

(** A piece of a streamed log message: text, or a number handed to the
    stream as a [double]. *)
Inductive piece : Type :=
| Text (s : string)
| Num (d : double).

Inductive event : Type :=
| Log (sev : severity) (msg : list piece)
| Nanosleep (clock : Z) (until : timespec).

Record Rate : Type := mkRate {
  name_ : string;
  timeStep_ : double;
  maxTimeStepWarning_ : double;
  maxTimeStepError_ : double;
  enforceRate_ : bool;
  clockId_ : Z;
  sleepStartTime_ : timespec;
  sleepEndTime_ : timespec;
  stepTime_ : timespec;
  numTimeSteps_ : Z;
  numWarnings_ : Z;
  numErrors_ : Z;
  awakeTime_ : double;
  awakeTimeMean_ : double;
  awakeTimeM2_ : double
}.

(** Modelled from the spec: the header [Rate.hpp] with the two conversion
    constants is not among the sources; timestamps have nanosecond
    resolution, so there are [10^9] nanoseconds in a second, and the
    reciprocal is the [double] quotient [1.0 / 10^9]. *)
Definition NSecPerSec_ : Z := 1000000000.
Definition SecPerNSec_ : double := (Double.one / Double.of_Z NSecPerSec_)%D.

(** ** Validation and setters *)

Definition TimeStepIsValid (timeStep : double) : bool :=
  (timeStep >= Double.zero)%D && negb (isinf timeStep) && negb (isnan timeStep).

Definition MaxTimeStepIsValid (maxTimeStep : double) : bool :=
  (maxTimeStep >= Double.zero)%D && negb (isnan maxTimeStep).

Definition with_timeStep (r : Rate) (x : double) : Rate :=
  mkRate (name_ r) x (maxTimeStepWarning_ r) (maxTimeStepError_ r)
         (enforceRate_ r) (clockId_ r) (sleepStartTime_ r) (sleepEndTime_ r)
         (stepTime_ r) (numTimeSteps_ r) (numWarnings_ r) (numErrors_ r)
         (awakeTime_ r) (awakeTimeMean_ r) (awakeTimeM2_ r).

Definition with_maxTimeStepWarning (r : Rate) (x : double) : Rate :=
  mkRate (name_ r) (timeStep_ r) x (maxTimeStepError_ r)
         (enforceRate_ r) (clockId_ r) (sleepStartTime_ r) (sleepEndTime_ r)
         (stepTime_ r) (numTimeSteps_ r) (numWarnings_ r) (numErrors_ r)
         (awakeTime_ r) (awakeTimeMean_ r) (awakeTimeM2_ r).

Definition with_maxTimeStepError (r : Rate) (x : double) : Rate :=
  mkRate (name_ r) (timeStep_ r) (maxTimeStepWarning_ r) x
         (enforceRate_ r) (clockId_ r) (sleepStartTime_ r) (sleepEndTime_ r)
         (stepTime_ r) (numTimeSteps_ r) (numWarnings_ r) (numErrors_ r)
         (awakeTime_ r) (awakeTimeMean_ r) (awakeTimeM2_ r).

Definition with_enforceRate (r : Rate) (b : bool) : Rate :=
  mkRate (name_ r) (timeStep_ r) (maxTimeStepWarning_ r) (maxTimeStepError_ r)
         b (clockId_ r) (sleepStartTime_ r) (sleepEndTime_ r)
         (stepTime_ r) (numTimeSteps_ r) (numWarnings_ r) (numErrors_ r)
         (awakeTime_ r) (awakeTimeMean_ r) (awakeTimeM2_ r).

Definition invalid_msg (r : Rate) (what : string) (x : double) : list piece :=
  [Text "Rate '"; Text (name_ r); Text "': "; Text what; Num x; Text " s."].

Definition getName (r : Rate) : string := name_ r.

Definition getTimeStep (r : Rate) : double := timeStep_ r.

Definition setTimeStep (r : Rate) (timeStep : double) : Rate * list event :=
  if negb (TimeStepIsValid timeStep) then
    (r, [Log Error (invalid_msg r "Cannot set the time step to an invalid value " timeStep)])
  else (with_timeStep r timeStep, []).

Definition getMaxTimeStepWarning (r : Rate) : double := maxTimeStepWarning_ r.

Definition setMaxTimeStepWarning (r : Rate) (maxTimeStepWarning : double)
  : Rate * list event :=
  if negb (MaxTimeStepIsValid maxTimeStepWarning) then
    (r, [Log Error (invalid_msg r
           "Cannot set the max time step for warnings to invalid value "
           maxTimeStepWarning)])
  else (with_maxTimeStepWarning r maxTimeStepWarning, []).

Definition getMaxTimeStepError (r : Rate) : double := maxTimeStepError_ r.

Definition setMaxTimeStepError (r : Rate) (maxTimeStepError : double)
  : Rate * list event :=
  if negb (MaxTimeStepIsValid maxTimeStepError) then
    (r, [Log Error (invalid_msg r
           "Cannot set the max time step for errors to invalid value "
           maxTimeStepError)])
  else (with_maxTimeStepError r maxTimeStepError, []).

Definition getEnforceRate (r : Rate) : bool := enforceRate_ r.

Definition setEnforceRate (r : Rate) (enforceRate : bool) : Rate :=
  with_enforceRate r enforceRate.

Definition getClockId (r : Rate) : Z := clockId_ r.

(** ** reset *)

(** [now] is the value written by [clock_gettime]. *)
Definition reset (r : Rate) (now : timespec) : Rate :=
  mkRate (name_ r) (timeStep_ r) (maxTimeStepWarning_ r) (maxTimeStepError_ r)
         (enforceRate_ r) (clockId_ r)
         now now now
         0 0 0
         Double.zero Double.zero Double.zero.

(** ** GetDuration *)

Definition GetDuration (start end_ : timespec) : option double :=
  dsec <- Long.sub (tv_sec end_) (tv_sec start) ;;
  dnsec <- Long.sub (tv_nsec end_) (tv_nsec start) ;;
  Some (Double.of_Z dsec + Double.of_Z dnsec * SecPerNSec_)%D.

(** ** sleep *)

(** The single-pass update of the running statistics, over the arithmetic
    of the sample type: the source runs it on [double]. *)
Section Welford.

Context {T : Type}.
Variables (tadd tsub tmul tdiv : T -> T -> T) (of_count : Z -> T).

Definition welford (count : Z) (mean m2 awake : T) : Z * T * T :=
  let count' := UInt.incr count in
  let delta := tsub awake mean in
  let mean' := tadd mean (tdiv delta (of_count count')) in
  let delta2 := tsub awake mean' in
  (count', mean', tadd m2 (tmul delta delta2)).

End Welford.

Definition welford_double : Z -> double -> double -> double -> Z * double * double :=
  welford Double.add Double.sub Double.mul Double.div Double.of_Z.

Definition too_long_msg (r : Rate) (awake : double) : list piece :=
  [Text "Rate '"; Text (name_ r); Text "': "; Text "Processing took too long (";
   Num awake; Text " s > "; Num (timeStep_ r); Text " s)."].

(** The check of the awake time against the two maxima: the new warning
    and error counters, and what is printed. *)
Definition check_thresholds (r : Rate) (awake : double) : Z * Z * list event :=
  if (awake > maxTimeStepError_ r)%D then
    (numWarnings_ r, UInt.incr (numErrors_ r), [Log Error (too_long_msg r awake)])
  else if (awake > maxTimeStepWarning_ r)%D then
    (UInt.incr (numWarnings_ r), numErrors_ r, [Log Warn (too_long_msg r awake)])
  else (numWarnings_ r, numErrors_ r, []).

(** The next desired step time: the time step, scaled to nanoseconds, is
    added to [tv_nsec] (a [double] addition whose result is converted back
    to [long]), then the whole seconds are carried into [tv_sec]. *)
Definition advance (timeStep : double) (t : timespec) : option timespec :=
  nsec <- Double.to_long (Double.of_Z (tv_nsec t) + timeStep * Double.of_Z NSecPerSec_)%D ;;
  sec <- Long.add (tv_sec t) (Z.quot nsec NSecPerSec_) ;;
  Some (mkTimespec sec (Z.rem nsec NSecPerSec_)).

(** [now1] and [now2] are the values written by the first and the second
    [clock_gettime] of the call. *)
Definition sleep (r : Rate) (now1 now2 : timespec) : option (Rate * list event) :=
  let sleepStart := now1 in
  awake <- GetDuration (sleepEndTime_ r) sleepStart ;;
  let '(count, mean, m2) :=
    welford_double (numTimeSteps_ r) (awakeTimeMean_ r) (awakeTimeM2_ r) awake in
  let '(warnings, errors, logs) := check_thresholds r awake in
  step <- advance (timeStep_ r) (stepTime_ r) ;;
  behind <- GetDuration now2 step ;;
  let mk sleepEnd stepTime :=
    mkRate (name_ r) (timeStep_ r) (maxTimeStepWarning_ r) (maxTimeStepError_ r)
           (enforceRate_ r) (clockId_ r)
           sleepStart sleepEnd stepTime
           count warnings errors awake mean m2 in
  if (behind < Double.zero)%D then
    if negb (enforceRate_ r) then Some (mk now2 now2, logs)
    else Some (mk now2 step, logs)
  else
    Some (mk step step, logs ++ [Nanosleep (clockId_ r) step]).

(** A loop of [sleep] calls, one pair of clock samples per call; the
    result keeps the events of each call apart. *)
Fixpoint sleeps (r : Rate) (clock : list (timespec * timespec))
  : option (Rate * list (list event)) :=
  match clock with
  | [] => Some (r, [])
  | (now1, now2) :: rest =>
      res <- sleep r now1 now2 ;;
      more <- sleeps (fst res) rest ;;
      Some (fst more, snd res :: snd more)
  end.

(** ** Accessors *)

Definition getSleepStartTime (r : Rate) : timespec := sleepStartTime_ r.
Definition getSleepEndTime (r : Rate) : timespec := sleepEndTime_ r.
Definition getStepTime (r : Rate) : timespec := stepTime_ r.
Definition getNumTimeSteps (r : Rate) : Z := numTimeSteps_ r.
Definition getNumWarnings (r : Rate) : Z := numWarnings_ r.
Definition getNumErrors (r : Rate) : Z := numErrors_ r.

Definition getAwakeTime (r : Rate) : double :=
  if numTimeSteps_ r =? 0 then Double.quiet_NaN else awakeTime_ r.

Definition getAwakeTimeMean (r : Rate) : double :=
  if numTimeSteps_ r =? 0 then Double.quiet_NaN else awakeTimeMean_ r.

Definition getAwakeTimeVar (r : Rate) : double :=
  if numTimeSteps_ r <=? 1 then Double.quiet_NaN
  else (awakeTimeM2_ r / Double.of_Z (UInt.decr (numTimeSteps_ r)))%D.

Definition getAwakeTimeStdDev (r : Rate) : double :=
  Double.sqrt (getAwakeTimeVar r).

(** ** Constructors *)

(** The identifier of the monotonic clock, the default of the
    two-argument constructor ([1] in the Linux headers). *)
Definition CLOCK_MONOTONIC : Z := 1.

(** The six-argument constructor: the member initializers set the name and
    the clock, the body runs the four setters and [reset].  [fresh] holds
    the other members as they are when the body starts, that is, as their
    declarations leave them; [now] is the clock sample of [reset]. *)
Definition Rate_Rate (fresh : Rate) (name : string)
           (timeStep maxTimeStepWarning maxTimeStepError : double)
           (enforceRate : bool) (clockId : Z) (now : timespec) : Rate * list event :=
  let r0 :=
    mkRate name (timeStep_ fresh) (maxTimeStepWarning_ fresh) (maxTimeStepError_ fresh)
           (enforceRate_ fresh) clockId
           (sleepStartTime_ fresh) (sleepEndTime_ fresh) (stepTime_ fresh)
           (numTimeSteps_ fresh) (numWarnings_ fresh) (numErrors_ fresh)
           (awakeTime_ fresh) (awakeTimeMean_ fresh) (awakeTimeM2_ fresh) in
  let '(r1, e1) := setTimeStep r0 timeStep in
  let '(r2, e2) := setMaxTimeStepWarning r1 maxTimeStepWarning in
  let '(r3, e3) := setMaxTimeStepError r2 maxTimeStepError in
  let r4 := setEnforceRate r3 enforceRate in
  (reset r4 now, e1 ++ e2 ++ e3).

(** The two-argument constructor delegates with the time step as the
    warning maximum and ten times the time step as the error maximum. *)
Definition Rate_Rate_default (fresh : Rate) (name : string) (timeStep : double)
           (now : timespec) : Rate * list event :=
  Rate_Rate fresh name timeStep timeStep (Double.of_Z 10 * timeStep)%D true
            CLOCK_MONOTONIC now.

(** The move constructor takes the configuration, the target and the
    statistics of [other]; [sleepStartTime_] and [sleepEndTime_] are not in
    its initializer list and stay as their declarations leave them. *)
Definition Rate_Rate_move (fresh other : Rate) : Rate :=
  mkRate (name_ other) (timeStep_ other) (maxTimeStepWarning_ other)
         (maxTimeStepError_ other) (enforceRate_ other) (clockId_ other)
         (sleepStartTime_ fresh) (sleepEndTime_ fresh) (stepTime_ other)
         (numTimeSteps_ other) (numWarnings_ other) (numErrors_ other)
         (awakeTime_ other) (awakeTimeMean_ other) (awakeTimeM2_ other).

(** * any_node::Nodewrap — the life cycle of a node

    [Nodewrap<NodeImpl>] owns a node implementation and drives it through
    [init], [run] and [cleanup].  The calls it makes to its collaborators
    (the signal handler registry, the ROS spinner, the logger, the
    condition variable, the node implementation) are recorded in a trace.
    The main thread is the one inside [execute]; what other threads and
    signals do to the wrapper meanwhile is a list of requests, taken one
    at a time: [stop] holds the mutex, and so does the predicate check of
    [run], so a request is atomic with respect to the waiting thread. *)

Module Nodewrap.

Inductive call : Type :=
| BindAll
| UnbindAll
| SpinnerStart
| SpinnerStop
| ImplInit
| ImplPreCleanup
| ImplStopAllWorkers
| ImplCleanup
| LogError (msg : string)
| LogDebug (signum : Z)
| NotifyAll
| SignalDefault (signum : Z)
| Kill (signum : Z).

(** How far the main thread got: it returned the value [a], it is still
    waiting on the condition variable, or the process was killed by a
    signal it raised against itself. *)
Inductive outcome (A : Type) : Type :=
| Done (a : A) (calls : list call)
| Blocked (calls : list call)
| Killed (calls : list call).

Arguments Done {A} a calls.
Arguments Blocked {A} calls.
Arguments Killed {A} calls.

(** A call into the wrapper from outside the main thread. *)
Inductive request : Type :=
| Stop
| Signal (signum : Z).

(** The number of the segmentation-fault signal ([11] on Linux). *)
Definition SIGSEGV : Z := 11.

(** The member functions that [Nodewrap] calls on [NodeImpl]. *)
Class NodeImpl (S : Type) : Type := {
  impl_init : S -> bool * S;
  impl_preCleanup : S -> S;
  impl_stopAllWorkers : S -> S;
  impl_cleanup : S -> S
}.

Section Wrapper.

Context {S : Type} `{NodeImpl S}.

Record state : Type := mkState {
  signalHandlerInstalled_ : bool;
  running_ : bool;
  impl_ : S
}.

Definition with_running (w : state) (b : bool) : state :=
  mkState (signalHandlerInstalled_ w) b (impl_ w).

Definition with_impl (w : state) (s : S) : state :=
  mkState (signalHandlerInstalled_ w) (running_ w) s.

Definition stop (w : state) : state * list call :=
  (with_running w false, [NotifyAll]).

(** [signalHandler]: after [stop], a segmentation fault is handed back to
    the default action, which ends the process. *)
Definition signalHandler (w : state) (signum : Z) : outcome state :=
  let '(w', c) := stop w in
  if signum =? SIGSEGV then
    Killed ([LogDebug signum] ++ c ++ [SignalDefault signum; Kill signum])
  else Done w' ([LogDebug signum] ++ c).

(** One request.  Signals reach [signalHandler] only when the wrapper has
    bound it; otherwise they are not the wrapper's business. *)
Definition deliver (w : state) (q : request) : outcome state :=
  match q with
  | Stop => let '(w', c) := stop w in Done w' c
  | Signal signum =>
      if signalHandlerInstalled_ w then signalHandler w signum else Done w []
  end.

Fixpoint deliver_all (w : state) (qs : list request) : outcome state :=
  match qs with
  | [] => Done w []
  | q :: rest =>
      match deliver w q with
      | Done w' c =>
          match deliver_all w' rest with
          | Done w'' c' => Done w'' (c ++ c')
          | Blocked c' => Blocked (c ++ c')
          | Killed c' => Killed (c ++ c')
          end
      | Blocked c => Blocked c
      | Killed c => Killed c
      end
  end.

(** [init]; [during] are the requests that arrive while the node
    implementation initializes, that is, before [running_] is set. *)
Definition init (w : state) (during : list request) : outcome (bool * state) :=
  let c0 := (if signalHandlerInstalled_ w then [BindAll] else [])
            ++ [SpinnerStart; ImplInit] in
  let '(ok, s) := impl_init (impl_ w) in
  match deliver_all (with_impl w s) during with
  | Done w1 c =>
      if negb ok then Done (false, w1) (c0 ++ c ++ [LogError "Failed to init Node %s!"])
      else Done (true, with_running w1 true) (c0 ++ c)
  | Blocked c => Blocked (c0 ++ c)
  | Killed c => Killed (c0 ++ c)
  end.

(** [run]: the wait on the condition variable returns once [running_] is
    false; [waiting] are the requests that arrive from then on. *)
Fixpoint run (w : state) (waiting : list request) : outcome state :=
  if negb (running_ w) then Done w []
  else
    match waiting with
    | [] => Blocked []
    | q :: rest =>
        match deliver w q with
        | Done w' c =>
            match run w' rest with
            | Done w'' c' => Done w'' (c ++ c')
            | Blocked c' => Blocked (c ++ c')
            | Killed c' => Killed (c ++ c')
            end
        | Blocked c => Blocked c
        | Killed c => Killed c
        end
    end.

Definition cleanup (w : state) : state * list call :=
  (with_impl w (impl_cleanup (impl_stopAllWorkers (impl_preCleanup (impl_ w)))),
   (if signalHandlerInstalled_ w then [UnbindAll] else [])
   ++ [ImplPreCleanup; ImplStopAllWorkers; SpinnerStop; ImplCleanup]).

Definition execute (w : state) (during waiting : list request)
  : outcome (bool * state) :=
  match init w during with
  | Done (initSuccess, w1) c1 =>
      if initSuccess then
        match run w1 waiting with
        | Done w2 c2 =>
            let '(w3, c3) := cleanup w2 in Done (initSuccess, w3) (c1 ++ c2 ++ c3)
        | Blocked c2 => Blocked (c1 ++ c2)
        | Killed c2 => Killed (c1 ++ c2)
        end
      else
        let '(w3, c3) := cleanup w1 in Done (initSuccess, w3) (c1 ++ c3)
  | Blocked c => Blocked c
  | Killed c => Killed c
  end.

End Wrapper.

Arguments state S : clear implicits.

End Nodewrap.

(** * Vocabulary of the specification *)

(** ** Timestamps *)

Definition normalized (t : timespec) : Prop := 0 <= tv_nsec t < NSecPerSec_.

(** A normalized timestamp whose seconds are far from the ends of [long]:
    what [clock_gettime] returns, and what the schedule holds. *)
Definition clock_reading (t : timespec) : Prop :=
  normalized t /\ - 2 ^ 61 <= tv_sec t < 2 ^ 61.

Definition nanos (t : timespec) : Z := tv_sec t * NSecPerSec_ + tv_nsec t.

(** Strict and weak order of timestamps. *)
Definition ts_ltb (a b : timespec) : bool :=
  (tv_sec a <? tv_sec b) || ((tv_sec a =? tv_sec b) && (tv_nsec a <? tv_nsec b)).

Definition ts_leb (a b : timespec) : bool := negb (ts_ltb b a).

(** The timestamp [k] nanoseconds after [t]. *)
Definition add_nanos (t : timespec) (k : Z) : timespec :=
  mkTimespec (tv_sec t + Z.quot (tv_nsec t + k) NSecPerSec_)
             (Z.rem (tv_nsec t + k) NSecPerSec_).

(** The last two statements of the advance of the target: the whole
    seconds of the nanosecond count [nsec] are carried into [tv_sec]. *)
Definition carry (t : timespec) (nsec : Z) : option timespec :=
  sec <- Long.add (tv_sec t) (Z.quot nsec NSecPerSec_) ;;
  Some (mkTimespec sec (Z.rem nsec NSecPerSec_)).

(** The samples of a clock that never runs backwards, from [t] on. *)
Fixpoint monotone_from (t : timespec) (clock : list (timespec * timespec)) : Prop :=
  match clock with
  | [] => True
  | (now1, now2) :: rest =>
      ts_leb t now1 = true /\ ts_leb now1 now2 = true /\ monotone_from now2 rest
  end.

(** Every call of the loop samples the clock no later than the target it
    is about to compute: the caller is never behind a schedule that starts
    at [t] and has period [k] nanoseconds. *)
Fixpoint on_schedule (t : timespec) (k : Z) (clock : list (timespec * timespec)) : Prop :=
  match clock with
  | [] => True
  | (_, now2) :: rest =>
      ts_ltb (add_nanos t k) now2 = false /\ on_schedule (add_nanos t k) k rest
  end.

(** ** Events *)

Definition nanosleeps (evs : list event) : list (Z * timespec) :=
  flat_map (fun ev => match ev with Nanosleep c t => [(c, t)] | Log _ _ => [] end) evs.

Definition logs (evs : list event) : list (severity * list piece) :=
  flat_map (fun ev => match ev with Log s m => [(s, m)] | Nanosleep _ _ => [] end) evs.

(** The numbers printed in a message, in order. *)
Definition numbers (msg : list piece) : list double :=
  flat_map (fun p => match p with Num d => [d] | Text _ => [] end) msg.

(** ** Values of binary64 numbers

    The magnitude of a finite number in units of [2^-1074], the weight of
    the last bit of the smallest subnormal: an integer for every binary64
    number. *)

Definition mag (x : double) : Z :=
  match x with
  | S754_finite _ m e => Zpos m * 2 ^ (e + 1074)
  | _ => 0
  end.

Definition sign_of (x : double) : bool :=
  match x with
  | S754_zero s | S754_infinity s | S754_finite s _ _ => s
  | S754_nan => false
  end.

Definition IV (x : double) : Z := cond_Zopp (sign_of x) (mag x).

Definition wf (x : double) : Prop :=
  match x with
  | S754_zero _ => True
  | S754_finite _ m e => -1074 <= e <= 971 /\ Zpos m < 2 ^ 53
  | _ => False
  end.

Definition nonneg (x : double) : Prop :=
  match x with
  | S754_zero _ | S754_finite false _ _ | S754_infinity false => True
  | _ => False
  end.

Definition negative (x : double) : bool :=
  match x with
  | S754_finite true _ _ | S754_infinity true => true
  | _ => false
  end.

(** The exact value of a finite number, for comparisons with ideal
    quantities. *)
Definition to_Q (x : double) : Q :=
  match x with
  | S754_finite s m e =>
      let q := (inject_Z (Zpos m) * Qpower 2 e)%Q in if s then Qopp q else q
  | _ => 0%Q
  end.

(** ** Rounding *)

(** [m1] is the quotient of [M] by [2^k], or the next integer when the
    division is not exact. *)
Definition faithful (M k m1 : Z) : Prop :=
  m1 = M / 2 ^ k \/ (m1 = M / 2 ^ k + 1 /\ M mod 2 ^ k <> 0).

(** The result of packing the rounded significand [m1] at exponent [e1]. *)
Inductive rounded (s : bool) (m1 e1 : Z) : spec_float -> Prop :=
| rounded_zero :
    m1 = 0 -> rounded s m1 e1 (S754_zero s)
| rounded_finite (m : positive) (e : Z) :
    e1 <= e -> Zpos m * 2 ^ (e - e1) = m1 -> e <= 971 ->
    Zpos m < 2 ^ 53 ->
    rounded s m1 e1 (S754_finite s m e)
| rounded_inf :
    0 < m1 -> 971 < e1 \/ (m1 = 2 ^ 53 /\ e1 = 971) ->
    rounded s m1 e1 (S754_infinity s).

(** The last stage of [binary_round_aux]. *)
Definition finish (s : bool) (m1 e1 : Z) : spec_float :=
  let '(mrs, e) := shr_fexp 53 1024 m1 e1 loc_Exact in
  match shr_m mrs with
  | Z0 => S754_zero s
  | Zpos m => if e <=? 1024 - 53 then S754_finite s m e else S754_infinity s
  | Zneg _ => S754_nan
  end.

Definition approx (M E e1 m1 : Z) : Prop :=
  (e1 <= E /\ m1 = M * 2 ^ (E - e1)) \/ (E < e1 /\ faithful M (e1 - E) m1).

(** [R] is [T] rounded to a multiple of the unit [u]: [T] itself when it
    is one, and otherwise one of its two neighbours. *)
Definition faithfulZ (T u R : Z) : Prop :=
  (T mod u = 0 /\ R = T) \/
  (T mod u <> 0 /\ (R = T / u * u \/ R = (T / u + 1) * u)).

(** The number that holds the rounded magnitude [R], given at scale
    [2^-c]. *)
Inductive rresult (s : bool) (c R : Z) : spec_float -> Prop :=
| rresult_zero :
    R = 0 -> rresult s c R (S754_zero s)
| rresult_finite (m : positive) (e : Z) :
    -1074 <= e <= 971 -> Zpos m < 2 ^ 53 -> Zpos m * 2 ^ (e + c) = R ->
    rresult s c R (S754_finite s m e)
| rresult_inf :
    2 ^ (1024 + c) <= R -> rresult s c R (S754_infinity s).

(** [u] is the unit in the last place of the magnitude [T] at scale
    [2^-c]. *)
Definition unit_of (c T u : Z) : Prop :=
  exists j, c - 1074 <= j /\ u = 2 ^ j /\ T < 2 ^ 53 * u /\
            (2 ^ 52 * u <= T \/ j = c - 1074).

(** A bound on the time step under which the advance of the schedule is
    defined: [2^33] seconds, some 272 years. *)
Definition max_step : double := Double.of_Z (2 ^ 33).

(** ** Statistics of a sample set *)

(** The statistics members after [reset] and one update of [sleep] per
    awake time of [samples]. *)
Definition stats_double (samples : list double) : Z * double * double :=
  fold_left (fun '(n, mean, m2) x => welford_double n mean m2 x) samples
            (0, Double.zero, Double.zero).

Definition sum_Q (l : list Q) : Q := fold_right Qplus 0%Q l.

(** The sum of the squared deviations from [mu]. *)
Definition sq_dev (mu : Q) (l : list Q) : Q :=
  sum_Q (map (fun x => (x - mu) * (x - mu))%Q l).

(** The mean and the unbiased sample variance, computed from the whole
    sample set. *)
Definition mean_direct (l : list Q) : Q :=
  (sum_Q l / inject_Z (Z.of_nat (length l)))%Q.

Definition var_direct (l : list Q) : Q :=
  (sq_dev (mean_direct l) l / inject_Z (Z.of_nat (length l) - 1))%Q.

(** The number of samples, as a rational. *)
Definition size (l : list Q) : Q := inject_Z (Z.of_nat (length l)).

(** [x] is within [tol] of [y]. *)
Definition within (tol x y : Q) : Prop := (y - tol <= x <= y + tol)%Q.

(** A [double] variable that holds a number. *)
Definition finite64 (x : double) : Prop := is_binary64 x /\ isfinite x = true.

(** The accuracy of one operation: the relative error [2^-52] of a
    result with 53 significant bits, the absolute error [2^-1074] of a
    subnormal result; and a magnitude below which no result overflows,
    [2^1023]. *)
Definition eps64 : Q := 1 # 4503599627370496.

Definition eta64 : Q := (2 ^ (-1074))%Q.

Definition huge64 : Q := (2 ^ 1023)%Q.

(** [r] holds the exact value [v], of magnitude at most [V], rounded. *)
Definition rounds (V : Q) (r : double) (v : Q) : Prop :=
  finite64 r /\ within (eps64 * V + eta64) (to_Q r) v.

(** A finite binary64 number of magnitude at most [B]. *)
Definition sample_within (B : Q) (x : double) : Prop :=
  is_binary64 x /\ isfinite x = true /\ (- B <= to_Q x <= B)%Q.

(** The tolerances of the running mean and variance of [n] samples of
    magnitude at most [B]: [n * 2^-47 * B] and [n * 2^-42 * B^2]. *)
Definition mean_tolerance (n : Z) (B : Q) : Q :=
  (inject_Z n * B * (1 # 140737488355328))%Q.

Definition var_tolerance (n : Z) (B : Q) : Q :=
  (inject_Z n * (B * B) * (1 # 4398046511104))%Q.

(** The awake times that a loop of [sleep] calls measures, one per
    call. *)
Fixpoint awake_times (r : Rate) (clock : list (timespec * timespec)) : list double :=
  match clock with
  | [] => []
  | (now1, now2) :: rest =>
      match sleep r now1 now2 with
      | Some (r', _) => awakeTime_ r' :: awake_times r' rest
      | None => []
      end
  end.

(** ** The effect of one [sleep] call

    [r'] and [evs] are the state and the events after a call that measured
    the awake time [awake], computed the target [step], and found itself
    behind schedule or not. *)
Definition sleep_post (r : Rate) (now1 now2 : timespec) (awake : double)
           (step : timespec) (behind : bool) (r' : Rate) (evs : list event) : Prop :=
  name_ r' = name_ r /\
  timeStep_ r' = timeStep_ r /\
  maxTimeStepWarning_ r' = maxTimeStepWarning_ r /\
  maxTimeStepError_ r' = maxTimeStepError_ r /\
  enforceRate_ r' = enforceRate_ r /\
  clockId_ r' = clockId_ r /\
  sleepStartTime_ r' = now1 /\
  sleepEndTime_ r' = (if behind then now2 else step) /\
  stepTime_ r' = (if behind && negb (enforceRate_ r) then now2 else step) /\
  (numTimeSteps_ r', awakeTimeMean_ r', awakeTimeM2_ r') =
    welford_double (numTimeSteps_ r) (awakeTimeMean_ r) (awakeTimeM2_ r) awake /\
  awakeTime_ r' = awake /\
  (numWarnings_ r', numErrors_ r') = fst (check_thresholds r awake) /\
  evs = snd (check_thresholds r awake) ++
        (if behind then [] else [Nanosleep (clockId_ r) step]).

(** ** Example states *)

(** One millisecond, as the literal [0.001] reads. *)
Definition millisecond : double := (Double.one / Double.of_Z 1000)%D.

(** A pacer as the constructor leaves it: configured, then [reset] at
    [now]. *)
Definition pacer (timeStep warn err : double) (enforce : bool) (now : timespec) : Rate :=
  reset (mkRate "loop" timeStep warn err enforce 1
                (mkTimespec 0 0) (mkTimespec 0 0) (mkTimespec 0 0)
                0 0 0 Double.zero Double.zero Double.zero) now.

(** A period of one millisecond with the thresholds of the two-argument
    constructor, reset at 100 s. *)
Definition pacer_1ms : Rate :=
  pacer millisecond millisecond (Double.of_Z 10 * millisecond)%D true (mkTimespec 100 0).

(** A pure instrumentation probe: time step zero. *)
Definition pacer_probe : Rate :=
  pacer Double.zero millisecond (Double.of_Z 10 * millisecond)%D true (mkTimespec 100 0).

(** A period of a thirtieth of a second (a 30 Hz loop), reset at 100 s. *)
Definition thirtieth : double := (Double.one / Double.of_Z 30)%D.

Definition pacer_30hz : Rate :=
  pacer thirtieth thirtieth (Double.of_Z 10 * thirtieth)%D true (mkTimespec 100 0).

(** Thirty calls, each made at the instant the previous one was asked to
    wake: no work between the calls. *)
Definition clock_30hz : list (timespec * timespec) :=
  map (fun i => let t := mkTimespec 100 (Z.of_nat i * 33333333) in (t, t)) (seq 0 30).

(** The distance in nanoseconds between the stored target and the ideal
    one, [n] time steps after [now]. *)
Definition drift (r : Rate) (now : timespec) (n : Z) : Q :=
  (inject_Z (nanos (stepTime_ r))
   - (inject_Z (nanos now)
      + inject_Z n * to_Q (timeStep_ r) * inject_Z NSecPerSec_))%Q.

(** A valid time step of ten thousand million seconds. *)
Definition pacer_huge (enforce : bool) : Rate :=
  pacer (Double.of_Z (10 ^ 10)) Double.one Double.one enforce (mkTimespec 100 0).

(** Three cycles of the 1 ms loop with 0.2 ms of work each. *)
Definition clock_1ms : list (timespec * timespec) :=
  [(mkTimespec 100 200000, mkTimespec 100 200100);
   (mkTimespec 100 1200000, mkTimespec 100 1200100);
   (mkTimespec 100 2200000, mkTimespec 100 2200100)].

(** A clock that stands still at [t] for [n] calls of [sleep]. *)
Definition frozen_clock (t : timespec) (n : nat) : list (timespec * timespec) :=
  repeat (t, t) n.

(** One call more than the counter of time steps can count. *)
Definition wrap_length : nat := Z.to_nat (UInt.modulus + 1).

(** The 1 ms pacer with the rate not enforced. *)
Definition pacer_lenient : Rate :=
  pacer millisecond millisecond (Double.of_Z 10 * millisecond)%D false (mkTimespec 100 0).

(** ** Vocabulary for the constructors, the counters and the order of
    timestamps *)

Definition is_positive (x : double) : bool :=
  match x with
  | S754_finite false _ _ | S754_infinity false => true
  | _ => false
  end.

Definition is_zero (x : double) : bool :=
  match x with
  | S754_zero _ => true
  | _ => false
  end.

Definition severity_eqb (a b : severity) : bool :=
  match a, b with
  | Warn, Warn | Error, Error => true
  | _, _ => false
  end.

(** How many messages of severity [sev] one call, and a whole loop,
    printed. *)
Definition count_logs (sev : severity) (evs : list event) : Z :=
  Z.of_nat (length (filter (fun l => severity_eqb (fst l) sev) (logs evs))).

Definition count_trace (sev : severity) (tr : list (list event)) : Z :=
  fold_right (fun evs n => count_logs sev evs + n) 0 tr.

(** How many of the three numbers the constructor rejects. *)
Definition rejected (timeStep maxTimeStepWarning maxTimeStepError : double) : nat :=
  ((if TimeStepIsValid timeStep then 0 else 1)
   + (if MaxTimeStepIsValid maxTimeStepWarning then 0 else 1)
   + (if MaxTimeStepIsValid maxTimeStepError then 0 else 1))%nat.

(** The later of two timestamps. *)
Definition ts_max (a b : timespec) : timespec := if ts_ltb a b then b else a.

(** A member state of which nothing is known. *)
Definition blank (t : timespec) (d : double) : Rate :=
  mkRate EmptyString d d d false 0 t t t 0 0 0 d d d.

(** Three cycles of the 1 ms loop: 0.2 ms of work, then 12 ms, then
    5 ms. *)
Definition clock_busy : list (timespec * timespec) :=
  [(mkTimespec 100 200000, mkTimespec 100 200100);
   (mkTimespec 100 13000000, mkTimespec 100 13000100);
   (mkTimespec 100 18000200, mkTimespec 100 18000300)].

(** The 1 ms pacer after its first cycle, with 0.2 ms of work. *)
Definition pacer_after_one : Rate :=
  match sleep pacer_1ms (mkTimespec 100 200000) (mkTimespec 100 200100) with
  | Some (r, _) => r
  | None => pacer_1ms
  end.

(** ** Vocabulary for the life cycle of a node *)

(** A request that makes [run] return: a call of [stop], or a signal when
    the wrapper has bound its handler. *)
Definition stops {S : Type} (w : Nodewrap.state S) (q : Nodewrap.request) : bool :=
  match q with
  | Nodewrap.Stop => true
  | Nodewrap.Signal _ => Nodewrap.signalHandlerInstalled_ w
  end.

(** A request that ends the process: a segmentation fault that reaches
    the handler of the wrapper. *)
Definition kills {S : Type} (w : Nodewrap.state S) (q : Nodewrap.request) : bool :=
  match q with
  | Nodewrap.Stop => false
  | Nodewrap.Signal signum =>
      Nodewrap.signalHandlerInstalled_ w && (signum =? Nodewrap.SIGSEGV)
  end.

Definition is_bind (c : Nodewrap.call) : bool :=
  match c with Nodewrap.BindAll => true | _ => false end.

Definition is_unbind (c : Nodewrap.call) : bool :=
  match c with Nodewrap.UnbindAll => true | _ => false end.

Definition count_calls (p : Nodewrap.call -> bool) (calls : list Nodewrap.call) : nat :=
  length (filter p calls).

(** A node whose state counts the calls made on it, and whose [init]
    succeeds or not as [ok] says. *)
Definition counting_node (ok : bool) : Nodewrap.NodeImpl nat :=
  {| Nodewrap.impl_init := fun n => (ok, Datatypes.S n);
     Nodewrap.impl_preCleanup := Datatypes.S;
     Nodewrap.impl_stopAllWorkers := Datatypes.S;
     Nodewrap.impl_cleanup := Datatypes.S |}.

(** A normalized timestamp within [2^60] seconds of the epoch of its
    clock. *)
Definition calendar_time (t : timespec) : Prop :=
  normalized t /\ - 2 ^ 60 <= tv_sec t < 2 ^ 60.

(** ** Proof automation *)

(** Replaces the closed power [2 ^ n] by a variable known to be positive,
    so that the arithmetic procedures do not compute with its digits. *)
Ltac hide_pow n :=
  let P := fresh "P" in
  let HP := fresh "HP" in
  pose proof (Z.pow_pos_nonneg 2 n ltac:(lia) ltac:(lia)) as HP;
  set (P := 2 ^ n) in *; clearbody P.

(** The value of an exponent that is closed but not yet a numeral. *)
Ltac closed_exponent x :=
  lazymatch x with
  | Zpos _ => fail
  | Z0 => fail
  | _ => let c := eval vm_compute in x in
         lazymatch c with
         | Zpos _ => c
         end
  end.

(** Writes every power of two with a numeral as its exponent. *)
Ltac fold_pows :=
  repeat match goal with
         | |- context [Z.pow_pos 2 ?p] => change (Z.pow_pos 2 p) with (2 ^ Zpos p)
         | H : context [Z.pow_pos 2 ?p] |- _ =>
             change (Z.pow_pos 2 p) with (2 ^ Zpos p) in H
         | |- context [2 ^ ?x] =>
             let c := closed_exponent x in change (2 ^ x) with (2 ^ c)
         | H : context [2 ^ ?x] |- _ =>
             let c := closed_exponent x in change (2 ^ x) with (2 ^ c) in H
         end.

(** [hide_pow] for every closed power of two beyond [2^64] in the goal
    and the hypotheses. *)
Ltac hide_big_pows :=
  fold_pows;
  repeat match goal with
         | |- context [2 ^ Zpos ?p] =>
             lazymatch eval vm_compute in (64 <? Zpos p) with
             | true => hide_pow (Zpos p)
             end
         | H : context [2 ^ Zpos ?p] |- _ =>
             lazymatch eval vm_compute in (64 <? Zpos p) with
             | true => hide_pow (Zpos p)
             end
         | x := context [2 ^ Zpos ?p] |- _ =>
             lazymatch eval vm_compute in (64 <? Zpos p) with
             | true => hide_pow (Zpos p)
             end
         end.

(** Linear and non-linear arithmetic over the hidden powers. *)
Ltac blia := hide_big_pows; lia.

Ltac bnia := hide_big_pows; nia.

(** * Rounding in binary64 *)

Lemma digits2_pos_bounds (p : positive) :
  2 ^ (Zpos (digits2_pos p) - 1) <= Zpos p < 2 ^ Zpos (digits2_pos p).
Proof.
  induction p as [p IH | p IH | ]; cbn [digits2_pos].
  - rewrite Pos2Z.inj_succ.
    replace (Z.succ (Zpos (digits2_pos p)) - 1) with (Z.succ (Zpos (digits2_pos p) - 1)) by blia.
    rewrite !Z.pow_succ_r by blia. blia.
  - rewrite Pos2Z.inj_succ.
    replace (Z.succ (Zpos (digits2_pos p)) - 1) with (Z.succ (Zpos (digits2_pos p) - 1)) by blia.
    rewrite !Z.pow_succ_r by blia. blia.
  - cbn. blia.
Qed.

Lemma iter_pos_nat {A} (f : A -> A) (p : positive) (x : A) :
  iter_pos f p x = Nat.iter (Pos.to_nat p) f x.
Proof.
  revert x; induction p as [p IH | p IH | ]; intro x; cbn [iter_pos].
  - rewrite !IH, Pos2Nat.inj_xI.
    replace (S (2 * Pos.to_nat p))%nat with (Pos.to_nat p + (Pos.to_nat p + 1))%nat by blia.
    rewrite !Nat.iter_add. reflexivity.
  - rewrite !IH, Pos2Nat.inj_xO.
    replace (2 * Pos.to_nat p)%nat with (Pos.to_nat p + Pos.to_nat p)%nat by blia.
    rewrite Nat.iter_add. reflexivity.
  - reflexivity.
Qed.

Lemma shr_1_m (mrs : shr_record) :
  0 <= shr_m mrs -> shr_m (shr_1 mrs) = shr_m mrs / 2.
Proof.
  destruct mrs as [m r s]; cbn [shr_m]; intro H.
  destruct m as [ | [p | p | ] | p ]; cbn [shr_1 shr_m]; try blia.
  - reflexivity.
  - apply Z.div_unique with 1; blia.
  - apply Z.div_unique with 0; blia.
  - reflexivity.
Qed.

Lemma shr_1_exact (mrs : shr_record) :
  0 <= shr_m mrs -> shr_r mrs = false -> shr_s mrs = false ->
  shr_m mrs mod 2 = 0 ->
  shr_r (shr_1 mrs) = false /\ shr_s (shr_1 mrs) = false.
Proof.
  destruct mrs as [m r s]; cbn [shr_m shr_r shr_s]; intros H -> -> Hm.
  rewrite Zmod_odd in Hm.
  destruct m as [ | [p | p | ] | p ]; cbn in Hm |- *; auto; try blia.
Qed.

Lemma shr_iter_spec (m : Z) (n : nat) :
  0 <= m ->
  let mrs := Nat.iter n shr_1 (Build_shr_record m false false) in
  shr_m mrs = m / 2 ^ Z.of_nat n /\
  (m mod 2 ^ Z.of_nat n = 0 -> shr_r mrs = false /\ shr_s mrs = false).
Proof.
  intros Hm; induction n as [ | n IH]; cbn zeta.
  - cbn. rewrite Z.div_1_r. auto.
  - cbn zeta in IH. destruct IH as [IHm IHx].
    rewrite Nat2Z.inj_succ, Z.pow_succ_r by blia.
    rewrite Nat.iter_succ.
    set (mrs := Nat.iter n shr_1 _) in *.
    assert (Hpos : 0 < 2 ^ Z.of_nat n) by (apply Z.pow_pos_nonneg; blia).
    assert (H0 : 0 <= shr_m mrs) by (rewrite IHm; apply Z.div_pos; blia).
    split.
    + rewrite shr_1_m, IHm by assumption.
      rewrite Z.div_div by blia. f_equal. blia.
    + intro Hx.
      assert (Hd : m mod 2 ^ Z.of_nat n = 0).
      { apply Z.mod_divide in Hx; [ | blia].
        apply Z.mod_divide; [blia | ].
        destruct Hx as [c Hc]. exists (c * 2). blia. }
      destruct (IHx Hd) as [Hr Hs].
      apply shr_1_exact; auto.
      rewrite IHm.
      apply Z.mod_divide in Hx; [ | blia]. destruct Hx as [c Hc].
      subst m. replace (c * (2 * 2 ^ Z.of_nat n)) with (c * 2 * 2 ^ Z.of_nat n) by blia.
      rewrite Z.div_mul by blia. apply Z.mod_mul. blia.
Qed.

(** ** Shifts and digit counts *)

Lemma fexp_eq (e : Z) : fexp 53 1024 e = Z.max (e - 53) (-1074).
Proof. reflexivity. Qed.

Lemma digits2_pos_le (p : positive) (n : Z) :
  Zpos p < 2 ^ n -> Zpos (digits2_pos p) <= n.
Proof.
  intro H. pose proof (digits2_pos_bounds p) as [Hl _].
  destruct (Z.le_gt_cases (Zpos (digits2_pos p)) n) as [ | Hgt]; [assumption | exfalso].
  assert (2 ^ n <= 2 ^ (Zpos (digits2_pos p) - 1)) by (apply Z.pow_le_mono_r; blia).
  blia.
Qed.

Lemma digits2_pos_ge (p : positive) (n : Z) :
  2 ^ n <= Zpos p -> n < Zpos (digits2_pos p).
Proof.
  intro H. pose proof (digits2_pos_bounds p) as [_ Hu].
  destruct (Z.lt_ge_cases n (Zpos (digits2_pos p))) as [ | Hge]; [assumption | exfalso].
  assert (2 ^ Zpos (digits2_pos p) <= 2 ^ n) by (apply Z.pow_le_mono_r; blia).
  blia.
Qed.

Lemma finish_spec (s : bool) (m1 e1 : Z) :
  0 <= m1 <= 2 ^ 53 -> -1074 <= e1 -> rounded s m1 e1 (finish s m1 e1).
Proof.
  intros Hm He. unfold finish, shr_fexp.
  destruct m1 as [ | p | p]; [ | | blia].
  - cbn [Zdigits2]. rewrite fexp_eq.
    replace (Z.max (0 + e1 - 53) (-1074) - e1) with (Z.neg (Z.to_pos (e1 - Z.max (e1 - 53) (-1074) + 1)) + 1).
    2:{ rewrite <- Pos2Z.opp_pos, Z2Pos.id; blia. }
    destruct (Z.neg _ + 1) eqn:Hk; try blia; cbn; now constructor.
  - cbn [Zdigits2]. rewrite fexp_eq.
    destruct (Z.eq_dec (Zpos p) (2 ^ 53)) as [Heq | Hne].
    + injection Heq as ->. cbn [digits2_pos Pos.succ].
      replace (Z.max (54 + e1 - 53) (-1074) - e1) with 1 by blia.
      cbn [shr shr_record_of_loc iter_pos shr_1 shr_m].
      destruct (Z.leb_spec (e1 + 1) (1024 - 53)).
      * apply rounded_finite; try blia.
        replace (e1 + 1 - e1) with 1 by blia. reflexivity.
      * apply rounded_inf; blia.
    + assert (Hlt : Zpos p < 2 ^ 53) by blia.
      pose proof (digits2_pos_le p 53 Hlt) as Hd.
      destruct (Z.max (Zpos (digits2_pos p) + e1 - 53) (-1074) - e1) eqn:Hk; try blia.
      * cbn [shr shr_record_of_loc shr_m].
        destruct (Z.leb_spec e1 (1024 - 53)).
        -- apply rounded_finite; try blia. rewrite Z.sub_diag. blia.
        -- apply rounded_inf; blia.
      * cbn [shr shr_record_of_loc shr_m].
        destruct (Z.leb_spec e1 (1024 - 53)).
        -- apply rounded_finite; try blia. rewrite Z.sub_diag. blia.
        -- apply rounded_inf; blia.
Qed.

Lemma round_nearest_even_cases (m : Z) (l : location) :
  round_nearest_even m l = m \/ round_nearest_even m l = m + 1.
Proof.
  destruct l as [ | [ | | ]]; cbn; auto.
  destruct (Z.even m); auto.
Qed.

Lemma bra_unfold (s : bool) (mx ex : Z) (lx : location) :
  binary_round_aux 53 1024 s mx ex lx =
  let '(mrs, e) := shr_fexp 53 1024 mx ex lx in
  finish s (round_nearest_even (shr_m mrs) (loc_of_shr_record mrs)) e.
Proof. reflexivity. Qed.

Lemma bra_spec (s : bool) (M : positive) (E : Z) :
  let e1 := Z.max E (fexp 53 1024 (Zpos (digits2_pos M) + E)) in
  exists m1, faithful (Zpos M) (e1 - E) m1 /\
             rounded s m1 e1 (binary_round_aux 53 1024 s (Zpos M) E loc_Exact).
Proof.
  intro e1. assert (De1 : e1 = Z.max E (fexp 53 1024 (Zpos (digits2_pos M) + E))) by reflexivity.
  clearbody e1. rewrite fexp_eq in De1.
  pose proof (digits2_pos_bounds M) as [Hdl Hdu].
  rewrite bra_unfold. unfold shr_fexp. cbn [Zdigits2]. 
  set (d := Zpos (digits2_pos M)) in *.
  assert (Hnoshift : fexp 53 1024 (d + E) - E <= 0 ->
    exists m1, faithful (Zpos M) (e1 - E) m1 /\ rounded s m1 e1 (finish s (Zpos M) E)).
  { rewrite fexp_eq. intro Hk. assert (He : e1 = E) by blia. rewrite He.
    exists (Zpos M). split.
    + left. now rewrite Z.sub_diag, Z.pow_0_r, Z.div_1_r.
    + apply finish_spec; [ | blia]. split; [blia | ].
      assert (2 ^ d <= 2 ^ 53) by (apply Z.pow_le_mono_r; blia). blia. }
  destruct (fexp 53 1024 (d + E) - E) as [ | k | k] eqn:Hk.
  - apply Hnoshift; blia.
  - clear Hnoshift. rewrite fexp_eq in Hk. cbn [shr shr_record_of_loc].
    assert (He : e1 = E + Zpos k) by blia.
    rewrite iter_pos_nat.
    pose proof (shr_iter_spec (Zpos M) (Pos.to_nat k) ltac:(blia)) as Hit.
    cbn zeta in Hit. rewrite positive_nat_Z in Hit.
    set (mrs := Nat.iter _ _ _) in *. destruct Hit as [Hq Hx].
    assert (Hkpos : 0 < 2 ^ Zpos k) by (apply Z.pow_pos_nonneg; blia).
    assert (Hq0 : 0 <= Zpos M / 2 ^ Zpos k) by (apply Z.div_pos; blia).
    assert (Hqu : Zpos M / 2 ^ Zpos k < 2 ^ 53).
    { apply Z.div_lt_upper_bound; [blia | ].
      rewrite <- Z.pow_add_r by blia.
      assert (2 ^ d <= 2 ^ (Zpos k + 53)); [ | blia].
      apply Z.pow_le_mono_r; blia. }
    exists (round_nearest_even (shr_m mrs) (loc_of_shr_record mrs)). split.
    + replace (e1 - E) with (Zpos k) by blia. unfold faithful.
      destruct (Z.eq_dec (Zpos M mod 2 ^ Zpos k) 0) as [H0 | Hn0].
      * destruct (Hx H0) as [Hr Hs]. left.
        destruct mrs as [m r s']; cbn in *. subst. reflexivity.
      * destruct (round_nearest_even_cases (shr_m mrs) (loc_of_shr_record mrs)) as [-> | ->];
          rewrite Hq; auto.
    + rewrite <- He. apply finish_spec; [ | blia].
      destruct (round_nearest_even_cases (shr_m mrs) (loc_of_shr_record mrs)) as [-> | ->];
        rewrite Hq; blia.
  - apply Hnoshift; blia.
Qed.

(** ** [binary_round]: alignment to the canonical exponent, then rounding *)

Lemma iter_xO_Z (m d : positive) : Zpos (Pos.iter xO m d) = Zpos m * 2 ^ Zpos d.
Proof.
  change (Pos.iter xO m d) with (shift_pos d m).
  rewrite shift_pos_correct, Zpower_pos_nat, Zpower_nat_Z, positive_nat_Z. blia.
Qed.

Lemma digits2_pos_unique (p : positive) (n : Z) :
  2 ^ (n - 1) <= Zpos p < 2 ^ n -> Zpos (digits2_pos p) = n.
Proof.
  intros [Hl Hu].
  pose proof (digits2_pos_le p n Hu).
  pose proof (digits2_pos_ge p (n - 1) Hl). blia.
Qed.

Lemma digits2_pos_shift (m d : positive) :
  Zpos (digits2_pos (Pos.iter xO m d)) = Zpos (digits2_pos m) + Zpos d.
Proof.
  apply digits2_pos_unique. rewrite iter_xO_Z.
  pose proof (digits2_pos_bounds m) as [Hl Hu].
  replace (Zpos (digits2_pos m) + Zpos d - 1) with (Zpos (digits2_pos m) - 1 + Zpos d) by blia.
  rewrite !Z.pow_add_r by blia.
  assert (0 < 2 ^ Zpos d) by (apply Z.pow_pos_nonneg; blia).
  split; bnia.
Qed.

Lemma bra_approx (s : bool) (M : positive) (E : Z) :
  let e1 := fexp 53 1024 (Zpos (digits2_pos M) + E) in
  E <= e1 ->
  exists m1, approx (Zpos M) E e1 m1 /\
             rounded s m1 e1 (binary_round_aux 53 1024 s (Zpos M) E loc_Exact).
Proof.
  intros e1 HE. destruct (bra_spec s M E) as (m1 & Hf & Hr).
  fold e1 in Hf, Hr. rewrite Z.max_r in Hf, Hr by assumption.
  exists m1. split; [ | assumption].
  destruct (Z.eq_dec E e1) as [Heq | Hne].
  - left. split; [blia | ]. unfold faithful in Hf. rewrite <- Heq, Z.sub_diag in *.
    rewrite Z.pow_0_r, Z.mod_1_r, Z.div_1_r in Hf.
    destruct Hf as [-> | [_ Hf]]; [blia | congruence].
  - right. split; [blia | assumption].
Qed.

Lemma br_approx (s : bool) (M : positive) (E : Z) :
  let e1 := fexp 53 1024 (Zpos (digits2_pos M) + E) in
  exists m1, approx (Zpos M) E e1 m1 /\
             rounded s m1 e1 (binary_round 53 1024 s M E).
Proof.
  intro e1. unfold binary_round, shl_align. fold e1.
  destruct (e1 - E) as [ | k | k] eqn:Hk.
  - apply bra_approx. fold e1. blia.
  - apply bra_approx. fold e1. blia.
  - pose proof (bra_approx s (Pos.iter xO M k) e1) as H.
    rewrite digits2_pos_shift in H. cbn zeta in H.
    replace (Zpos (digits2_pos M) + Zpos k + e1) with (Zpos (digits2_pos M) + E) in H by blia.
    fold e1 in H. destruct (H ltac:(blia)) as (m1 & Ha & Hr).
    exists m1. split; [ | assumption].
    left. split; [blia | ].
    destruct Ha as [[_ ->] | [Hlt _]]; [ | blia].
    rewrite Z.sub_diag, Z.pow_0_r, iter_xO_Z, Z.mul_1_r. f_equal. f_equal. blia.
Qed.

(** ** Values as integers at a fixed binary scale *)

Lemma pow2_pos (n : Z) : 0 <= n -> 0 < 2 ^ n.
Proof. intro. apply Z.pow_pos_nonneg; blia. Qed.

Lemma pow2_split (a b : Z) : 0 <= a -> 0 <= b -> 2 ^ (a + b) = 2 ^ a * 2 ^ b.
Proof. intros. apply Z.pow_add_r; assumption. Qed.

Lemma scaled_of_approx (s : bool) (M : positive) (E c m1 : Z) (r : spec_float) :
  let e1 := fexp 53 1024 (Zpos (digits2_pos M) + E) in
  1074 <= c -> - c <= E ->
  approx (Zpos M) E e1 m1 -> rounded s m1 e1 r ->
  faithfulZ (Zpos M * 2 ^ (E + c)) (2 ^ (e1 + c)) (m1 * 2 ^ (e1 + c)) /\
  rresult s c (m1 * 2 ^ (e1 + c)) r.
Proof.
  intros e1 Hc HE Ha Hr.
  assert (De1 : e1 = Z.max (Zpos (digits2_pos M) + E - 53) (-1074)) by reflexivity.
  clearbody e1.
  pose proof (digits2_pos_bounds M) as [Hdl Hdu].
  set (d := Zpos (digits2_pos M)) in *.
  assert (Hu : 0 < 2 ^ (e1 + c)) by (apply pow2_pos; blia).
  assert (Hw : 0 < 2 ^ (E + c)) by (apply pow2_pos; blia).
  split.
  - unfold faithfulZ, faithful in *. destruct Ha as [[Hle ->] | [Hlt Hf]].
    + left.
      assert (Heq : Zpos M * 2 ^ (E + c) = Zpos M * 2 ^ (E - e1) * 2 ^ (e1 + c)).
      { replace (E + c) with ((E - e1) + (e1 + c)) by blia.
        rewrite pow2_split by blia. blia. }
      rewrite Heq. split; [apply Z.mod_mul; blia | reflexivity].
    + assert (Hk : 0 < 2 ^ (e1 - E)) by (apply pow2_pos; blia).
      assert (Hsplit : 2 ^ (e1 + c) = 2 ^ (e1 - E) * 2 ^ (E + c)).
      { rewrite <- pow2_split by blia. f_equal. blia. }
      rewrite Hsplit.
      rewrite Z.div_mul_cancel_r, Z.mul_mod_distr_r by blia.
      pose proof (Z.div_mod (Zpos M) (2 ^ (e1 - E)) ltac:(blia)) as Hdm.
      destruct Hf as [-> | [-> Hn0]].
      * destruct (Z.eq_dec (Zpos M mod 2 ^ (e1 - E)) 0) as [H0 | Hn0].
        -- left. rewrite H0. split; [blia | ]. rewrite H0 in Hdm. bnia.
        -- right. split; [bnia | ]. left. blia.
      * right. split; [bnia | ]. right. blia.
  - destruct Hr as [H0 | m e Hle Hm He Hm53 | Hpos Hov].
    + apply rresult_zero. subst. blia.
    + apply rresult_finite; [blia | assumption | ].
      rewrite <- Hm. replace (e + c) with ((e - e1) + (e1 + c)) by blia.
      rewrite pow2_split by blia. blia.
    + apply rresult_inf.
      destruct Hov as [Hgt | [-> ->]].
      2:{ rewrite <- pow2_split by blia. apply Z.pow_le_mono_r; blia. }
      assert (Hm1 : 2 ^ 52 <= m1).
      { assert (He1 : e1 = d + E - 53) by blia.
        destruct Ha as [[Hle ->] | [Hlt Hf]].
        - assert (2 ^ 52 <= 2 ^ (d - 1) * 2 ^ (E - e1)).
          { rewrite <- pow2_split by blia. apply Z.pow_le_mono_r; blia. }
          assert (0 < 2 ^ (E - e1)) by (apply pow2_pos; blia). bnia.
        - assert (2 ^ 52 <= Zpos M / 2 ^ (e1 - E)).
          { apply Z.div_le_lower_bound; [apply pow2_pos; blia | ].
            rewrite <- pow2_split by blia.
            replace (e1 - E + 52) with (d - 1) by blia. assumption. }
          destruct Hf as [-> | [-> _]]; blia. }
      assert (2 ^ (1024 + c) <= 2 ^ 52 * 2 ^ (e1 + c)).
      { rewrite <- pow2_split by blia. apply Z.pow_le_mono_r; blia. }
      bnia.
Qed.

Lemma binary_round_scaled (s : bool) (M : positive) (E c : Z) :
  1074 <= c -> - c <= E ->
  exists R,
    faithfulZ (Zpos M * 2 ^ (E + c))
              (2 ^ (fexp 53 1024 (Zpos (digits2_pos M) + E) + c)) R /\
    rresult s c R (binary_round 53 1024 s M E).
Proof.
  intros Hc HE. destruct (br_approx s M E) as (m1 & Ha & Hr).
  eexists. eapply scaled_of_approx; eassumption.
Qed.

Lemma binary_round_aux_scaled (s : bool) (M : positive) (E c : Z) :
  1074 <= c -> - c <= E ->
  E <= fexp 53 1024 (Zpos (digits2_pos M) + E) ->
  exists R,
    faithfulZ (Zpos M * 2 ^ (E + c))
              (2 ^ (fexp 53 1024 (Zpos (digits2_pos M) + E) + c)) R /\
    rresult s c R (binary_round_aux 53 1024 s (Zpos M) E loc_Exact).
Proof.
  intros Hc HE Hcan. destruct (bra_approx s M E Hcan) as (m1 & Ha & Hr).
  eexists. eapply scaled_of_approx; eassumption.
Qed.

Lemma unit_bounds (M : positive) (E c : Z) :
  1074 <= c -> - c <= E ->
  let T := Zpos M * 2 ^ (E + c) in
  let j := fexp 53 1024 (Zpos (digits2_pos M) + E) + c in
  c - 1074 <= j /\ T < 2 ^ 53 * 2 ^ j /\ (2 ^ 52 * 2 ^ j <= T \/ j = c - 1074).
Proof.
  intros Hc HE T j.
  assert (Dj : j = Z.max (Zpos (digits2_pos M) + E - 53) (-1074) + c) by reflexivity.
  assert (DT : T = Zpos M * 2 ^ (E + c)) by reflexivity.
  clearbody j T.
  pose proof (digits2_pos_bounds M) as [Hdl Hdu].
  set (d := Zpos (digits2_pos M)) in *.
  assert (Hw : 0 < 2 ^ (E + c)) by (apply pow2_pos; blia).
  split; [blia | split].
  - assert (H : 2 ^ (d + (E + c)) <= 2 ^ (53 + j)) by (apply Z.pow_le_mono_r; blia).
    rewrite (pow2_split d (E + c)), (pow2_split 53 j) in H by blia.
    assert (Zpos M * 2 ^ (E + c) < 2 ^ d * 2 ^ (E + c)) by (apply Z.mul_lt_mono_pos_r; blia).
    blia.
  - destruct (Z.le_gt_cases (-1074) (d + E - 53)); [left | right; blia].
    replace j with (d + E - 53 + c) by blia.
    rewrite <- pow2_split by blia.
    replace (52 + (d + E - 53 + c)) with ((d - 1) + (E + c)) by blia.
    rewrite pow2_split by blia. subst T. apply Z.mul_le_mono_nonneg_r; blia.
Qed.

Lemma binary_round_unit (s : bool) (M : positive) (E c : Z) :
  1074 <= c -> - c <= E ->
  exists u R,
    unit_of c (Zpos M * 2 ^ (E + c)) u /\
    faithfulZ (Zpos M * 2 ^ (E + c)) u R /\
    rresult s c R (binary_round 53 1024 s M E).
Proof.
  intros Hc HE.
  destruct (binary_round_scaled s M E c Hc HE) as (R & Hf & Hr).
  destruct (unit_bounds M E c Hc HE) as (Hj & Hu & Hl).
  eexists; exists R. split; [ | split; eassumption].
  eexists. split; [eassumption | split; [reflexivity | split; assumption]].
Qed.

Lemma binary_round_aux_unit (s : bool) (M : positive) (E c : Z) :
  1074 <= c -> - c <= E ->
  E <= fexp 53 1024 (Zpos (digits2_pos M) + E) ->
  exists u R,
    unit_of c (Zpos M * 2 ^ (E + c)) u /\
    faithfulZ (Zpos M * 2 ^ (E + c)) u R /\
    rresult s c R (binary_round_aux 53 1024 s (Zpos M) E loc_Exact).
Proof.
  intros Hc HE Hcan.
  destruct (binary_round_aux_scaled s M E c Hc HE Hcan) as (R & Hf & Hr).
  destruct (unit_bounds M E c Hc HE) as (Hj & Hu & Hl).
  eexists; exists R. split; [ | split; eassumption].
  eexists. split; [eassumption | split; [reflexivity | split; assumption]].
Qed.

(** ** Consequences of faithful rounding *)

Lemma faithfulZ_ge (T u R A : Z) :
  0 < u -> faithfulZ T u R -> A mod u = 0 -> A <= T -> A <= R.
Proof.
  intros Hu Hf HA HAT.
  apply Z.mod_divide in HA; [ | blia]. destruct HA as [a ->].
  assert (a <= T / u) by (apply Z.div_le_lower_bound; blia).
  pose proof (Z.div_mod T u ltac:(blia)). pose proof (Z.mod_pos_bound T u Hu).
  destruct Hf as [[_ ->] | [_ [-> | ->]]]; bnia.
Qed.

Lemma faithfulZ_le (T u R A : Z) :
  0 < u -> faithfulZ T u R -> A mod u = 0 -> T <= A -> R <= A.
Proof.
  intros Hu Hf HA HAT.
  apply Z.mod_divide in HA; [ | blia]. destruct HA as [a ->].
  pose proof (Z.div_mod T u ltac:(blia)). pose proof (Z.mod_pos_bound T u Hu).
  destruct Hf as [[_ ->] | [Hn [-> | ->]]]; [blia | bnia | ].
  assert (T / u < a); [ | bnia].
  apply Z.div_lt_upper_bound; [blia | ].
  destruct (Z.eq_dec T (a * u)) as [-> | ]; [ | blia].
  rewrite Z.mod_mul in Hn; blia.
Qed.

Lemma faithfulZ_near (T u R : Z) :
  0 < u -> 0 <= T -> faithfulZ T u R -> T - u < R < T + u /\ 0 <= R.
Proof.
  intros Hu HT Hf.
  pose proof (Z.div_mod T u ltac:(blia)). pose proof (Z.mod_pos_bound T u Hu).
  assert (0 <= T / u) by (apply Z.div_pos; blia).
  destruct Hf as [[_ ->] | [Hn [-> | ->]]]; bnia.
Qed.

Lemma pow2_mod (a b : Z) : 0 <= b <= a -> 2 ^ a mod 2 ^ b = 0.
Proof.
  intro H. replace a with ((a - b) + b) by blia.
  rewrite pow2_split by blia. apply Z.mod_mul. pose proof (pow2_pos b); blia.
Qed.

Lemma mul_pow2_mod (n a b : Z) : 0 <= b <= a -> (n * 2 ^ a) mod 2 ^ b = 0.
Proof.
  intro H. replace a with ((a - b) + b) by blia.
  rewrite pow2_split, Z.mul_assoc by blia. apply Z.mod_mul. pose proof (pow2_pos b); blia.
Qed.

(** * Values of binary64 numbers *)

(** ** Values of binary64 numbers in units of [2^-1074] *)

Lemma mag_nonneg (x : double) : 0 <= mag x.
Proof.
  destruct x as [ | | | s m e]; cbn [mag]; try blia.
Qed.

Lemma mag_pos_finite (s : bool) (m : positive) (e : Z) :
  -1074 <= e -> 0 < mag (S754_finite s m e).
Proof. intro. cbn [mag]. pose proof (pow2_pos (e + 1074)). bnia. Qed.

Lemma valid_binary_wf (x : double) :
  valid_binary prec emax x = true -> isfinite x = true -> wf x.
Proof.
  destruct x as [s | s | | s m e]; cbn; try easy.
  unfold bounded, canonical_mantissa. intros H _.
  apply andb_prop in H. destruct H as [Hc He].
  apply Z.eqb_eq in Hc. apply Z.leb_le in He.
  change (fexp prec emax) with (fexp 53 1024) in Hc. rewrite fexp_eq in Hc.
  change (emax - prec) with 971 in He.
  split; [blia | ].
  pose proof (digits2_pos_bounds m) as [_ Hu].
  assert (2 ^ Zpos (digits2_pos m) <= 2 ^ 53) by (apply Z.pow_le_mono_r; blia).
  blia.
Qed.

Lemma rresult_value (s : bool) (R : Z) (r : double) :
  rresult s 1074 R r -> R < 2 ^ 2098 ->
  wf r /\ mag r = R /\
  (R = 0 -> r = S754_zero s) /\
  (R <> 0 -> exists m e, r = S754_finite s m e).
Proof.
  intros Hr Hlt. destruct Hr as [-> | m e He Hm HR | Hov].
  - cbn [wf mag]. repeat split; intros; auto; blia.
  - assert (0 < R) by (rewrite <- HR; pose proof (pow2_pos (e + 1074)); bnia).
    cbn [wf mag]. repeat split; intros; eauto; blia.
  - change (1024 + 1074) with 2098 in Hov. blia.
Qed.

Lemma unit_small (T u : Z) :
  unit_of 1074 T u -> T < 2 ^ 53 * 2 ^ 1074 ->
  exists j, 0 <= j <= 1074 /\ u = 2 ^ j.
Proof.
  intros (j & Hj & -> & Hu & Hl) HT. exists j. split; [ | reflexivity].
  destruct Hl as [Hl | ->]; [ | blia].
  destruct (Z.le_gt_cases j 1074); [blia | exfalso].
  assert (2 ^ 1075 <= 2 ^ j) by (apply Z.pow_le_mono_r; blia).
  change (2 ^ 1075) with (2 * 2 ^ 1074) in H0.
  pose proof (pow2_pos 1074). blia.
Qed.

Lemma faithfulZ_exact (T u R : Z) : faithfulZ T u R -> T mod u = 0 -> R = T.
Proof. intros [[_ ->] | [Hn _]] H; [reflexivity | contradiction]. Qed.

(** ** Integer to floating conversion *)

Lemma of_Z_0 : of_Z 0 = S754_zero false.
Proof. reflexivity. Qed.

Lemma of_Z_spec (z : Z) :
  z <> 0 ->
  exists u R,
    unit_of 1074 (Z.abs z * 2 ^ 1074) u /\
    faithfulZ (Z.abs z * 2 ^ 1074) u R /\
    rresult (z <? 0) 1074 R (of_Z z).
Proof.
  intro Hz. unfold of_Z, binary_normalize.
  destruct z as [ | p | p]; [contradiction | | ].
  - exact (binary_round_unit false p 0 1074 ltac:(blia) ltac:(blia)).
  - exact (binary_round_unit true p 0 1074 ltac:(blia) ltac:(blia)).
Qed.

Lemma of_Z_exact (z : Z) :
  Z.abs z < 2 ^ 53 ->
  wf (of_Z z) /\ IV (of_Z z) = z * 2 ^ 1074 /\
  (z <> 0 -> exists m e, of_Z z = S754_finite (z <? 0) m e).
Proof.
  intro Hz. destruct (Z.eq_dec z 0) as [-> | Hn].
  - rewrite of_Z_0. cbn. repeat split; auto. intros; blia.
  - destruct (of_Z_spec z Hn) as (u & R & Hu & Hf & Hr).
    pose proof (pow2_pos 1074 ltac:(blia)) as Hp.
    assert (HT : Z.abs z * 2 ^ 1074 < 2 ^ 53 * 2 ^ 1074) by bnia.
    destruct (unit_small _ _ Hu HT) as (j & Hj & ->).
    pose proof (faithfulZ_exact _ _ _ Hf (mul_pow2_mod _ _ _ Hj)) as ->.
    assert (Hlt : Z.abs z * 2 ^ 1074 < 2 ^ 2098).
    { change (2 ^ 2098) with (2 ^ 1024 * 2 ^ 1074).
      assert (2 ^ 53 < 2 ^ 1024) by (apply Z.pow_lt_mono_r; blia). bnia. }
    destruct (rresult_value _ _ _ Hr Hlt) as (Hwf & Hmag & _ & Hfin).
    destruct (Hfin ltac:(blia)) as (m & e & Heq).
    split; [assumption | split; [ | eauto]].
    unfold IV. rewrite Hmag. rewrite Heq. cbn [sign_of].
    destruct (Z.ltb_spec z 0); cbn [cond_Zopp]; blia.
Qed.

(** ** Floating to integer conversion *)

Lemma trunc_mag_scaled (m : positive) (e : Z) :
  -1074 <= e -> trunc_mag m e = (Zpos m * 2 ^ (e + 1074)) / 2 ^ 1074.
Proof.
  intro He. pose proof (pow2_pos 1074 ltac:(blia)) as Hp.
  destruct e as [ | p | p]; cbn [trunc_mag].
  - rewrite Z.add_0_l, Z.div_mul; blia.
  - rewrite pow2_split, Z.mul_assoc, Z.div_mul by blia. reflexivity.
  - assert (Hs : 2 ^ 1074 = 2 ^ Zpos p * 2 ^ (Zneg p + 1074)).
    { rewrite <- pow2_split by blia. f_equal. blia. }
    rewrite Hs.
    rewrite Z.div_mul_cancel_r; [reflexivity | | ].
    + pose proof (pow2_pos (Zpos p)); blia.
    + pose proof (pow2_pos (Zneg p + 1074)); blia.
Qed.

Lemma to_long_finite (s : bool) (m : positive) (e : Z) :
  -1074 <= e ->
  to_long (S754_finite s m e) =
  Long.checked (cond_Zopp s (mag (S754_finite s m e) / 2 ^ 1074)).
Proof. intro He. cbn [to_long mag]. now rewrite trunc_mag_scaled. Qed.

Lemma to_long_of_Z (z : Z) :
  Z.abs z < 2 ^ 53 -> to_long (of_Z z) = Some z.
Proof.
  intro Hz. destruct (Z.eq_dec z 0) as [-> | Hn]; [reflexivity | ].
  destruct (of_Z_exact z Hz) as (Hwf & HIV & Hfin).
  destruct (Hfin Hn) as (m & e & Heq). rewrite Heq in *.
  cbn [wf] in Hwf. rewrite to_long_finite by blia.
  unfold IV in HIV. cbn [sign_of] in HIV.
  pose proof (pow2_pos 1074 ltac:(blia)) as Hp.
  assert (Hm : mag (S754_finite (z <? 0) m e) = Z.abs z * 2 ^ 1074).
  { destruct (Z.ltb_spec z 0); cbn [cond_Zopp] in HIV; blia. }
  rewrite Hm, Z.div_mul by blia.
  assert (cond_Zopp (z <? 0) (Z.abs z) = z) as ->.
  { destruct (Z.ltb_spec z 0); cbn [cond_Zopp]; blia. }
  unfold Long.checked, Long.in_range, Long.MIN, Long.MAX.
  assert (2 ^ 53 < 2 ^ 63) by (apply Z.pow_lt_mono_r; blia).
  destruct (Z.leb_spec (- 2 ^ 63) z); [ | blia].
  destruct (Z.leb_spec z (2 ^ 63 - 1)); [reflexivity | blia].
Qed.

(** ** Addition and multiplication *)

Lemma shl_align_fst (m : positive) (e ez : Z) :
  ez <= e -> Zpos (fst (shl_align m e ez)) = Zpos m * 2 ^ (e - ez).
Proof.
  intro H. unfold shl_align.
  destruct (ez - e) as [ | p | p] eqn:Hd; cbn [fst]; try blia.
  - replace (e - ez) with 0 by blia. blia.
  - rewrite iter_xO_Z. f_equal. f_equal. blia.
Qed.

Lemma SFadd_finite (sx : bool) (mx : positive) (ex : Z)
      (sy : bool) (my : positive) (ey : Z) :
  -1074 <= ex -> -1074 <= ey ->
  let x := S754_finite sx mx ex in
  let y := S754_finite sy my ey in
  let T := IV x + IV y in
  (T = 0 -> add x y = S754_zero false) /\
  (T <> 0 ->
   exists u R,
     unit_of 1074 (Z.abs T) u /\ faithfulZ (Z.abs T) u R /\
     rresult (T <? 0) 1074 R (add x y)).
Proof.
  intros Hex Hey x y T.
  assert (DT : T = IV x + IV y) by reflexivity. clearbody T.
  unfold x, y in *. clear x y.
  unfold add, SFadd. cbv zeta.
  set (ez := Z.min ex ey) in *.
  rewrite !shl_align_fst by blia.
  set (S := cond_Zopp sx _ + cond_Zopp sy _).
  assert (HS : S * 2 ^ (ez + 1074) = T).
  { rewrite DT. unfold S, IV. cbn [sign_of mag].
    replace (ex + 1074) with ((ex - ez) + (ez + 1074)) by blia.
    replace (ey + 1074) with ((ey - ez) + (ez + 1074)) by blia.
    rewrite (pow2_split (ex - ez)), (pow2_split (ey - ez)) by blia.
    destruct sx, sy; cbn [cond_Zopp]; blia. }
  pose proof (pow2_pos (ez + 1074) ltac:(blia)) as Hp.
  clearbody S. unfold binary_normalize.
  destruct S as [ | p | p].
  - split; [reflexivity | blia].
  - split; [blia | intros _].
    assert (Z.abs T = Zpos p * 2 ^ (ez + 1074)) as -> by blia.
    assert ((T <? 0) = false) as -> by (apply Z.ltb_ge; blia).
    exact (binary_round_unit false p ez 1074 ltac:(blia) ltac:(blia)).
  - split; [blia | intros _].
    assert (Z.abs T = Zpos p * 2 ^ (ez + 1074)) as -> by blia.
    assert ((T <? 0) = true) as -> by (apply Z.ltb_lt; blia).
    exact (binary_round_unit true p ez 1074 ltac:(blia) ltac:(blia)).
Qed.

Lemma SFmul_finite (sx : bool) (mx : positive) (ex : Z)
      (sy : bool) (my : positive) (ey : Z) :
  -1074 <= ex -> -1074 <= ey ->
  2 ^ 52 <= Zpos mx \/ 2 ^ 52 <= Zpos my ->
  let x := S754_finite sx mx ex in
  let y := S754_finite sy my ey in
  exists u R,
    unit_of 2148 (mag x * mag y) u /\ faithfulZ (mag x * mag y) u R /\
    rresult (xorb sx sy) 2148 R (mul x y).
Proof.
  intros Hex Hey Hbig x y. unfold x, y, mul, SFmul. cbn [mag].
  assert (HT : Zpos mx * 2 ^ (ex + 1074) * (Zpos my * 2 ^ (ey + 1074)) =
               Zpos (mx * my) * 2 ^ (ex + ey + 2148)).
  { replace (ex + ey + 2148) with ((ex + 1074) + (ey + 1074)) by blia.
    rewrite (pow2_split (ex + 1074) (ey + 1074)), Pos2Z.inj_mul by blia. ring. }
  rewrite HT.
  apply binary_round_aux_unit; try blia.
  rewrite fexp_eq.
  assert (52 < Zpos (digits2_pos (mx * my))); [ | blia].
  apply digits2_pos_ge. rewrite Pos2Z.inj_mul. bnia.
Qed.

(** ** Signs *)

Lemma rounded_class (s : bool) (m1 e1 : Z) (r : double) :
  rounded s m1 e1 r ->
  r = S754_zero s \/ r = S754_infinity s \/ exists m e, r = S754_finite s m e.
Proof. destruct 1; eauto. Qed.

Lemma binary_round_class (s : bool) (M : positive) (E : Z) :
  let r := binary_round 53 1024 s M E in
  r = S754_zero s \/ r = S754_infinity s \/ exists m e, r = S754_finite s m e.
Proof.
  destruct (br_approx s M E) as (m1 & _ & Hr). eapply rounded_class; eassumption.
Qed.

Lemma binary_round_aux_class (s : bool) (M : positive) (E : Z) :
  let r := binary_round_aux 53 1024 s (Zpos M) E loc_Exact in
  r = S754_zero s \/ r = S754_infinity s \/ exists m e, r = S754_finite s m e.
Proof.
  destruct (bra_spec s M E) as (m1 & _ & Hr). eapply rounded_class; eassumption.
Qed.

Lemma add_nonneg (x y : double) : nonneg x -> nonneg y -> nonneg (add x y).
Proof.
  destruct x as [sx | [ | ] | | [ | ] mx ex]; cbn [nonneg]; try easy;
  destruct y as [sy | [ | ] | | [ | ] my ey]; cbn [nonneg]; try easy; intros _ _;
    try (destruct sx); try (destruct sy); cbn; try exact I.
  unfold add, SFadd. cbv zeta.
  set (ez := Z.min ex ey). cbn [cond_Zopp]. cbn [Z.add binary_normalize].
  pose proof (binary_round_class false
    (fst (shl_align mx ex ez) + fst (shl_align my ey ez)) ez) as H.
  cbv zeta in H. change prec with 53. change emax with 1024.
  destruct H as [-> | [-> | (m & e & ->)]]; exact I.
Qed.

Lemma mul_nonneg_finite (x : double) (my : positive) (ey : Z) :
  nonneg x -> nonneg (mul x (S754_finite false my ey)).
Proof.
  destruct x as [sx | [ | ] | | [ | ] mx ex]; cbn [nonneg]; try easy; intros _.
  unfold mul, SFmul. cbn [xorb].
  pose proof (binary_round_aux_class false (mx * my) (ex + ey)) as H.
  cbv zeta in H. change prec with 53. change emax with 1024.
  destruct H as [-> | [-> | (m & e & ->)]]; exact I.
Qed.

Lemma to_long_nonneg (x : double) (n : Z) :
  nonneg x -> to_long x = Some n -> 0 <= n.
Proof.
  destruct x as [sx | [ | ] | | [ | ] mx ex]; cbn [nonneg to_long]; try easy.
  - intros _ [= <-]. blia.
  - intros _. unfold Long.checked. destruct (Long.in_range _); [ | discriminate].
    intros [= <-]. cbn [cond_Zopp].
    destruct ex as [ | p | p]; cbn [trunc_mag]; try blia.
    apply Z.div_pos; [blia | apply pow2_pos; blia].
Qed.

(** * Durations and schedule arithmetic *)

Lemma ltb_zero (x : double) : ltb x zero = negative x.
Proof. destruct x as [[ | ] | [ | ] | | [ | ] m e]; reflexivity. Qed.

Lemma unit_le (T u : Z) : unit_of 1074 T u -> 0 < T -> 0 < u <= T.
Proof.
  intros (j & Hj & -> & Hu & Hl) HT.
  pose proof (pow2_pos j ltac:(blia)).
  destruct Hl as [Hl | ->]; [ | cbn; blia].
  assert (1 <= 2 ^ 52) by (cbn; blia). bnia.
Qed.

Lemma faithfulZ_pos (T u R : Z) :
  0 < u <= T -> faithfulZ T u R -> u <= R.
Proof.
  intros Hu Hf. apply (faithfulZ_ge T u R u); try blia; [assumption | ].
  apply Z.mod_same. blia.
Qed.

(** A finite nonzero sum keeps the sign of the exact sum. *)
Lemma add_finite_sign (sx : bool) (mx : positive) (ex : Z)
      (sy : bool) (my : positive) (ey : Z) :
  -1074 <= ex -> -1074 <= ey ->
  let x := S754_finite sx mx ex in
  let y := S754_finite sy my ey in
  let T := IV x + IV y in
  T <> 0 -> T < 2 ^ 2097 -> - 2 ^ 2097 < T ->
  exists m e, add x y = S754_finite (T <? 0) m e /\ -1074 <= e <= 971 /\
              Zpos m < 2 ^ 53 /\
              exists u, unit_of 1074 (Z.abs T) u /\
                        faithfulZ (Z.abs T) u (mag (add x y)).
Proof.
  intros Hex Hey x y T HT Hhi Hlo.
  destruct (SFadd_finite sx mx ex sy my ey Hex Hey) as [_ H].
  destruct (H HT) as (u & R & Hu & Hf & Hr). fold x y T in Hu, Hf, Hr.
  pose proof (unit_le _ _ Hu ltac:(blia)) as Hule.
  pose proof (faithfulZ_pos _ _ _ Hule Hf) as HR.
  pose proof (faithfulZ_near (Z.abs T) u R ltac:(blia) ltac:(blia) Hf) as [HRn _].
  assert (HR2 : R < 2 ^ 2098).
  { change (2 ^ 2098) with (2 * 2 ^ 2097). blia. }
  destruct (rresult_value _ _ _ Hr HR2) as (Hwf & Hmag & _ & Hfin).
  destruct (Hfin ltac:(blia)) as (m & e & Heq).
  exists m, e. rewrite Heq in Hwf, Hmag |- *. cbn [wf] in Hwf.
  repeat split; try blia.
  exists u. rewrite Hmag. split; assumption.
Qed.

(** ** Durations *)

Lemma SecPerNSec_eq : SecPerNSec_ = S754_finite false 4835703278458517 (-82).
Proof. vm_compute. reflexivity. Qed.

Lemma of_Z_mag (z : Z) :
  z <> 0 -> Z.abs z < 2 ^ 53 ->
  exists m e, of_Z z = S754_finite (z <? 0) m e /\ -1074 <= e <= 971 /\
              Zpos m < 2 ^ 53 /\ mag (of_Z z) = Z.abs z * 2 ^ 1074.
Proof.
  intros Hn Hz. destruct (of_Z_exact z Hz) as (Hwf & HIV & Hfin).
  destruct (Hfin Hn) as (m & e & Heq). exists m, e.
  rewrite Heq in *. cbn [wf] in Hwf. repeat split; try blia.
  unfold IV in HIV. cbn [sign_of] in HIV.
  destruct (Z.ltb_spec z 0); cbn [cond_Zopp] in HIV; blia.
Qed.

Lemma nsec_to_sec (dn : Z) :
  - NSecPerSec_ < dn < NSecPerSec_ ->
  let y := mul (of_Z dn) SecPerNSec_ in
  (dn = 0 -> y = S754_zero false) /\
  (dn <> 0 -> exists m e, y = S754_finite (dn <? 0) m e /\ -1074 <= e <= 971 /\
                          0 < mag y < 2 ^ 1074).
Proof.
  intros Hdn y. unfold NSecPerSec_ in Hdn. split.
  - intros ->. unfold y. rewrite SecPerNSec_eq, of_Z_0. reflexivity.
  - intro Hn.
    assert (H53 : Z.abs dn < 2 ^ 53) by (change (2 ^ 53) with 9007199254740992; lia).
    destruct (of_Z_mag dn Hn H53) as (mq & eq & Heq & Heq_r & Hmq & Hmagq).
    unfold y. rewrite SecPerNSec_eq, Heq.
    destruct (SFmul_finite (dn <? 0) mq eq false 4835703278458517 (-82)
                ltac:(lia) ltac:(lia) ltac:(right; cbn; lia)) as (u & R & Hu & Hf & Hr).
    cbv zeta in Hu, Hf, Hr. rewrite <- Heq in Hu, Hf. rewrite Hmagq in Hu, Hf.
    cbn [mag] in Hu, Hf. change (-82 + 1074) with 992 in Hu, Hf.
    rewrite xorb_false_r in Hr.
    set (r := mul (S754_finite (dn <? 0) mq eq) (S754_finite false 4835703278458517 (-82))) in *.
    clearbody r.
    assert (HT : Z.abs dn * 2 ^ 1074 * (4835703278458517 * 2 ^ 992) =
                 Z.abs dn * 4835703278458517 * 2 ^ 2066).
    { change (2 ^ 2066) with (2 ^ 1074 * 2 ^ 992).
      generalize (2 ^ 1074) (2 ^ 992). intros A B. ring. }
    rewrite HT in Hu, Hf. clear HT.
    set (T := Z.abs dn * 4835703278458517 * 2 ^ 2066) in *.
    assert (HTlo : 2 ^ 52 * 2 ^ 2066 <= T).
    { unfold T. change (2 ^ 52) with 4503599627370496.
      apply Z.mul_le_mono_nonneg_r; [apply Z.lt_le_incl, pow2_pos | ]; lia. }
    assert (HThi : T <= (2 ^ 82 - 2 ^ 34) * 2 ^ 2066).
    { unfold T. apply Z.mul_le_mono_nonneg_r; [apply Z.lt_le_incl, pow2_pos; lia | ].
      change (2 ^ 82 - 2 ^ 34) with 4835703278458499518955520. lia. }
    clearbody T.
    destruct Hu as (j & Hj & -> & Hu53 & Hl).
    assert (Hj2 : j <= 2100).
    { destruct Hl as [Hl | ->]; [ | lia].
      destruct (Z.le_gt_cases j 2100); [assumption | exfalso].
      assert (2 ^ 2101 <= 2 ^ j) by (apply Z.pow_le_mono_r; lia).
      change (2 ^ 2101) with (2 ^ 35 * 2 ^ 2066) in H0.
      change (2 ^ 82 - 2 ^ 34) with 4835703278458499518955520 in HThi.
      change (2 ^ 52) with 4503599627370496 in Hl.
      change (2 ^ 35) with 34359738368 in H0.
      clear HTlo Hf. hide_pow 2066. nia. }
    pose proof (pow2_pos j ltac:(lia)) as Hup.
    assert (Hule : 0 < 2 ^ j <= T).
    { split; [assumption | ]. destruct Hl as [Hl | ->].
      - change (2 ^ 52) with 4503599627370496 in Hl. clear HTlo HThi Hf. nia.
      - assert (2 ^ 1074 <= 2 ^ 2066) by (apply Z.pow_le_mono_r; lia).
        change (2 ^ 52) with 4503599627370496 in HTlo.
        clear HThi Hf. change (2148 - 1074) with 1074 in *. hide_pow 2066. hide_pow 1074. lia. }
    pose proof (faithfulZ_pos _ _ _ Hule Hf) as HRlo.
    assert (HRhi : R <= (2 ^ 82 - 2 ^ 34) * 2 ^ 2066).
    { apply (faithfulZ_le T (2 ^ j) R); try assumption.
      change ((2 ^ 82 - 2 ^ 34) * 2 ^ 2066) with ((2 ^ 48 - 1) * 2 ^ 2100).
      apply mul_pow2_mod. lia. }
    assert (HR2 : R < 2 ^ 2148).
    { change (2 ^ 2148) with (2 ^ 82 * 2 ^ 2066).
      change (2 ^ 82 - 2 ^ 34) with 4835703278458499518955520 in HRhi.
      change (2 ^ 82) with 4835703278458516698824704.
      clear HTlo HThi Hf Hule. hide_pow 2066. lia. }
    clear HTlo HThi Hf Hule HRhi.
    destruct Hr as [-> | m e He Hm HR | Hov].
    + lia.
    + exists m, e. split; [reflexivity | split; [lia | ]]. cbn [mag].
      assert (Hs : Zpos m * 2 ^ (e + 2148) = Zpos m * 2 ^ (e + 1074) * 2 ^ 1074).
      { replace (e + 2148) with ((e + 1074) + 1074) by lia.
        rewrite pow2_split by lia. generalize (2 ^ 1074) (2 ^ (e + 1074)). intros A B. ring. }
      rewrite Hs in HR.
      change (2 ^ 2148) with (2 ^ 1074 * 2 ^ 1074) in HR2.
      pose proof (pow2_pos (e + 1074) ltac:(lia)).
      hide_pow 1074.
      split; nia.
    + assert (2 ^ 2148 <= 2 ^ (1024 + 2148)) by (apply Z.pow_le_mono_r; lia).
      change (1024 + 2148) with 3172 in *.
      hide_pow 2148. hide_pow 3172. lia.
Qed.

Lemma sec_to_double (ds : Z) :
  ds <> 0 -> Z.abs ds <= 2 ^ 64 ->
  exists m e, of_Z ds = S754_finite (ds <? 0) m e /\ -1074 <= e <= 971 /\
              2 ^ 1074 <= mag (of_Z ds) < 2 ^ 1140.
Proof.
  intros Hn Hb.
  destruct (of_Z_spec ds Hn) as (u & R & Hu & Hf & Hr).
  pose proof (pow2_pos 1074 ltac:(blia)) as Hp.
  set (T := Z.abs ds * 2 ^ 1074) in *.
  assert (HTlo : 2 ^ 1074 <= T) by (unfold T; bnia).
  assert (HThi : T <= 2 ^ 64 * 2 ^ 1074) by (unfold T; bnia).
  pose proof (unit_le _ _ Hu ltac:(blia)) as Hule.
  pose proof (faithfulZ_near T u R ltac:(blia) ltac:(blia) Hf) as [HRn _].
  assert (HRlo : 2 ^ 1074 <= R).
  { destruct Hu as (j & Hj & -> & Hu53 & Hl).
    destruct Hl as [Hl | ->].
    - assert (Hj2 : 1022 <= j).
      { destruct (Z.le_gt_cases 1022 j); [assumption | exfalso].
        assert (2 ^ j <= 2 ^ 1021) by (apply Z.pow_le_mono_r; blia).
        change (2 ^ 1074) with (2 ^ 53 * 2 ^ 1021) in HTlo. 
        assert (0 < 2 ^ 53) by (cbn; blia). bnia. }
      assert (2 ^ 52 * 2 ^ j <= R).
      { apply (faithfulZ_ge T (2 ^ j) R); try assumption; try blia.
        apply Z.mod_mul. blia. }
      assert (2 ^ 1022 <= 2 ^ j) by (apply Z.pow_le_mono_r; blia).
      change (2 ^ 1074) with (2 ^ 52 * 2 ^ 1022).
      assert (0 < 2 ^ 52) by (cbn; blia). bnia.
    - rewrite (faithfulZ_exact _ _ _ Hf); [assumption | ].
      apply Z.mod_1_r. }
  assert (HRhi : R < 2 ^ 1140).
  { change (2 ^ 1140) with (2 ^ 66 * 2 ^ 1074).
    change (2 ^ 64) with 18446744073709551616 in HThi.
    change (2 ^ 66) with 73786976294838206464. blia. }
  assert (HR2 : R < 2 ^ 2098).
  { assert (2 ^ 1140 < 2 ^ 2098) by (apply Z.pow_lt_mono_r; blia). blia. }
  destruct (rresult_value _ _ _ Hr HR2) as (Hwf & Hmag & _ & Hfin).
  destruct (Hfin ltac:(blia)) as (m & e & Heq).
  exists m, e. rewrite Hmag. rewrite Heq in Hwf |- *. cbn [wf] in Hwf.
  repeat split; blia.
Qed.

Lemma in_range_bounds (z : Z) :
  Long.in_range z = true <-> - 2 ^ 63 <= z <= 2 ^ 63 - 1.
Proof.
  unfold Long.in_range, Long.MIN, Long.MAX.
  rewrite andb_true_iff, !Z.leb_le. reflexivity.
Qed.

Lemma checked_some (z : Z) :
  Long.in_range z = true -> Long.checked z = Some z.
Proof. unfold Long.checked. now intros ->. Qed.

Lemma GetDuration_sign (s e : timespec) :
  normalized s -> normalized e ->
  Long.in_range (tv_sec e - tv_sec s) = true ->
  exists d, GetDuration s e = Some d /\ isfinite d = true /\
            negative d = ts_ltb e s.
Proof.
  intros Hs He Hr. unfold normalized, NSecPerSec_ in Hs, He.
  unfold GetDuration, Long.sub. rewrite (checked_some _ Hr). cbn [bind].
  assert (Hrn : Long.in_range (tv_nsec e - tv_nsec s) = true).
  { apply in_range_bounds. 
    assert (2 ^ 31 < 2 ^ 63) by (apply Z.pow_lt_mono_r; blia).
    change (2 ^ 31) with 2147483648 in H. blia. }
  rewrite (checked_some _ Hrn). cbn [bind].
  apply in_range_bounds in Hr.
  set (ds := tv_sec e - tv_sec s) in *. set (dn := tv_nsec e - tv_nsec s) in *.
  eexists. split; [reflexivity | ].
  assert (Hlt : ts_ltb e s = (ds <? 0) || ((ds =? 0) && (dn <? 0))).
  { unfold ts_ltb, ds, dn.
    destruct (Z.ltb_spec (tv_sec e) (tv_sec s)), (Z.ltb_spec (tv_sec e - tv_sec s) 0),
             (Z.eqb_spec (tv_sec e) (tv_sec s)), (Z.eqb_spec (tv_sec e - tv_sec s) 0),
             (Z.ltb_spec (tv_nsec e) (tv_nsec s)), (Z.ltb_spec (tv_nsec e - tv_nsec s) 0);
      cbn [orb andb]; try reflexivity; blia. }
  rewrite Hlt. clear Hlt.
  assert (Hdn : - NSecPerSec_ < dn < NSecPerSec_) by (unfold NSecPerSec_, dn; blia).
  destruct (nsec_to_sec dn Hdn) as [Hy0 Hy1]. cbv zeta in Hy0, Hy1.
  set (y := mul (of_Z dn) SecPerNSec_) in *.
  assert (Hds64 : Z.abs ds <= 2 ^ 64).
  { assert (2 ^ 63 < 2 ^ 64) by (apply Z.pow_lt_mono_r; blia). blia. }
  destruct (Z.eq_dec ds 0) as [Hds | Hds].
  - rewrite Hds, of_Z_0. cbn [Z.ltb Z.compare Z.eqb orb andb].
    destruct (Z.eq_dec dn 0) as [Hdn0 | Hdn0].
    + rewrite (Hy0 Hdn0), Hdn0. split; reflexivity.
    + destruct (Hy1 Hdn0) as (m & e' & -> & _). cbn.
      split; [reflexivity | ]. destruct (dn <? 0); reflexivity.
  - destruct (sec_to_double ds Hds Hds64) as (mx & ex & Hx & Hex & Hmx).
    assert (Hsgn : (ds <? 0) || ((ds =? 0) && (dn <? 0)) = (ds <? 0)).
    { destruct (Z.eqb_spec ds 0); [contradiction | ]. cbn. apply orb_false_r. }
    rewrite Hsgn. clear Hsgn.
    destruct (Z.eq_dec dn 0) as [Hdn0 | Hdn0].
    + rewrite (Hy0 Hdn0), Hx. cbn. split; [reflexivity | ].
      destruct (ds <? 0); reflexivity.
    + destruct (Hy1 Hdn0) as (my & ey & Hy & Hey & Hmy).
      rewrite Hx in Hmx |- *. rewrite Hy in Hmy |- *.
      set (T := IV (S754_finite (ds <? 0) mx ex) + IV (S754_finite (dn <? 0) my ey)).
      assert (HT : (T <? 0) = (ds <? 0) /\ T <> 0 /\ T < 2 ^ 2097 /\ - 2 ^ 2097 < T).
      { unfold T, IV. cbn [sign_of].
        assert (H41 : 2 ^ 1141 <= 2 ^ 2097) by (apply Z.pow_le_mono_r; blia).
        change (2 ^ 1141) with (2 * 2 ^ 1140) in H41.
        assert (H74 : 2 ^ 1074 <= 2 ^ 1140) by (apply Z.pow_le_mono_r; blia).
        pose proof (pow2_pos 1074 ltac:(blia)).
        destruct (ds <? 0), (dn <? 0); cbn [cond_Zopp];
          (split; [first [apply Z.ltb_lt; blia | apply Z.ltb_ge; blia] | blia]). }
      destruct HT as (HTs & HT0 & HThi & HTlo).
      destruct (add_finite_sign (ds <? 0) mx ex (dn <? 0) my ey
                  ltac:(blia) ltac:(blia) HT0 HThi HTlo) as (m & e' & Hadd & _).
      fold T in Hadd. rewrite Hadd, HTs. cbn.
      split; [reflexivity | ]. destruct (ds <? 0); reflexivity.
Qed.

(** ** Advancing the step time *)

Lemma NSecPerSec_double :
  of_Z NSecPerSec_ = S754_finite false 8388608000000000 (-23).
Proof. vm_compute. reflexivity. Qed.

Lemma valid_nonneg (ts : double) : TimeStepIsValid ts = true -> nonneg ts.
Proof. destruct ts as [[ | ] | [ | ] | | [ | ] m e]; cbn; easy. Qed.

Lemma of_Z_nonneg (z : Z) : 0 <= z -> nonneg (of_Z z).
Proof.
  intro Hz. unfold of_Z, binary_normalize. destruct z as [ | p | p]; [exact I | | blia].
  pose proof (binary_round_class false p 0) as H. cbv zeta in H.
  change prec with 53. change emax with 1024.
  destruct H as [-> | [-> | (m & e & ->)]]; exact I.
Qed.

Lemma scaled_step_nonneg (ts : double) (nsec : Z) :
  TimeStepIsValid ts = true -> 0 <= nsec ->
  nonneg (add (of_Z nsec) (mul ts (of_Z NSecPerSec_))).
Proof.
  intros Hts Hn. apply add_nonneg; [now apply of_Z_nonneg | ].
  rewrite NSecPerSec_double. apply mul_nonneg_finite. now apply valid_nonneg.
Qed.

Lemma rem_normalized (n : Z) : 0 <= n -> 0 <= Z.rem n NSecPerSec_ < NSecPerSec_.
Proof. intro. apply Z.rem_bound_pos; unfold NSecPerSec_; blia. Qed.

Lemma advance_normalized (ts : double) (t t' : timespec) :
  TimeStepIsValid ts = true -> 0 <= tv_nsec t ->
  advance ts t = Some t' -> normalized t'.
Proof.
  intros Hts Hn. unfold advance.
  destruct (to_long _) as [n | ] eqn:Hl; cbn [bind]; [ | discriminate].
  destruct (Long.add _ _) as [sec | ]; cbn [bind]; [ | discriminate].
  intros [= <-]. unfold normalized. cbn [tv_nsec].
  apply rem_normalized.
  eapply to_long_nonneg; [ | exact Hl]. now apply scaled_step_nonneg.
Qed.

Lemma advance_nanos (ts : double) (t t' : timespec) :
  advance ts t = Some t' ->
  exists n, to_long (add (of_Z (tv_nsec t)) (mul ts (of_Z NSecPerSec_))) = Some n /\
            nanos t' = tv_sec t * NSecPerSec_ + n.
Proof.
  unfold advance.
  destruct (to_long _) as [n | ] eqn:Hl; cbn [bind]; [ | discriminate].
  unfold Long.add, Long.checked.
  destruct (Long.in_range _); cbn [bind]; [ | discriminate].
  intros [= <-]. exists n. split; [reflexivity | ].
  unfold nanos. cbn [tv_sec tv_nsec].
  pose proof (Z.quot_rem' n NSecPerSec_). blia.
Qed.

(** The conversion of a sum of two whole numbers is exact below [2^53]. *)
Lemma add_of_Z (a b : Z) :
  0 <= a -> 0 <= b -> a + b < 2 ^ 53 ->
  to_long (add (of_Z a) (of_Z b)) = Some (a + b).
Proof.
  intros Ha Hb Hab.
  destruct (Z.eq_dec a 0) as [-> | Ha0].
  { rewrite of_Z_0. destruct (Z.eq_dec b 0) as [-> | Hb0]; [reflexivity | ].
    destruct (of_Z_mag b Hb0 ltac:(blia)) as (m & e & Heq & _).
    rewrite Heq. cbn [add SFadd]. rewrite <- Heq. apply to_long_of_Z. blia. }
  destruct (of_Z_mag a Ha0 ltac:(blia)) as (ma & ea & Heqa & Hea & _ & Hmaga).
  destruct (Z.eq_dec b 0) as [-> | Hb0].
  { rewrite of_Z_0, Heqa. cbn [add SFadd]. rewrite <- Heqa, Z.add_0_r.
    apply to_long_of_Z. blia. }
  destruct (of_Z_mag b Hb0 ltac:(blia)) as (mb & eb & Heqb & Heb & _ & Hmagb).
  rewrite Heqa, Heqb in *.
  assert (Hsa : (a <? 0) = false) by (apply Z.ltb_ge; blia).
  assert (Hsb : (b <? 0) = false) by (apply Z.ltb_ge; blia).
  rewrite Hsa, Hsb in *.
  pose proof (pow2_pos 1074 ltac:(blia)) as Hp.
  set (T := IV (S754_finite false ma ea) + IV (S754_finite false mb eb)).
  assert (HT : T = (a + b) * 2 ^ 1074).
  { unfold T, IV. cbn [sign_of cond_Zopp]. rewrite Hmaga, Hmagb. blia. }
  assert (H97 : 2 ^ 2097 = 2 ^ 1023 * 2 ^ 1074) by reflexivity.
  assert (H53 : 2 ^ 53 < 2 ^ 1023) by (apply Z.pow_lt_mono_r; blia).
  destruct (add_finite_sign false ma ea false mb eb ltac:(blia) ltac:(blia))
    as (m & e & Hadd & He & Hm & u & Hu & Hf); fold T.
  - blia.
  - rewrite H97. bnia.
  - bnia.
  - fold T in Hadd, Hu, Hf.
    assert ((T <? 0) = false) as Hsg by (apply Z.ltb_ge; blia).
    rewrite Hsg in Hadd. rewrite Hadd in Hf |- *.
    assert (HTabs : Z.abs T = T) by blia. rewrite HTabs in Hu, Hf.
    destruct (unit_small T u Hu ltac:(bnia)) as (j & Hj & ->).
    assert (Hmod : T mod 2 ^ j = 0) by (rewrite HT; apply mul_pow2_mod; blia).
    pose proof (faithfulZ_exact _ _ _ Hf Hmod) as Hmag.
    rewrite to_long_finite by blia. rewrite Hmag, HT, Z.div_mul by blia.
    cbn [cond_Zopp]. apply checked_some. apply in_range_bounds.
    assert (2 ^ 53 < 2 ^ 63) by (apply Z.pow_lt_mono_r; blia). blia.
Qed.

Lemma add_zero_r (a : Z) (s : bool) :
  0 <= a < 2 ^ 53 -> to_long (add (of_Z a) (S754_zero s)) = Some a.
Proof.
  intros Ha. destruct (Z.eq_dec a 0) as [-> | Ha0].
  - rewrite of_Z_0. destruct s; reflexivity.
  - destruct (of_Z_mag a Ha0 ltac:(blia)) as (m & e & Heq & _).
    rewrite Heq. cbn [add SFadd]. rewrite <- Heq. apply to_long_of_Z. blia.
Qed.

Lemma to_long_some_finite (x : double) (n : Z) :
  to_long x = Some n -> isfinite x = true.
Proof. destruct x; cbn; congruence. Qed.

(** Adding a non-negative time step never decreases the nanosecond count. *)
Lemma step_ge (ts : double) (nsec n : Z) :
  TimeStepIsValid ts = true -> valid_binary prec emax ts = true ->
  0 <= nsec < NSecPerSec_ ->
  to_long (add (of_Z nsec) (mul ts (of_Z NSecPerSec_))) = Some n ->
  nsec <= n.
Proof.
  intros Hv Hb Hn. unfold NSecPerSec_ in Hn.
  assert (H53 : nsec < 2 ^ 53) by (change (2 ^ 53) with 9007199254740992; blia).
  pose proof (valid_nonneg ts Hv) as Hnn.
  rewrite NSecPerSec_double.
  destruct ts as [s | [ | ] | | [ | ] mt et]; cbn [nonneg] in Hnn; try contradiction.
  - cbn [mul SFmul]. rewrite add_zero_r by blia. intros [= <-]. blia.
  - cbn in Hv. discriminate.
  - pose proof (valid_binary_wf _ Hb eq_refl) as Hwf. cbn [wf] in Hwf.
    destruct (SFmul_finite false mt et false 8388608000000000 (-23)
                ltac:(blia) ltac:(blia) ltac:(right; cbn; blia)) as (u & R & _ & _ & Hr).
    cbv zeta in Hr. cbn [xorb] in Hr.
    set (p := mul _ _) in *. clearbody p.
    destruct Hr as [_ | mp ep Hep _ _ | _].
    + rewrite add_zero_r by blia. intros [= <-]. blia.
    + destruct (Z.eq_dec nsec 0) as [-> | Hn0].
      { rewrite of_Z_0. cbn [add SFadd]. intro Hl.
        eapply to_long_nonneg; [ | exact Hl]. exact I. }
      destruct (of_Z_mag nsec Hn0 ltac:(blia)) as (ma & ea & Heq & Hea & _ & Hmag).
      assert (Hs : (nsec <? 0) = false) by (apply Z.ltb_ge; blia).
      rewrite Heq, Hs in *.
      destruct (SFadd_finite false ma ea false mp ep ltac:(blia) ltac:(blia)) as [_ H].
      cbv zeta in H.
      set (T := IV (S754_finite false ma ea) + IV (S754_finite false mp ep)) in *.
      pose proof (pow2_pos 1074 ltac:(blia)) as Hp.
      pose proof (mag_pos_finite false mp ep ltac:(blia)) as Hmp.
      assert (HT : T = nsec * 2 ^ 1074 + mag (S754_finite false mp ep)).
      { unfold T, IV. cbn [sign_of cond_Zopp]. rewrite Hmag. blia. }
      destruct (H ltac:(bnia)) as (u' & R' & Hu & Hf & Hr').
      assert (Habs : Z.abs T = T) by bnia. rewrite Habs in Hu, Hf.
      assert ((T <? 0) = false) as Hsg by (apply Z.ltb_ge; bnia).
      rewrite Hsg in Hr'.
      pose proof (unit_le _ _ Hu ltac:(bnia)) as Hule.
      pose proof (faithfulZ_pos _ _ _ Hule Hf) as HRpos.
      assert (HR : nsec * 2 ^ 1074 <= R').
      { destruct Hu as (j & Hj & -> & Hu53 & Hl).
        destruct (Z.le_gt_cases j 1074) as [Hj1 | Hj1].
        - apply (faithfulZ_ge T (2 ^ j) R'); try assumption; try blia.
          apply mul_pow2_mod. blia.
        - destruct Hl as [Hl | ->]; [ | blia].
          assert (2 ^ 52 * 2 ^ j <= R').
          { apply (faithfulZ_ge T (2 ^ j) R'); try assumption; try blia.
            apply Z.mod_mul. blia. }
          assert (2 ^ 1074 <= 2 ^ j) by (apply Z.pow_le_mono_r; blia).
          change (2 ^ 52) with 4503599627370496 in *.
          apply Z.le_trans with (nsec * 2 ^ j);
            [apply Z.mul_le_mono_nonneg_l; blia | ].
          apply Z.le_trans with (4503599627370496 * 2 ^ j);
            [apply Z.mul_le_mono_nonneg_r; blia | blia]. }
      set (r := add _ _) in *. clearbody r.
      destruct Hr' as [-> | m e He Hm HR' | _].
      * blia.
      * rewrite to_long_finite by blia. cbn [mag cond_Zopp]. rewrite HR'.
        unfold Long.checked. destruct (Long.in_range _); [ | discriminate].
        intros [= <-]. apply Z.div_le_lower_bound; blia.
      * cbn. discriminate.
    + destruct (of_Z nsec) as [[ | ] | [ | ] | | [ | ] ? ?]; cbn; discriminate.
Qed.

Lemma advance_monotone (ts : double) (t t' : timespec) :
  TimeStepIsValid ts = true -> valid_binary prec emax ts = true ->
  normalized t -> advance ts t = Some t' -> nanos t <= nanos t'.
Proof.
  intros Hv Hb Hn Ha. destruct (advance_nanos _ _ _ Ha) as (n & Hl & ->).
  pose proof (step_ge _ _ _ Hv Hb Hn Hl). unfold nanos. blia.
Qed.

Lemma advance_zero (s : bool) (t : timespec) :
  normalized t -> Long.in_range (tv_sec t) = true ->
  advance (S754_zero s) t = Some t.
Proof.
  intros Hn Hr. unfold normalized, NSecPerSec_ in Hn. unfold advance.
  rewrite NSecPerSec_double. cbn [mul SFmul].
  rewrite add_zero_r by (change (2 ^ 53) with 9007199254740992; blia).
  cbn [bind]. rewrite Z.quot_small, Z.rem_small by (unfold NSecPerSec_; blia).
  unfold Long.add. rewrite Z.add_0_r, (checked_some _ Hr). cbn [bind].
  destruct t; reflexivity.
Qed.

(** ** Definedness of the advance for time steps below [2^33] seconds *)

Lemma ltb_max_step (s : bool) (m : positive) (e : Z) :
  ltb (S754_finite s m e) max_step = true -> s = false ->
  -1074 <= e -> Zpos m < 2 ^ 53 ->
  mag (S754_finite s m e) < 2 ^ 33 * 2 ^ 1074.
Proof.
  intros Hlt -> He Hm.
  change max_step with (S754_finite false 4503599627370496 (-19)) in Hlt.
  unfold ltb, SFltb, SFcompare in Hlt. cbn [mag].
  revert Hlt.
  destruct (Z.compare_spec e (-19)) as [Heq | Hlt' | Hgt]; try discriminate.
  - subst e. intro Hlt. change (-19 + 1074) with 1055.
    change (2 ^ 33 * 2 ^ 1074) with (4503599627370496 * 2 ^ 1055).
    assert (Hc : (m ?= 4503599627370496)%positive = Lt).
    { unfold Pos.compare. destruct (Pos.compare_cont Eq m 4503599627370496);
        try discriminate. reflexivity. }
    assert (Hz : Zpos m < 4503599627370496) by (apply Pos2Z.pos_lt_pos; exact Hc).
    clear Hc Hlt.
    apply Z.mul_lt_mono_pos_r; [apply pow2_pos; blia | exact Hz].
  - intros _. assert (H : 2 ^ (e + 1074) <= 2 ^ 1054) by (apply Z.pow_le_mono_r; blia).
    change (2 ^ 33 * 2 ^ 1074) with (2 ^ 53 * 2 ^ 1054).
    pose proof (pow2_pos (e + 1074) ltac:(blia)) as Hp.
    apply Z.lt_le_trans with (2 ^ 53 * 2 ^ (e + 1074)).
    + apply Z.mul_lt_mono_pos_r; assumption.
    + apply Z.mul_le_mono_nonneg_l; [apply Z.pow_nonneg; blia | assumption].
Qed.

Lemma step_defined (ts : double) (nsec : Z) :
  TimeStepIsValid ts = true -> valid_binary prec emax ts = true ->
  ltb ts max_step = true ->
  0 <= nsec < NSecPerSec_ ->
  exists n, to_long (add (of_Z nsec) (mul ts (of_Z NSecPerSec_))) = Some n /\
            0 <= n <= 2 ^ 63 - 2 ^ 20.
Proof.
  intros Hv Hb Hlt Hn. unfold NSecPerSec_ in Hn.
  assert (H53 : nsec < 2 ^ 53) by (change (2 ^ 53) with 9007199254740992; blia).
  assert (H63 : 2 ^ 63 - 2 ^ 20 = 9223372036853727232) by reflexivity.
  pose proof (valid_nonneg ts Hv) as Hnn.
  rewrite NSecPerSec_double.
  destruct ts as [s | [ | ] | | [ | ] mt et]; cbn [nonneg] in Hnn; try contradiction.
  - cbn [mul SFmul]. rewrite add_zero_r by blia. eexists; split; [reflexivity | blia].
  - cbn in Hv. discriminate.
  - pose proof (valid_binary_wf _ Hb eq_refl) as Hwf. cbn [wf] in Hwf.
    pose proof (ltb_max_step _ _ _ Hlt eq_refl ltac:(blia) ltac:(blia)) as Hmt.
    pose proof (mag_pos_finite false mt et ltac:(blia)) as Hmt0.
    destruct (SFmul_finite false mt et false 8388608000000000 (-23)
                ltac:(blia) ltac:(blia) ltac:(right; cbn; blia)) as (u & R & Hu & Hf & Hr).
    cbv zeta in Hu, Hf, Hr. cbn [xorb] in Hr.
    set (p := mul _ _) in *. clearbody p.
    set (mts := mag (S754_finite false mt et)) in *. clearbody mts.
    cbn [mag] in Hu, Hf. change (-23 + 1074) with 1051 in Hu, Hf.
    pose proof (pow2_pos 1074 ltac:(blia)) as Hp.
    assert (HT : mts * (8388608000000000 * 2 ^ 1051) = mts * 1000000000 * 2 ^ 1074).
    { change (2 ^ 1074) with (2 ^ 23 * 2 ^ 1051). change (2 ^ 23) with 8388608. ring. }
    rewrite HT in Hu, Hf. clear HT.
    set (T := mts * 1000000000 * 2 ^ 1074) in *.
    assert (HThi : T <= 1000000000 * 2 ^ 33 * 2 ^ 2148).
    { unfold T. change (2 ^ 2148) with (2 ^ 1074 * 2 ^ 1074). bnia. }
    assert (HTlo : 2 ^ 1074 <= T) by (unfold T; bnia).
    assert (HR : 0 < R <= 1000000000 * 2 ^ 33 * 2 ^ 2148).
    { destruct Hu as (j & Hj & -> & Hu53 & Hl).
      pose proof (pow2_pos j ltac:(blia)) as Hup.
      assert (Hj2 : j <= 2181).
      { destruct Hl as [Hl | ->]; [ | blia].
        destruct (Z.le_gt_cases j 2181); [assumption | exfalso].
        assert (2 ^ 2182 <= 2 ^ j) by (apply Z.pow_le_mono_r; blia).
        change (2 ^ 2182) with (2 ^ 34 * 2 ^ 2148) in H0.
        pose proof (pow2_pos 2148 ltac:(blia)).
        change (2 ^ 52) with 4503599627370496 in Hl.
        change (2 ^ 33) with 8589934592 in HThi.
        change (2 ^ 34) with 17179869184 in H0. bnia. }
      assert (Hule : 0 < 2 ^ j <= T).
      { split; [assumption | ]. destruct Hl as [Hl | ->]; [ | blia].
        change (2 ^ 52) with 4503599627370496 in Hl. bnia. }
      pose proof (faithfulZ_pos _ _ _ Hule Hf).
      split; [blia | ].
      apply (faithfulZ_le T (2 ^ j) R); try assumption.
      change (1000000000 * 2 ^ 33 * 2 ^ 2148) with (1000000000 * 2 ^ 2181).
      apply mul_pow2_mod. blia. }
    destruct Hr as [-> | mp ep Hep Hmp HRp | Hov].
    + blia.
    + assert (Hmagp : 0 < mag (S754_finite false mp ep) <= 1000000000 * 2 ^ 33 * 2 ^ 1074).
      { cbn [mag]. 
        assert (Hs : Zpos mp * 2 ^ (ep + 2148) = Zpos mp * 2 ^ (ep + 1074) * 2 ^ 1074).
        { replace (ep + 2148) with ((ep + 1074) + 1074) by blia.
          rewrite pow2_split by blia. ring. }
        rewrite Hs in HRp.
        change (2 ^ 2148) with (2 ^ 1074 * 2 ^ 1074) in HR.
        pose proof (pow2_pos (ep + 1074) ltac:(blia)).
        split; bnia. }
      destruct (Z.eq_dec nsec 0) as [-> | Hn0].
      { rewrite of_Z_0. cbn [add SFadd]. rewrite to_long_finite by blia.
        cbn [cond_Zopp].
        assert (Hq : 0 <= mag (S754_finite false mp ep) / 2 ^ 1074 <= 1000000000 * 2 ^ 33).
        { split; [apply Z.div_pos; blia | ].
          apply Z.div_le_upper_bound; blia. }
        change (2 ^ 33) with 8589934592 in Hq.
        eexists. split; [apply checked_some, in_range_bounds | ];
          change (2 ^ 63) with 9223372036854775808; blia. }
      destruct (of_Z_mag nsec Hn0 ltac:(blia)) as (ma & ea & Heq & Hea & _ & Hmag).
      assert (Hs : (nsec <? 0) = false) by (apply Z.ltb_ge; blia).
      rewrite Heq, Hs in *.
      set (T' := IV (S754_finite false ma ea) + IV (S754_finite false mp ep)).
      assert (HT' : T' = nsec * 2 ^ 1074 + mag (S754_finite false mp ep)).
      { unfold T', IV. cbn [sign_of cond_Zopp]. rewrite Hmag. blia. }
      assert (HT'hi : T' <= (2 ^ 63 - 2 ^ 20) * 2 ^ 1074).
      { rewrite H63. change (2 ^ 33) with 8589934592 in Hmagp. bnia. }
      assert (H97 : 2 ^ 2097 = 2 ^ 1023 * 2 ^ 1074) by reflexivity.
      assert (H1023 : 2 ^ 63 < 2 ^ 1023) by (apply Z.pow_lt_mono_r; lia).
      change (2 ^ 63) with 9223372036854775808 in H1023.
      destruct (add_finite_sign false ma ea false mp ep ltac:(blia) ltac:(blia))
        as (m & e & Hadd & He & Hm & u' & Hu' & Hf'); fold T'.
      * bnia.
      * rewrite H97. rewrite H63 in HT'hi. bnia.
      * bnia.
      * fold T' in Hadd, Hu', Hf'.
        assert ((T' <? 0) = false) as Hsg by (apply Z.ltb_ge; bnia).
        rewrite Hsg in Hadd. rewrite Hadd in Hf' |- *.
        assert (HTabs : Z.abs T' = T') by bnia. rewrite HTabs in Hu', Hf'.
        assert (HR' : 0 <= mag (S754_finite false m e) <= (2 ^ 63 - 2 ^ 20) * 2 ^ 1074).
        { split; [apply mag_nonneg | ].
          destruct Hu' as (j & Hj & -> & Hu53 & Hl).
          pose proof (pow2_pos j ltac:(blia)) as Hup.
          apply (faithfulZ_le T' (2 ^ j) _); try assumption.
          change ((2 ^ 63 - 2 ^ 20) * 2 ^ 1074) with ((2 ^ 43 - 1) * 2 ^ 1094).
          apply mul_pow2_mod. split; [blia | ].
          destruct Hl as [Hl | ->]; [ | blia].
          destruct (Z.le_gt_cases j 1094); [assumption | exfalso].
          assert (2 ^ 1095 <= 2 ^ j) by (apply Z.pow_le_mono_r; blia).
          change (2 ^ 1095) with (2 ^ 21 * 2 ^ 1074) in H0.
          rewrite H63 in HT'hi.
          change (2 ^ 52) with 4503599627370496 in Hl.
          change (2 ^ 21) with 2097152 in H0. bnia. }
        rewrite to_long_finite by blia. cbn [cond_Zopp].
        assert (Hq : 0 <= mag (S754_finite false m e) / 2 ^ 1074 <= 2 ^ 63 - 2 ^ 20).
        { split; [apply Z.div_pos; blia | ].
          apply Z.div_le_upper_bound; blia. }
        rewrite H63 in Hq.
        eexists. split; [apply checked_some, in_range_bounds | ];
          change (2 ^ 63) with 9223372036854775808; blia.
    + assert (H : 2 ^ 2212 <= 2 ^ (1024 + 2148)) by (apply Z.pow_le_mono_r; lia).
      change (2 ^ 2212) with (2 ^ 64 * 2 ^ 2148) in H.
      change (2 ^ 33) with 8589934592 in HR.
      change (2 ^ 64) with 18446744073709551616 in H. blia.
Qed.

(** * Rounding of one operation

    Every arithmetic operation of binary64 ends in [binary_round_aux]:
    the significand [M] at exponent [E], with the location of the exact
    value between [M] and [M + 1], is shifted to the canonical exponent
    and rounded. *)

Lemma shr_iter_m (mrs : shr_record) (n : nat) :
  0 <= shr_m mrs ->
  shr_m (Nat.iter n shr_1 mrs) = shr_m mrs / 2 ^ Z.of_nat n.
Proof.
  intro H. induction n as [ | n IH].
  - cbn. now rewrite Z.div_1_r.
  - assert (Hp : 0 < 2 ^ Z.of_nat n) by (apply pow2_pos; lia).
    rewrite Nat.iter_succ, shr_1_m, IH.
    + rewrite Nat2Z.inj_succ, Z.pow_succ_r by lia.
      rewrite Z.div_div by lia. f_equal. lia.
    + rewrite IH. apply Z.div_pos; lia.
Qed.

Lemma shr_record_of_loc_m (m : Z) (l : location) :
  shr_m (shr_record_of_loc m l) = m.
Proof. destruct l as [ | [ | | ]]; reflexivity. Qed.

Lemma loc_of_shr_record_of_loc (m : Z) (l : location) :
  loc_of_shr_record (shr_record_of_loc m l) = l.
Proof. destruct l as [ | [ | | ]]; reflexivity. Qed.

(** The first stage: the significand is divided by the power of two that
    brings it to the canonical exponent, and rounded to one of the two
    neighbours of the quotient. *)
Lemma bra_general (s : bool) (M E : Z) (l : location) :
  0 <= M -> E <= fexp 53 1024 (Zdigits2 M + E) ->
  exists m1,
    (m1 = M / 2 ^ (fexp 53 1024 (Zdigits2 M + E) - E) \/
     m1 = M / 2 ^ (fexp 53 1024 (Zdigits2 M + E) - E) + 1) /\
    binary_round_aux 53 1024 s M E l =
    finish s m1 (fexp 53 1024 (Zdigits2 M + E)).
Proof.
  intros HM HE. rewrite bra_unfold. unfold shr_fexp.
  set (e1 := fexp 53 1024 (Zdigits2 M + E)) in *.
  destruct (e1 - E) as [ | k | k] eqn:Hk; [ | | lia].
  - cbn [shr]. assert (He : E = e1) by lia.
    rewrite shr_record_of_loc_m, loc_of_shr_record_of_loc.
    exists (round_nearest_even M l). rewrite Z.pow_0_r, Z.div_1_r.
    split; [apply round_nearest_even_cases | now rewrite He].
  - cbn [shr]. rewrite iter_pos_nat.
    set (mrs := Nat.iter _ _ _).
    assert (Hm : shr_m mrs = M / 2 ^ Zpos k).
    { unfold mrs. rewrite shr_iter_m, shr_record_of_loc_m, positive_nat_Z;
        [reflexivity | now rewrite shr_record_of_loc_m]. }
    exists (round_nearest_even (shr_m mrs) (loc_of_shr_record mrs)). split.
    + rewrite <- Hm. apply round_nearest_even_cases.
    + f_equal. lia.
Qed.

Lemma Zdigits2_bounds (M : Z) :
  0 < M -> 2 ^ (Zdigits2 M - 1) <= M < 2 ^ Zdigits2 M.
Proof.
  destruct M as [ | p | p]; try lia. intros _. apply digits2_pos_bounds.
Qed.

Lemma Zdigits2_pos (M : Z) : 0 < M -> 0 < Zdigits2 M.
Proof. destruct M; cbn; lia. Qed.

(** The quotient at the canonical exponent has at most 53 bits, and
    exactly 53 unless the exponent is the smallest one. *)
Lemma quotient_canonical (M E : Z) :
  0 <= M -> E <= fexp 53 1024 (Zdigits2 M + E) ->
  -1074 <= fexp 53 1024 (Zdigits2 M + E) /\
  0 <= M / 2 ^ (fexp 53 1024 (Zdigits2 M + E) - E) < 2 ^ 53 /\
  (2 ^ 52 <= M / 2 ^ (fexp 53 1024 (Zdigits2 M + E) - E) \/
   fexp 53 1024 (Zdigits2 M + E) = -1074).
Proof.
  intros HM. rewrite fexp_eq. intro HE.
  set (e1 := Z.max (Zdigits2 M + E - 53) (-1074)) in *.
  assert (Hk : 0 < 2 ^ (e1 - E)) by (apply pow2_pos; lia).
  split; [lia | ].
  destruct (Z.eq_dec M 0) as [-> | Hn].
  - cbn [Zdigits2] in *. rewrite Z.div_0_l by lia.
    split; [split; [lia | apply pow2_pos; lia] | right; lia].
  - pose proof (Zdigits2_bounds M ltac:(lia)) as [Hl Hu].
    pose proof (Zdigits2_pos M ltac:(lia)) as Hd.
    set (d := Zdigits2 M) in *.
    split; [split | ].
    + apply Z.div_pos; lia.
    + apply Z.div_lt_upper_bound; [lia | ].
      rewrite <- pow2_split by lia.
      apply Z.lt_le_trans with (2 ^ d); [assumption | ].
      apply Z.pow_le_mono_r; lia.
    + destruct (Z.eq_dec e1 (-1074)) as [ | Hne]; [right; assumption | left].
      assert (He1 : e1 = d + E - 53) by lia.
      apply Z.div_le_lower_bound; [lia | ].
      rewrite <- pow2_split by lia.
      replace (e1 - E + 52) with (d - 1) by lia. assumption.
Qed.

(** The second stage packs a canonical number. *)
Lemma finish_valid (s : bool) (m1 e1 : Z) :
  0 <= m1 <= 2 ^ 53 -> -1074 <= e1 -> (2 ^ 52 <= m1 \/ e1 = -1074) ->
  valid_binary 53 1024 (finish s m1 e1) = true.
Proof.
  intros Hm He Hc. unfold finish, shr_fexp.
  destruct m1 as [ | p | p]; [ | | lia].
  - cbn [Zdigits2]. rewrite fexp_eq.
    destruct (Z.max (0 + e1 - 53) (-1074) - e1) eqn:Hk; try lia; reflexivity.
  - cbn [Zdigits2]. rewrite fexp_eq.
    destruct (Z.eq_dec (Zpos p) (2 ^ 53)) as [Heq | Hne].
    + injection Heq as ->. cbn [digits2_pos Pos.succ].
      replace (Z.max (54 + e1 - 53) (-1074) - e1) with 1 by lia.
      cbn [shr shr_record_of_loc iter_pos shr_1 shr_m].
      destruct (Z.leb_spec (e1 + 1) (1024 - 53)); [ | reflexivity].
      cbn [valid_binary]. unfold bounded, canonical_mantissa.
      rewrite fexp_eq. cbn [digits2_pos Pos.succ].
      apply andb_true_intro. split; [apply Z.eqb_eq | apply Z.leb_le]; lia.
    + assert (Hlt : Zpos p < 2 ^ 53) by lia.
      pose proof (digits2_pos_le p 53 Hlt) as Hd.
      assert (Hcan : Z.max (Zpos (digits2_pos p) + e1 - 53) (-1074) = e1).
      { destruct Hc as [Hc | Hc]; [ | lia].
        rewrite (digits2_pos_unique p 53) by (change (53 - 1) with 52; lia). lia. }
      rewrite Hcan, Z.sub_diag. cbn [shr shr_record_of_loc shr_m].
      destruct (Z.leb_spec e1 (1024 - 53)); [ | reflexivity].
      cbn [valid_binary]. unfold bounded, canonical_mantissa.
      rewrite fexp_eq, Hcan.
      apply andb_true_intro. split; [apply Z.eqb_eq | apply Z.leb_le]; lia.
Qed.

(** ** Powers of two as rationals *)

Lemma Qpow2_pos (e : Z) : (0 < 2 ^ e)%Q.
Proof. apply Qpower_0_lt. reflexivity. Qed.

Lemma Qpow2_add (a b : Z) : (2 ^ (a + b) == 2 ^ a * 2 ^ b)%Q.
Proof. apply Qpower_plus. discriminate. Qed.

Lemma Qpow2_inject (k : Z) : 0 <= k -> (inject_Z (2 ^ k) == 2 ^ k)%Q.
Proof. intro H. now rewrite Zpower_Qpower. Qed.

Lemma Qpow2_le (a b : Z) : a <= b -> (2 ^ a <= 2 ^ b)%Q.
Proof. intro H. apply Qpower_le_compat_l; [assumption | discriminate]. Qed.

Lemma Qpow2_shift (m e k : Z) :
  0 <= k -> (inject_Z (m * 2 ^ k) * 2 ^ e == inject_Z m * 2 ^ (e + k))%Q.
Proof.
  intro H. rewrite inject_Z_mult, Qpow2_inject, Qpow2_add by assumption. ring.
Qed.

(** The sign applied to a magnitude. *)
Lemma signed_opp (s : bool) (w : Q) :
  ((if negb s then - w else w) == - (if s then - w else w))%Q.
Proof. destruct s; cbn [negb]; ring. Qed.

(** ** The value of a rounded number *)

Lemma finish_value (s : bool) (m1 e1 : Z) :
  0 <= m1 <= 2 ^ 53 -> -1074 <= e1 -> (2 ^ 52 <= m1 \/ e1 = -1074) ->
  (inject_Z m1 * 2 ^ e1 < 2 ^ 1024)%Q ->
  isfinite (finish s m1 e1) = true /\
  (to_Q (finish s m1 e1) ==
   if s then - (inject_Z m1 * 2 ^ e1) else inject_Z m1 * 2 ^ e1)%Q.
Proof.
  intros Hm He Hc Hlt.
  destruct (finish_spec s m1 e1 Hm He) as [H0 | m e Hle Hme He2 Hm53 | Hpos Hov].
  - split; [reflexivity | ]. subst m1. cbn [to_Q]. destruct s; ring.
  - split; [reflexivity | ]. cbn [to_Q].
    assert (Hv : (inject_Z (Zpos m) * 2 ^ e == inject_Z m1 * 2 ^ e1)%Q).
    { rewrite <- Hme, Qpow2_shift by lia.
      replace (e1 + (e - e1)) with e by lia. reflexivity. }
    destruct s; rewrite Hv; reflexivity.
  - exfalso.
    assert (H52 : 2 ^ 52 <= m1 /\ 971 <= e1).
    { destruct Hov as [Hgt | [-> ->]]; [ | lia].
      destruct Hc; lia. }
    destruct H52 as [H52 H971].
    apply (Qlt_irrefl (2 ^ 1024)%Q).
    eapply Qle_lt_trans; [ | exact Hlt].
    destruct (Z.eq_dec e1 971) as [-> | Hne].
    + destruct Hov as [Hgt | [-> _]]; [lia | ].
      rewrite Qpow2_inject by lia. rewrite <- Qpow2_add. apply Qle_refl.
    + apply Qle_trans with (inject_Z (2 ^ 52) * 2 ^ 972)%Q.
      * rewrite Qpow2_inject by lia. rewrite <- Qpow2_add. apply Qle_refl.
      * apply Qmult_le_compat_nonneg.
        -- split; [ | rewrite <- Zle_Qle; assumption].
           change 0%Q with (inject_Z 0). rewrite <- Zle_Qle. lia.
        -- split; [apply Qlt_le_weak, Qpow2_pos | apply Qpow2_le; lia].
Qed.

(** The relative and the absolute accuracy of a result: one unit in the
    last place is at most [2^-52] of the value, or it is [2^-1074]. *)
Lemma bra_value (s : bool) (M E : Z) (l : location) (v : Q) :
  0 <= M -> E <= fexp 53 1024 (Zdigits2 M + E) ->
  (inject_Z M * 2 ^ E <= v)%Q -> (v < inject_Z (M + 1) * 2 ^ E)%Q ->
  (v <= 2 ^ 1023)%Q ->
  exists w : Q,
    valid_binary 53 1024 (binary_round_aux 53 1024 s M E l) = true /\
    isfinite (binary_round_aux 53 1024 s M E l) = true /\
    (to_Q (binary_round_aux 53 1024 s M E l) == if s then - w else w)%Q /\
    (0 <= w)%Q /\
    (w - v <= (1 # 4503599627370496) * v + 2 ^ (-1074))%Q /\
    (v - w <= (1 # 4503599627370496) * v + 2 ^ (-1074))%Q.
Proof.
  intros HM HE Hlo Hhi Hmax.
  destruct (bra_general s M E l HM HE) as (m1 & Hm1 & ->).
  destruct (quotient_canonical M E HM HE) as (He1 & Hq & Hcan).
  set (e1 := fexp 53 1024 (Zdigits2 M + E)) in *.
  set (q := M / 2 ^ (e1 - E)) in *.
  assert (Hk : 0 < 2 ^ (e1 - E)) by (apply pow2_pos; lia).
  assert (HqM : q * 2 ^ (e1 - E) <= M < (q + 1) * 2 ^ (e1 - E)).
  { unfold q. pose proof (Z.mul_div_le M _ Hk).
    pose proof (Z.mul_succ_div_gt M _ Hk). lia. }
  pose proof (Qpow2_pos e1) as HU. pose proof (Qpow2_pos E) as HE0.
  assert (HqU : (inject_Z q * 2 ^ e1 <= v)%Q).
  { eapply Qle_trans; [ | exact Hlo].
    replace e1 with (E + (e1 - E)) at 1 by lia.
    rewrite <- Qpow2_shift by lia.
    apply Qmult_le_compat_r; [ | apply Qlt_le_weak; assumption].
    rewrite <- Zle_Qle. lia. }
  assert (HvU : (v < inject_Z (q + 1) * 2 ^ e1)%Q).
  { eapply Qlt_le_trans; [exact Hhi | ].
    replace e1 with (E + (e1 - E)) at 1 by lia.
    rewrite <- Qpow2_shift by lia.
    apply Qmult_le_compat_r; [ | apply Qlt_le_weak; assumption].
    rewrite <- Zle_Qle. lia. }
  rewrite inject_Z_plus in HvU. change (inject_Z 1) with 1%Q in HvU.
  assert (Hq0 : (0 <= inject_Z q)%Q).
  { change 0%Q with (inject_Z 0). rewrite <- Zle_Qle. lia. }
  assert (HUb : (2 ^ e1 <= (1 # 4503599627370496) * v + 2 ^ (-1074))%Q).
  { pose proof (Qpow2_pos (-1074)) as Heta.
    destruct Hcan as [H52 | ->]; [ | nra].
    assert (H : ((4503599627370496 # 1) <= inject_Z q)%Q).
    { change (4503599627370496 # 1)%Q with (inject_Z (2 ^ 52)).
      rewrite <- Zle_Qle. assumption. }
    set (U := (2 ^ e1)%Q) in *. set (eta := (2 ^ (-1074))%Q) in *.
    clearbody U eta. nra. }
  assert (Hw : (inject_Z m1 * 2 ^ e1 - v <= 2 ^ e1)%Q /\
               (v - inject_Z m1 * 2 ^ e1 <= 2 ^ e1)%Q).
  { destruct Hm1 as [-> | ->].
    - split; lra.
    - rewrite inject_Z_plus. change (inject_Z 1) with 1%Q. split; lra. }
  assert (Hm1b : 0 <= m1 <= 2 ^ 53 /\ (2 ^ 52 <= m1 \/ e1 = -1074)).
  { destruct Hm1 as [-> | ->]; lia. }
  assert (Hov : (inject_Z m1 * 2 ^ e1 < 2 ^ 1024)%Q).
  { assert (H4 : (4 <= 2 ^ 1023)%Q).
    { change 4%Q with (2 ^ 2)%Q. apply Qpow2_le. lia. }
    assert (H1 : (2 ^ (-1074) <= 1)%Q).
    { change 1%Q with (2 ^ 0)%Q. apply Qpow2_le. lia. }
    assert (H24 : (2 ^ 1024 == 2 * 2 ^ 1023)%Q).
    { change 1024 with (1 + 1023). rewrite Qpow2_add. reflexivity. }
    rewrite H24.
    set (P := (2 ^ 1023)%Q) in *. set (eta := (2 ^ (-1074))%Q) in *.
    set (w := (inject_Z m1 * 2 ^ e1)%Q) in *. set (U := (2 ^ e1)%Q) in *.
    clearbody P eta w U. lra. }
  destruct (finish_value s m1 e1 (proj1 Hm1b) He1 (proj2 Hm1b) Hov) as [Hfin Hval].
  exists (inject_Z m1 * 2 ^ e1)%Q.
  split; [apply finish_valid; tauto | ].
  split; [assumption | ]. split; [assumption | ].
  split.
  { apply Qmult_le_0_compat; [ | apply Qlt_le_weak; assumption].
    change 0%Q with (inject_Z 0). rewrite <- Zle_Qle. lia. }
  split; lra.
Qed.

(** * The four operations *)

Lemma valid_canonical (s : bool) (m : positive) (e : Z) :
  valid_binary 53 1024 (S754_finite s m e) = true ->
  -1074 <= e <= 971 /\ Zpos m < 2 ^ 53 /\ (2 ^ 52 <= Zpos m \/ e = -1074).
Proof.
  cbn [valid_binary]. unfold bounded, canonical_mantissa. intro H.
  apply andb_prop in H. destruct H as [Hc He].
  apply Z.eqb_eq in Hc. apply Z.leb_le in He. rewrite fexp_eq in Hc.
  change (1024 - 53) with 971 in He.
  pose proof (digits2_pos_bounds m) as [Hl Hu].
  set (d := Zpos (digits2_pos m)) in *.
  assert (Hd : d <= 53) by lia.
  assert (2 ^ d <= 2 ^ 53) by (apply Z.pow_le_mono_r; lia).
  split; [lia | ]. split; [lia | ].
  destruct (Z.eq_dec e (-1074)) as [ | Hne]; [right; assumption | left].
  assert (d = 53) as Hd53 by lia. rewrite Hd53 in Hl. exact Hl.
Qed.

Lemma to_Q_finite (s : bool) (m : positive) (e : Z) :
  to_Q (S754_finite s m e) =
  if s then (- (inject_Z (Zpos m) * 2 ^ e))%Q else (inject_Z (Zpos m) * 2 ^ e)%Q.
Proof. destruct s; reflexivity. Qed.

Lemma eps_eta_nonneg (V : Q) : (0 <= V -> 0 <= eps64 * V + eta64)%Q.
Proof.
  intro H. pose proof (Qpow2_pos (-1074)) as He. unfold eps64, eta64.
  set (eta := (2 ^ (-1074))%Q) in *. clearbody eta. lra.
Qed.

(** [binary_round]: the significand is first aligned to the canonical
    exponent. *)
Lemma binary_round_value (s : bool) (M : positive) (E : Z) :
  (inject_Z (Zpos M) * 2 ^ E <= 2 ^ 1023)%Q ->
  exists w : Q,
    valid_binary 53 1024 (binary_round 53 1024 s M E) = true /\
    isfinite (binary_round 53 1024 s M E) = true /\
    (to_Q (binary_round 53 1024 s M E) == if s then - w else w)%Q /\
    (0 <= w)%Q /\
    (w - inject_Z (Zpos M) * 2 ^ E
     <= eps64 * (inject_Z (Zpos M) * 2 ^ E) + eta64)%Q /\
    (inject_Z (Zpos M) * 2 ^ E - w
     <= eps64 * (inject_Z (Zpos M) * 2 ^ E) + eta64)%Q.
Proof.
  intro Hmax. unfold binary_round, shl_align.
  set (e1 := fexp 53 1024 (Zpos (digits2_pos M) + E)).
  pose proof (Qpow2_pos E) as HE.
  assert (Hnoshift : E <= e1 ->
    exists w : Q,
      valid_binary 53 1024 (binary_round_aux 53 1024 s (Zpos M) E loc_Exact) = true /\
      isfinite (binary_round_aux 53 1024 s (Zpos M) E loc_Exact) = true /\
      (to_Q (binary_round_aux 53 1024 s (Zpos M) E loc_Exact) == if s then - w else w)%Q /\
      (0 <= w)%Q /\
      (w - inject_Z (Zpos M) * 2 ^ E
       <= eps64 * (inject_Z (Zpos M) * 2 ^ E) + eta64)%Q /\
      (inject_Z (Zpos M) * 2 ^ E - w
       <= eps64 * (inject_Z (Zpos M) * 2 ^ E) + eta64)%Q).
  { intro Hle. apply bra_value; try assumption; try lia.
    - apply Qle_refl.
    - rewrite inject_Z_plus. change (inject_Z 1) with 1%Q.
      set (U := (2 ^ E)%Q) in *. clearbody U. lra. }
  destruct (e1 - E) as [ | k | k] eqn:Hk.
  - apply Hnoshift. lia.
  - apply Hnoshift. lia.
  - assert (HE1 : E = e1 + Zpos k) by lia.
    assert (Hv : (inject_Z (Zpos (Pos.iter xO M k)) * 2 ^ e1
                  == inject_Z (Zpos M) * 2 ^ E)%Q).
    { rewrite iter_xO_Z, Qpow2_shift, HE1 by lia. reflexivity. }
    destruct (bra_value s (Zpos (Pos.iter xO M k)) e1 loc_Exact
                (inject_Z (Zpos M) * 2 ^ E)%Q) as (w & H1 & H2 & H3 & H4 & H5 & H6).
    + lia.
    + cbn [Zdigits2]. rewrite digits2_pos_shift.
      replace (Zpos (digits2_pos M) + Zpos k + e1)
        with (Zpos (digits2_pos M) + E) by lia.
      fold e1. lia.
    + rewrite Hv. apply Qle_refl.
    + rewrite <- Hv, inject_Z_plus. change (inject_Z 1) with 1%Q.
      pose proof (Qpow2_pos e1) as HU.
      set (U := (2 ^ e1)%Q) in *. clearbody U. lra.
    + assumption.
    + exists w. auto 10.
Qed.

Lemma exact_rounds (V : Q) (r : double) (v : Q) :
  finite64 r -> (to_Q r == v)%Q -> (0 <= V)%Q -> rounds V r v.
Proof.
  intros Hf Hv HV. split; [assumption | ].
  pose proof (eps_eta_nonneg V HV). unfold within. lra.
Qed.

Lemma signed_rounds (s : bool) (r : double) (w v0 v V : Q) :
  valid_binary 53 1024 r = true -> isfinite r = true ->
  (to_Q r == if s then - w else w)%Q ->
  (v == if s then - v0 else v0)%Q ->
  (w - v0 <= eps64 * v0 + eta64)%Q -> (v0 - w <= eps64 * v0 + eta64)%Q ->
  (0 <= v0 <= V)%Q ->
  rounds V r v.
Proof.
  intros Hv Hf Hr Hs H1 H2 HV. split; [split; assumption | ].
  unfold within, eps64 in *. destruct s; lra.
Qed.

Lemma finite64_finite (s : bool) (m : positive) (e : Z) :
  finite64 (S754_finite s m e) ->
  -1074 <= e <= 971 /\ Zpos m < 2 ^ 53 /\ (2 ^ 52 <= Zpos m \/ e = -1074).
Proof. intros [H _]. exact (valid_canonical s m e H). Qed.

Lemma aligned_value (m : positive) (e ez : Z) :
  ez <= e ->
  (inject_Z (Zpos m * 2 ^ (e - ez)) * 2 ^ ez == inject_Z (Zpos m) * 2 ^ e)%Q.
Proof.
  intro H. rewrite Qpow2_shift by lia.
  replace (ez + (e - ez)) with e by lia. reflexivity.
Qed.

(** Addition. *)
Lemma add_rounds (x y : double) (V : Q) :
  finite64 x -> finite64 y ->
  (- V <= to_Q x + to_Q y <= V)%Q -> (V <= huge64)%Q ->
  rounds V (x + y)%D (to_Q x + to_Q y).
Proof.
  intros Hx Hy HV Hmax. unfold huge64 in Hmax.
  assert (HV0 : (0 <= V)%Q) by lra.
  destruct x as [sx | sx | | sx mx ex]; try (destruct Hx as [_ Hx]; discriminate);
  destruct y as [sy | sy | | sy my ey]; try (destruct Hy as [_ Hy]; discriminate).
  - apply exact_rounds; [ | | assumption].
    + destruct sx, sy; split; reflexivity.
    + destruct sx, sy; cbn; reflexivity.
  - apply exact_rounds; [exact Hy | | assumption].
    unfold Double.add. cbn [SFadd]. set (t := to_Q (S754_finite sy my ey)).
    cbn [to_Q]. ring.
  - apply exact_rounds; [exact Hx | | assumption].
    unfold Double.add. cbn [SFadd]. set (t := to_Q (S754_finite sx mx ex)).
    cbn [to_Q]. ring.
  - destruct (finite64_finite _ _ _ Hx) as (Hex & _).
    destruct (finite64_finite _ _ _ Hy) as (Hey & _).
    rewrite !to_Q_finite in *.
    unfold Double.add, SFadd. cbv zeta.
    set (ez := Z.min ex ey) in *.
    rewrite !shl_align_fst by lia.
    set (A := Zpos mx * 2 ^ (ex - ez)). set (B := Zpos my * 2 ^ (ey - ez)).
    pose proof (aligned_value mx ex ez ltac:(lia)) as HA.
    pose proof (aligned_value my ey ez ltac:(lia)) as HB.
    fold A in HA. fold B in HB.
    set (S := cond_Zopp sx A + cond_Zopp sy B).
    assert (HS : (inject_Z S * 2 ^ ez ==
                  (if sx then - (inject_Z (Zpos mx) * 2 ^ ex)
                   else inject_Z (Zpos mx) * 2 ^ ex) +
                  (if sy then - (inject_Z (Zpos my) * 2 ^ ey)
                   else inject_Z (Zpos my) * 2 ^ ey))%Q).
    { unfold S.
      destruct sx, sy; cbn [cond_Zopp];
        rewrite <- HA, <- HB, inject_Z_plus, ?inject_Z_opp; ring. }
    set (T := ((if sx then _ else _) + (if sy then _ else _))%Q) in *.
    clearbody T S. unfold binary_normalize.
    destruct S as [ | p | p].
    + apply exact_rounds; [split; reflexivity | | assumption].
      cbn [to_Q]. rewrite <- HS. change (inject_Z 0) with 0%Q. ring.
    + destruct (binary_round_value false p ez) as (w & H1 & H2 & H3 & H4 & H5 & H6).
      { rewrite HS. lra. }
      eapply (signed_rounds false); try eassumption.
      * cbn. symmetry. exact HS.
      * split; [ | rewrite HS; lra].
        apply Qmult_le_0_compat; [ | apply Qlt_le_weak, Qpow2_pos].
        change 0%Q with (inject_Z 0). rewrite <- Zle_Qle. lia.
    + assert (HS' : (inject_Z (Zpos p) * 2 ^ ez == - T)%Q).
      { rewrite <- HS. change (Zneg p) with (- Zpos p).
        rewrite inject_Z_opp. ring. }
      destruct (binary_round_value true p ez) as (w & H1 & H2 & H3 & H4 & H5 & H6).
      { rewrite HS'. lra. }
      eapply (signed_rounds true); try eassumption.
      * rewrite HS'. ring.
      * split; [ | rewrite HS'; lra].
        apply Qmult_le_0_compat; [ | apply Qlt_le_weak, Qpow2_pos].
        change 0%Q with (inject_Z 0). rewrite <- Zle_Qle. lia.
Qed.

(** Subtraction is the addition of the opposite. *)
Lemma opp_finite64 (y : double) : finite64 y -> finite64 (SFopp y).
Proof. destruct y; intros [H1 H2]; split; assumption. Qed.

Lemma to_Q_opp (y : double) : (to_Q (SFopp y) == - to_Q y)%Q.
Proof.
  destruct y as [s | s | | s m e]; cbn [SFopp]; try (cbn [to_Q]; ring).
  rewrite !to_Q_finite. destruct s; cbn [negb]; ring.
Qed.

Lemma sub_add_opp (x y : double) :
  isfinite x = true -> isfinite y = true -> (x - y)%D = (x + SFopp y)%D.
Proof.
  destruct x as [sx | sx | | sx mx ex]; try discriminate;
  destruct y as [sy | sy | | sy my ey]; try discriminate; intros _ _.
  - destruct sx, sy; reflexivity.
  - reflexivity.
  - reflexivity.
  - unfold Double.sub, Double.add, SFsub, SFadd, SFopp. cbv zeta.
    f_equal. destruct sy; cbn [cond_Zopp negb]; lia.
Qed.

Lemma sub_rounds (x y : double) (V : Q) :
  finite64 x -> finite64 y ->
  (- V <= to_Q x - to_Q y <= V)%Q -> (V <= huge64)%Q ->
  rounds V (x - y)%D (to_Q x - to_Q y).
Proof.
  intros Hx Hy HV Hmax. unfold huge64 in Hmax.
  rewrite sub_add_opp by (apply Hx || apply Hy).
  pose proof (to_Q_opp y) as Ho.
  destruct (add_rounds x (SFopp y) V Hx (opp_finite64 y Hy)) as [Hf Hw].
  - lra.
  - assumption.
  - split; [assumption | ]. unfold within in *. lra.
Qed.

(** Multiplication. *)
Lemma mul_rounds (x y : double) (V : Q) :
  finite64 x -> finite64 y ->
  (- V <= to_Q x * to_Q y <= V)%Q -> (V <= huge64)%Q ->
  rounds V (x * y)%D (to_Q x * to_Q y).
Proof.
  intros Hx Hy HV Hmax. unfold huge64 in Hmax.
  assert (HV0 : (0 <= V)%Q) by lra.
  destruct x as [sx | sx | | sx mx ex]; try (destruct Hx as [_ Hx]; discriminate);
  destruct y as [sy | sy | | sy my ey]; try (destruct Hy as [_ Hy]; discriminate).
  - apply exact_rounds; [split; reflexivity | cbn; reflexivity | assumption].
  - apply exact_rounds; [split; reflexivity | | assumption].
    unfold Double.mul. cbn [SFmul]. set (t := to_Q (S754_finite sy my ey)).
    cbn [to_Q]. ring.
  - apply exact_rounds; [split; reflexivity | | assumption].
    unfold Double.mul. cbn [SFmul]. set (t := to_Q (S754_finite sx mx ex)).
    cbn [to_Q]. ring.
  - destruct (finite64_finite _ _ _ Hx) as (Hex & Hmx & Hcx).
    destruct (finite64_finite _ _ _ Hy) as (Hey & Hmy & Hcy).
    rewrite !to_Q_finite in *.
    unfold Double.mul, SFmul. change prec with 53. change emax with 1024.
    set (v := (inject_Z (Zpos mx) * 2 ^ ex * (inject_Z (Zpos my) * 2 ^ ey))%Q).
    assert (Hv : (inject_Z (Zpos (mx * my)) * 2 ^ (ex + ey) == v)%Q).
    { unfold v. rewrite Pos2Z.inj_mul, inject_Z_mult, Qpow2_add. ring. }
    assert (Hsgn : ((if sx then - (inject_Z (Zpos mx) * 2 ^ ex)
                     else inject_Z (Zpos mx) * 2 ^ ex) *
                    (if sy then - (inject_Z (Zpos my) * 2 ^ ey)
                     else inject_Z (Zpos my) * 2 ^ ey)
                    == if xorb sx sy then - v else v)%Q).
    { unfold v. destruct sx, sy; cbn [xorb]; ring. }
    assert (Hv0 : (0 <= v)%Q).
    { rewrite <- Hv. apply Qmult_le_0_compat; [ | apply Qlt_le_weak, Qpow2_pos].
      change 0%Q with (inject_Z 0). rewrite <- Zle_Qle. lia. }
    assert (HvV : (v <= V)%Q).
    { rewrite Hsgn in HV. destruct (xorb sx sy); lra. }
    destruct (bra_value (xorb sx sy) (Zpos (mx * my)) (ex + ey) loc_Exact v)
      as (w & H1 & H2 & H3 & H4 & H5 & H6).
    + lia.
    + cbn [Zdigits2]. rewrite fexp_eq.
      destruct Hcx as [Hcx | Hcx].
      * assert (52 < Zpos (digits2_pos (mx * my))); [ | lia].
        apply digits2_pos_ge. rewrite Pos2Z.inj_mul. nia.
      * destruct Hcy as [Hcy | Hcy]; [ | lia].
        assert (52 < Zpos (digits2_pos (mx * my))); [ | lia].
        apply digits2_pos_ge. rewrite Pos2Z.inj_mul. nia.
    + rewrite Hv. apply Qle_refl.
    + rewrite <- Hv, inject_Z_plus. change (inject_Z 1) with 1%Q.
      pose proof (Qpow2_pos (ex + ey)) as HU.
      set (U := (2 ^ (ex + ey))%Q) in *. clearbody U. lra.
    + lra.
    + eapply (signed_rounds (xorb sx sy)); try eassumption. split; assumption.
Qed.

Lemma div_core_spec (mx my : positive) (ex ey : Z) :
  exists q e' l s,
    SFdiv_core_binary 53 1024 (Zpos mx) ex (Zpos my) ey = (q, e', l) /\
    0 <= s /\ e' = ex - ey - s /\ q = (Zpos mx * 2 ^ s) / Zpos my /\
    e' <= fexp 53 1024 (Zdigits2 q + e').
Proof.
  unfold SFdiv_core_binary. cbn [Zdigits2].
  pose proof (digits2_pos_bounds mx) as [Hl1 Hu1].
  pose proof (digits2_pos_bounds my) as [Hl2 Hu2].
  set (d1 := Zpos (digits2_pos mx)) in *. set (d2 := Zpos (digits2_pos my)) in *.
  assert (Hd1 : 0 < d1) by (unfold d1; lia).
  assert (Hd2 : 0 < d2) by (unfold d2; lia).
  set (e' := Z.min (fexp 53 1024 (d1 + ex - (d2 + ey))) (ex - ey)).
  assert (He' : e' <= fexp 53 1024 (d1 + ex - (d2 + ey)) /\ e' <= ex - ey)
    by (unfold e'; lia).
  clearbody e'. rewrite fexp_eq in He'.
  set (s := ex - ey - e').
  assert (Hs : 0 <= s) by (unfold s; lia).
  assert (Hm' : match s with
                | 0 => Zpos mx
                | Zpos _ => Z.shiftl (Zpos mx) s
                | Zneg _ => 0
                end = Zpos mx * 2 ^ s).
  { destruct s as [ | p | p] eqn:E; [lia | | lia].
    rewrite Z.shiftl_mul_pow2 by lia. reflexivity. }
  change IntDef.Z.shiftl with Z.shiftl. change IntDef.Z.div_eucl with Z.div_eucl.
  rewrite Hm'.
  assert (Hps : 0 < 2 ^ s) by (apply pow2_pos; lia).
  destruct (Z.div_eucl (Zpos mx * 2 ^ s) (Zpos my)) as [q r] eqn:Hdiv.
  assert (Hq : q = Zpos mx * 2 ^ s / Zpos my).
  { unfold Z.div. now rewrite Hdiv. }
  exists q, e', (new_location (Zpos my) r), s.
  split; [reflexivity | ]. split; [assumption | ].
  split; [unfold s; lia | ]. split; [assumption | ].
  rewrite fexp_eq.
  destruct (Z.le_gt_cases e' (-1074)) as [ | Hgt]; [lia | ].
  assert (H52 : 2 ^ 52 <= q).
  { rewrite Hq. apply Z.div_le_lower_bound; [lia | ].
    assert (Hexp : 52 + d2 <= d1 - 1 + s) by (unfold s; lia).
    pose proof (pow2_split 52 d2 ltac:(lia) ltac:(lia)) as A1.
    assert (A2 : 2 ^ (52 + d2) <= 2 ^ (d1 - 1 + s)) by (apply Z.pow_le_mono_r; lia).
    rewrite (pow2_split (d1 - 1) s) in A2 by lia. rewrite A1 in A2.
    pose proof (pow2_pos 52 ltac:(lia)) as P52.
    set (a := 2 ^ 52) in *. set (b := 2 ^ d2) in *. set (c := 2 ^ (d1 - 1)) in *.
    set (t := 2 ^ s) in *. clearbody a b c t. nia. }
  assert (52 < Zdigits2 q); [ | lia].
  destruct q as [ | p | p]; try lia.
  cbn [Zdigits2]. apply digits2_pos_ge. assumption.
Qed.

(** Division. *)
Lemma div_rounds (x y : double) (V : Q) :
  finite64 x -> finite64 y -> is_zero y = false ->
  (- V <= to_Q x / to_Q y <= V)%Q -> (V <= huge64)%Q ->
  rounds V (x / y)%D (to_Q x / to_Q y).
Proof.
  intros Hx Hy Hnz HV Hmax. unfold huge64 in Hmax.
  assert (HV0 : (0 <= V)%Q) by lra.
  destruct x as [sx | sx | | sx mx ex]; try (destruct Hx as [_ Hx]; discriminate);
  destruct y as [sy | sy | | sy my ey]; try (destruct Hy as [_ Hy]; discriminate);
    try discriminate.
  - apply exact_rounds; [split; reflexivity | | assumption].
    unfold Double.div. cbn [SFdiv]. set (t := to_Q (S754_finite sy my ey)).
    cbn [to_Q]. unfold Qdiv. ring.
  - rewrite !to_Q_finite in *.
    unfold Double.div, SFdiv. change prec with 53. change emax with 1024.
    destruct (div_core_spec mx my ex ey) as (q & e' & l & s & -> & Hs & He' & Hq & Hcan).
    pose proof (Qpow2_pos ex) as Hpx. pose proof (Qpow2_pos ey) as Hpy.
    pose proof (Qpow2_pos e') as HU.
    assert (Hmx : (0 < inject_Z (Zpos mx))%Q).
    { change 0%Q with (inject_Z 0). rewrite <- Zlt_Qlt. lia. }
    assert (Hmy : (0 < inject_Z (Zpos my))%Q).
    { change 0%Q with (inject_Z 0). rewrite <- Zlt_Qlt. lia. }
    set (ax := (inject_Z (Zpos mx) * 2 ^ ex)%Q) in *.
    set (ay := (inject_Z (Zpos my) * 2 ^ ey)%Q) in *.
    assert (Hax : (0 < ax)%Q) by (unfold ax; nra).
    assert (Hay : (0 < ay)%Q) by (unfold ay; nra).
    assert (Hsgn : ((if sx then - ax else ax) / (if sy then - ay else ay)
                    == if xorb sx sy then - (ax / ay) else ax / ay)%Q).
    { destruct sx, sy; cbn [xorb]; field; lra. }
    assert (Hv0 : (0 < ax / ay)%Q).
    { apply Qlt_shift_div_l; [assumption | lra]. }
    assert (HvV : (ax / ay <= V)%Q).
    { rewrite Hsgn in HV. destruct (xorb sx sy); lra. }
    assert (HK : (ax / ay * inject_Z (Zpos my)
                  == inject_Z (Zpos mx * 2 ^ s) * 2 ^ e')%Q).
    { rewrite Qpow2_shift by assumption.
      replace (e' + s) with (ex - ey) by lia.
      assert (Hsp : (2 ^ ex == 2 ^ (ex - ey) * 2 ^ ey)%Q).
      { rewrite <- Qpow2_add. replace (ex - ey + ey) with ex by lia. reflexivity. }
      unfold ax, ay. rewrite Hsp. field. split; lra. }
    assert (HZ : q * Zpos my <= Zpos mx * 2 ^ s < (q + 1) * Zpos my).
    { rewrite Hq. pose proof (Z.mul_div_le (Zpos mx * 2 ^ s) (Zpos my) ltac:(lia)).
      pose proof (Z.mul_succ_div_gt (Zpos mx * 2 ^ s) (Zpos my) ltac:(lia)). lia. }
    destruct HZ as [HZ1 HZ2].
    assert (HQ1 : (inject_Z q * inject_Z (Zpos my) <= inject_Z (Zpos mx * 2 ^ s))%Q).
    { rewrite <- inject_Z_mult, <- Zle_Qle. assumption. }
    assert (HQ2 : (inject_Z (Zpos mx * 2 ^ s) < (inject_Z q + 1) * inject_Z (Zpos my))%Q).
    { change 1%Q with (inject_Z 1).
      rewrite <- inject_Z_plus, <- inject_Z_mult, <- Zlt_Qlt. assumption. }
    assert (Hq0 : 0 <= q).
    { rewrite Hq. apply Z.div_pos; [ | lia].
      pose proof (pow2_pos s Hs). lia. }
    set (v := (ax / ay)%Q) in *.
    set (N := inject_Z (Zpos mx * 2 ^ s)) in *.
    set (Qm := inject_Z (Zpos my)) in *.
    set (U := (2 ^ e')%Q) in *.
    destruct (bra_value (xorb sx sy) q e' l v)
      as (w & H1 & H2 & H3 & H4 & H5 & H6).
    + assumption.
    + assumption.
    + apply (Qmult_le_r _ _ Qm); [assumption | ]. fold U.
      rewrite HK. clearbody v N Qm U. nra.
    + apply (Qmult_lt_r _ _ Qm); [assumption | ]. fold U.
      rewrite HK, inject_Z_plus. change (inject_Z 1) with 1%Q.
      clearbody v N Qm U. nra.
    + lra.
    + eapply (signed_rounds (xorb sx sy)); try eassumption. split; lra.
Qed.

(** The count of cycles as a [double]: exact. *)
Lemma of_Z_count (k : Z) :
  0 < k < 2 ^ 53 ->
  finite64 (of_Z k) /\ (to_Q (of_Z k) == inject_Z k)%Q /\ is_zero (of_Z k) = false.
Proof.
  intros Hk.
  destruct (of_Z_mag k ltac:(lia) ltac:(lia)) as (m & e & Heq & He & Hm & Hmag).
  assert (Hs : (k <? 0) = false) by (apply Z.ltb_ge; lia).
  rewrite Heq, Hs in *. cbn [mag] in Hmag. rewrite Z.abs_eq in Hmag by lia.
  assert (Hv : (inject_Z (Zpos m) * 2 ^ e == inject_Z k)%Q).
  { transitivity (inject_Z (Zpos m * 2 ^ (e + 1074)) * 2 ^ (-1074))%Q.
    - rewrite Qpow2_shift by lia.
      replace (-1074 + (e + 1074)) with e by lia. reflexivity.
    - rewrite Hmag, Qpow2_shift by lia. cbn [Z.add Z.pos_sub]. 
      change (-1074 + 1074) with 0. rewrite Qpower_0_r. ring. }
  split; [ | split; [cbn [to_Q]; exact Hv | reflexivity]].
  split; [ | reflexivity].
  rewrite <- Heq. unfold of_Z, binary_normalize.
  destruct k as [ | p | p]; try lia.
  destruct (binary_round_value false p 0) as (w & H1 & _).
  - rewrite Qpower_0_r, Qmult_1_r.
    apply Qle_trans with (inject_Z (2 ^ 53)).
    + rewrite <- Zle_Qle. lia.
    + rewrite Qpow2_inject by lia. apply Qpow2_le. lia.
  - exact H1.
Qed.

(** * The mean and the variance of a sample set *)

Local Open Scope Q_scope.

Lemma sq_nonneg (a : Q) : 0 <= a * a.
Proof. nra. Qed.

(** The product of two bounded numbers. *)
Lemma mul_bound (x y X Y : Q) :
  - X <= x <= X -> - Y <= y <= Y -> - (X * Y) <= x * y <= X * Y.
Proof.
  intros Hx Hy.
  assert (H1 : 0 <= (X - x) * (Y - y)) by (apply Qmult_le_0_compat; lra).
  assert (H2 : 0 <= (X + x) * (Y + y)) by (apply Qmult_le_0_compat; lra).
  assert (H3 : 0 <= (X - x) * (Y + y)) by (apply Qmult_le_0_compat; lra).
  assert (H4 : 0 <= (X + x) * (Y - y)) by (apply Qmult_le_0_compat; lra).
  lra.
Qed.

Lemma size_nil : size [] == 0.
Proof. reflexivity. Qed.

Lemma size_app (l : list Q) (x : Q) : size (l ++ [x]) == size l + 1.
Proof.
  unfold size. rewrite length_app. cbn [length].
  rewrite Nat2Z.inj_add, inject_Z_plus. reflexivity.
Qed.

Lemma size_cons (l : list Q) (x : Q) : size (x :: l) == size l + 1.
Proof.
  unfold size. cbn [length]. rewrite Nat2Z.inj_succ, <- Z.add_1_r, inject_Z_plus.
  reflexivity.
Qed.

Lemma size_nonneg (l : list Q) : 0 <= size l.
Proof.
  unfold size. change 0 with (inject_Z 0). rewrite <- Zle_Qle. lia.
Qed.

Lemma sum_Q_app (l : list Q) (x : Q) : sum_Q (l ++ [x]) == sum_Q l + x.
Proof.
  induction l as [ | y l IH]; cbn [app sum_Q fold_right].
  - ring.
  - fold (sum_Q (l ++ [x])). fold (sum_Q l). rewrite IH. ring.
Qed.

Lemma sum_Q_bound (B : Q) (l : list Q) :
  Forall (fun x => - B <= x <= B) l ->
  - (size l * B) <= sum_Q l <= size l * B.
Proof.
  induction 1 as [ | x l Hx Hl IH].
  - rewrite size_nil. cbn [sum_Q fold_right]. lra.
  - rewrite size_cons. cbn [sum_Q fold_right]. fold (sum_Q l). lra.
Qed.

Lemma sum_mean (l : list Q) : sum_Q l == size l * mean_direct l.
Proof.
  unfold mean_direct. fold (size l).
  destruct l as [ | x l].
  - cbn. reflexivity.
  - pose proof (size_nonneg l). pose proof (size_cons l x).
    field. lra.
Qed.

Lemma mean_direct_bound (B : Q) (l : list Q) :
  0 <= B -> Forall (fun x => - B <= x <= B) l ->
  - B <= mean_direct l <= B.
Proof.
  intros HB H. pose proof (sum_Q_bound B l H) as Hs.
  rewrite sum_mean in Hs.
  destruct l as [ | x l].
  - assert (E : mean_direct [] == 0) by reflexivity. rewrite E. lra.
  - pose proof (size_nonneg l). pose proof (size_cons l x) as Hc.
    set (n := size (x :: l)) in *. set (mu := mean_direct (x :: l)) in *.
    clearbody n mu. assert (0 < n) by lra. nra.
Qed.

Lemma mean_direct_snoc (l : list Q) (a : Q) :
  mean_direct (l ++ [a]) ==
  mean_direct l + (a - mean_direct l) / (size l + 1).
Proof.
  pose proof (sum_mean l) as H. pose proof (size_nonneg l) as Hn.
  unfold mean_direct at 1. fold (size (l ++ [a])).
  rewrite sum_Q_app, size_app, H. field. lra.
Qed.

Lemma sq_dev_app (mu : Q) (l : list Q) (x : Q) :
  sq_dev mu (l ++ [x]) == sq_dev mu l + (x - mu) * (x - mu).
Proof. unfold sq_dev. rewrite map_app. cbn [map]. apply sum_Q_app. Qed.

Lemma sq_dev_shift (nu nu' : Q) (l : list Q) :
  sq_dev nu' l ==
  sq_dev nu l + 2 * (nu - nu') * (sum_Q l - size l * nu)
  + size l * ((nu - nu') * (nu - nu')).
Proof.
  induction l as [ | x l IH].
  - rewrite size_nil. unfold sq_dev. cbn [map sum_Q fold_right]. ring.
  - rewrite size_cons. unfold sq_dev in *. cbn [map sum_Q fold_right].
    fold (sum_Q (map (fun x => (x - nu') * (x - nu')) l)).
    fold (sum_Q (map (fun x => (x - nu) * (x - nu)) l)).
    fold (sum_Q l). rewrite IH. ring.
Qed.

Lemma sq_dev_snoc (l : list Q) (a : Q) :
  sq_dev (mean_direct (l ++ [a])) (l ++ [a]) ==
  sq_dev (mean_direct l) l
  + (a - mean_direct l) * (a - mean_direct (l ++ [a])).
Proof.
  rewrite sq_dev_app.
  rewrite (sq_dev_shift (mean_direct l) (mean_direct (l ++ [a])) l).
  pose proof (sum_mean l) as H. pose proof (size_nonneg l) as Hn.
  pose proof (mean_direct_snoc l a) as Hs.
  set (mu := mean_direct l) in *. set (mu' := mean_direct (l ++ [a])) in *.
  set (n := size l) in *. set (S := sq_dev mu l). set (s := sum_Q l) in *.
  clearbody mu mu' n S s.
  assert (Ha : a == (n + 1) * mu' - n * mu).
  { rewrite Hs. field. lra. }
  rewrite H, Ha. ring.
Qed.

Lemma sq_dev_bound (B mu : Q) (l : list Q) :
  Forall (fun x => - B <= x <= B) l -> - B <= mu <= B ->
  0 <= sq_dev mu l <= 4 * size l * (B * B).
Proof.
  intros H Hmu. induction H as [ | x l Hx Hl IH].
  - rewrite size_nil. unfold sq_dev. cbn [map sum_Q fold_right]. lra.
  - rewrite size_cons. unfold sq_dev in *. cbn [map sum_Q fold_right].
    fold (sum_Q (map (fun x => (x - mu) * (x - mu)) l)).
    set (S := sum_Q _) in *. clearbody S.
    pose proof (size_nonneg l). set (n := size l) in *. clearbody n.
    cbn beta in Hx.
    assert (H1 : 0 <= 2 * B - (x - mu)) by lra.
    assert (H2 : 0 <= 2 * B + (x - mu)) by lra.
    pose proof (Qmult_le_0_compat _ _ H1 H2) as H3.
    pose proof (sq_nonneg (x - mu)) as H4.
    lra.
Qed.

Local Close Scope Q_scope.

Lemma incr_small (n : Z) : (0 <= n < 2 ^ 32 - 1)%Z -> UInt.incr n = (n + 1)%Z.
Proof. intro H. unfold UInt.incr, UInt.wrap, UInt.modulus. apply Z.mod_small. lia. Qed.

(** * One update of the running statistics in binary64 *)

Section WelfordStep.

Local Open Scope Q_scope.

(** A bound on the magnitude of the samples, neither so small that the
    smallest subnormal matters nor so large that a square overflows. *)
Variable B : Q.
Hypothesis HB : 0 < B.
Hypothesis Heta1 : eta64 <= eps64 * B.
Hypothesis Heta2 : eta64 <= eps64 * (B * B).
Hypothesis Hbig1 : 7 * B <= huge64.
Hypothesis Hbig2 : 137438953472 * (B * B) <= huge64.

Lemma welford_step (n : Z) (m M x : double) (mu S mu' S' : Q) :
  (0 <= n < 2 ^ 32 - 1)%Z ->
  finite64 m -> finite64 M -> sample_within B x ->
  - B <= mu <= B -> - B <= mu' <= B ->
  0 <= S <= 4 * inject_Z n * (B * B) ->
  mu' == mu + (to_Q x - mu) / (inject_Z n + 1) ->
  S' == S + (to_Q x - mu) * (to_Q x - mu') ->
  within (17 * inject_Z n * (eps64 * B)) (to_Q m) mu ->
  within (256 * (inject_Z n * inject_Z n) * (eps64 * (B * B))) (to_Q M) S ->
  exists m' M',
    welford_double n m M x = ((n + 1)%Z, m', M') /\
    finite64 m' /\ finite64 M' /\
    within (17 * (inject_Z n + 1) * (eps64 * B)) (to_Q m') mu' /\
    within (256 * ((inject_Z n + 1) * (inject_Z n + 1)) * (eps64 * (B * B)))
           (to_Q M') S'.
Proof.
  intros Hn Hm HM (Hxv & Hxf & Hxb) Hmu Hmu' HS Hrec HrecS Hwm HwM.
  assert (Hx : finite64 x) by (split; assumption).
  unfold welford_double, welford. rewrite (incr_small n Hn).
  destruct (of_Z_count (n + 1)) as (Hkf & Hkq & Hkz).
  { change (2 ^ 53)%Z with 9007199254740992%Z.
    change (2 ^ 32)%Z with 4294967296%Z in Hn. lia. }
  rewrite inject_Z_plus in Hkq. change (inject_Z 1) with 1 in Hkq.
  assert (HN : 0 <= inject_Z n <= 4294967295).
  { change 0 with (inject_Z 0). change 4294967295 with (inject_Z 4294967295).
    rewrite <- !Zle_Qle. change (2 ^ 32)%Z with 4294967296%Z in Hn. lia. }
  set (N := inject_Z n) in *. clearbody N.
  set (a := to_Q x) in *.
  set (c := / (N + 1)).
  assert (Hc : 0 < c <= 1 /\ (N + 1) * c == 1).
  { assert (Hinv : (N + 1) * c == 1) by (unfold c; field; lra).
    assert (Hc0 : 0 < c) by (unfold c; apply Qinv_lt_0_compat; lra).
    split; [ | assumption]. split; [assumption | ]. nra. }
  destruct Hc as (Hc01 & Hinv).
  assert (Hdivc : forall z : Q, z / (N + 1) == z * c) by (intro z; reflexivity).
  rewrite Hdivc in Hrec.
  (* products of the bounds *)
  assert (HBB : 0 < B * B) by nra.
  assert (HNB : 0 <= N * B <= 4294967295 * B) by nra.
  assert (HNBB : 0 <= N * (B * B) <= 4294967295 * (B * B)) by nra.
  assert (HNNBB : 0 <= N * N * (B * B) <= 4294967295 * (N * (B * B))).
  { split; [nra | ].
    assert (0 <= (4294967295 - N) * (N * (B * B)))
      by (apply Qmult_le_0_compat; lra).
    lra. }
  unfold within, eps64 in *.
  (* delta = awake - mean *)
  destruct (sub_rounds x m (3 * B) Hx Hm) as [Hdf Hd].
  { fold a. lra. }
  { lra. }
  fold a in Hd. unfold within, eps64 in Hd.
  set (d := (x - m)%D) in *. clearbody d.
  (* delta / count *)
  destruct (div_rounds d (of_Z (n + 1)) (4 * B) Hdf Hkf Hkz) as [Htf Ht].
  { rewrite Hkq, Hdivc.
    pose proof (mul_bound (to_Q d) c (4 * B) 1 ltac:(lra) ltac:(lra)). lra. }
  { lra. }
  unfold within, eps64 in Ht. rewrite Hkq, Hdivc in Ht.
  set (t := (d / of_Z (n + 1))%D) in *. clearbody t.
  (* mean += delta / count *)
  pose proof (mul_bound (to_Q d) c (4 * B) 1 ltac:(lra) ltac:(lra)) as Hdc.
  destruct (add_rounds m t (7 * B) Hm Htf) as [Hm'f Hm'].
  { lra. }
  { lra. }
  unfold within, eps64 in Hm'.
  set (m' := (m + t)%D) in *. clearbody m'.
  (* the error of the mean *)
  pose proof (mul_bound (to_Q m - mu) (1 - c)
                (17 * N * ((1 # 4503599627370496) * B)) 1
                ltac:(lra) ltac:(lra)) as HP1.
  pose proof (mul_bound (to_Q d - (a - to_Q m)) c
                (4 * ((1 # 4503599627370496) * B)) 1
                ltac:(lra) ltac:(lra)) as HP2.
  assert (Hmean : mu' - 17 * (N + 1) * ((1 # 4503599627370496) * B) <= to_Q m'
                  <= mu' + 17 * (N + 1) * ((1 # 4503599627370496) * B)) by lra.
  (* delta2 = awake - mean *)
  destruct (sub_rounds x m' (3 * B) Hx Hm'f) as [Hd'f Hd'].
  { fold a. lra. }
  { lra. }
  fold a in Hd'. unfold within, eps64 in Hd'.
  set (d' := (x - m')%D) in *. clearbody d'.
  (* delta * delta2 *)
  pose proof (mul_bound (to_Q d) (to_Q d') (4 * B) (4 * B)
                ltac:(lra) ltac:(lra)) as Hdd.
  destruct (mul_rounds d d' (16 * (B * B)) Hdf Hd'f) as [Hpf Hp].
  { lra. }
  { lra. }
  unfold within, eps64 in Hp.
  set (p := (d * d')%D) in *. clearbody p.
  (* M2 += delta * delta2 *)
  destruct (add_rounds M p (22 * (N + 1) * (B * B)) HM Hpf) as [HM'f HM'].
  { lra. }
  { lra. }
  unfold within, eps64 in HM'.
  set (M' := (M + p)%D) in *. clearbody M'.
  exists m', M'.
  split; [reflexivity | ]. split; [assumption | ]. split; [assumption | ].
  split; [exact Hmean | ].
  pose proof (mul_bound (to_Q d - (a - mu)) (to_Q d')
                (17 * (N + 1) * ((1 # 4503599627370496) * B)) (4 * B)
                ltac:(lra) ltac:(lra)) as HQ1.
  pose proof (mul_bound (a - mu) (to_Q d' - (a - mu'))
                (2 * B) (21 * (N + 1) * ((1 # 4503599627370496) * B))
                ltac:(lra) ltac:(lra)) as HQ2.
  lra.
Qed.

End WelfordStep.

(** * The running statistics of a sample set *)

Lemma stats_double_snoc (l : list double) (x : double) :
  stats_double (l ++ [x]) =
  let '(n, mean, m2) := stats_double l in welford_double n mean m2 x.
Proof.
  unfold stats_double. rewrite fold_left_app. cbn [fold_left].
  destruct (fold_left _ l _) as [[n mean] m2]. reflexivity.
Qed.

Lemma samples_bounded (B : Q) (l : list double) :
  Forall (sample_within B) l ->
  Forall (fun q => (- B <= q <= B)%Q) (map to_Q l).
Proof.
  induction 1 as [ | x l (_ & _ & Hx) _ IH]; constructor; assumption.
Qed.

Section WelfordLoop.

Local Open Scope Q_scope.

Variable B : Q.
Hypothesis HB : 0 < B.
Hypothesis Heta1 : eta64 <= eps64 * B.
Hypothesis Heta2 : eta64 <= eps64 * (B * B).
Hypothesis Hbig1 : 7 * B <= huge64.
Hypothesis Hbig2 : 137438953472 * (B * B) <= huge64.

(** After every prefix of the samples, the mean and M2 held in binary64
    are near the exact mean and the exact sum of squared deviations. *)
Lemma stats_double_invariant (samples : list double) :
  Forall (sample_within B) samples ->
  (Z.of_nat (length samples) < 2 ^ 32)%Z ->
  exists mean m2,
    stats_double samples = (Z.of_nat (length samples), mean, m2) /\
    finite64 mean /\ finite64 m2 /\
    within (17 * size (map to_Q samples) * (eps64 * B))
           (to_Q mean) (mean_direct (map to_Q samples)) /\
    within (256 * (size (map to_Q samples) * size (map to_Q samples))
            * (eps64 * (B * B)))
           (to_Q m2) (sq_dev (mean_direct (map to_Q samples)) (map to_Q samples)).
Proof.
  induction samples as [ | x l IH] using rev_ind; intros Hall Hlen.
  - exists Double.zero, Double.zero.
    split; [reflexivity | ]. split; [split; reflexivity | ].
    split; [split; reflexivity | ].
    cbn [map].
    assert (E : mean_direct [] == 0) by reflexivity.
    unfold within, sq_dev. cbn [map sum_Q fold_right to_Q Double.zero].
    rewrite size_nil, E. split; lra.
  - apply Forall_app in Hall. destruct Hall as [Hl Hx].
    inversion Hx as [ | ? ? Hx1 _]; subst.
    rewrite length_app in Hlen. cbn [length] in Hlen.
    destruct (IH Hl ltac:(lia)) as (mean & m2 & Hst & Hmf & HMf & Hwm & HwM).
    rewrite stats_double_snoc, Hst.
    pose proof (samples_bounded B l Hl) as Hb.
    rewrite map_app. cbn [map].
    set (xs := map to_Q l) in *.
    assert (Hsz : size xs = inject_Z (Z.of_nat (length l))).
    { unfold size, xs. now rewrite length_map. }
    assert (Hb' : Forall (fun q => - B <= q <= B) (xs ++ [to_Q x])).
    { apply Forall_app. split; [assumption | ]. constructor; [apply Hx1 | constructor]. }
    destruct (welford_step B HB Heta1 Heta2 Hbig1 Hbig2
                (Z.of_nat (length l)) mean m2 x
                (mean_direct xs) (sq_dev (mean_direct xs) xs)
                (mean_direct (xs ++ [to_Q x]))
                (sq_dev (mean_direct (xs ++ [to_Q x])) (xs ++ [to_Q x])))
      as (m' & M' & Hw & Hm'f & HM'f & Hwm' & HwM'); try assumption.
    + lia.
    + apply mean_direct_bound; [lra | assumption].
    + apply mean_direct_bound; [lra | assumption].
    + rewrite <- Hsz. apply sq_dev_bound; [assumption | ].
      apply mean_direct_bound; [lra | assumption].
    + rewrite <- Hsz. apply mean_direct_snoc.
    + apply sq_dev_snoc.
    + rewrite <- Hsz. assumption.
    + rewrite <- Hsz. assumption.
    + exists m', M'. rewrite Hw. rewrite <- Hsz in Hwm', HwM'.
      split; [ | split; [assumption | split; [assumption | ]]].
      * f_equal. f_equal. rewrite length_app. cbn [length]. lia.
      * unfold within in *. rewrite !size_app. split; assumption.
Qed.

End WelfordLoop.

(** ** The range of the bound on the samples *)

Lemma sample_range (B : Q) :
  (2 ^ (-500) <= B <= 2 ^ 480)%Q ->
  (0 < B /\ eta64 <= eps64 * B /\ eta64 <= eps64 * (B * B) /\
   7 * B <= huge64 /\ 137438953472 * (B * B) <= huge64)%Q.
Proof.
  intros [Hlo Hhi].
  pose proof (Qpow2_pos (-500)) as Hl0.
  pose proof (Qpow2_pos 480) as Hh0.
  assert (He : (eps64 == 2 ^ (-52))%Q) by reflexivity.
  assert (F1 : (eta64 <= eps64 * 2 ^ (-500))%Q).
  { rewrite He, <- Qpow2_add. apply Qpow2_le. lia. }
  assert (F2 : (eta64 <= eps64 * (2 ^ (-500) * 2 ^ (-500)))%Q).
  { rewrite He, <- !Qpow2_add. apply Qpow2_le. lia. }
  assert (F3 : (8 * 2 ^ 480 <= huge64)%Q).
  { change 8%Q with (2 ^ 3)%Q. rewrite <- Qpow2_add. apply Qpow2_le. lia. }
  assert (F4 : (137438953472 * (2 ^ 480 * 2 ^ 480) <= huge64)%Q).
  { change 137438953472%Q with (2 ^ 37)%Q. rewrite <- !Qpow2_add.
    apply Qpow2_le. lia. }
  unfold eps64 in *.
  set (l := (2 ^ (-500))%Q) in *. set (h := (2 ^ 480)%Q) in *.
  clearbody l h.
  assert (G1 : (0 <= (B - l) * (B + l))%Q) by (apply Qmult_le_0_compat; lra).
  assert (G2 : (0 <= (h - B) * (h + B))%Q) by (apply Qmult_le_0_compat; lra).
  repeat split; lra.
Qed.

(** The quotient by [N - 1] of a difference of at most [N * T]. *)
Lemma quotient_err (x y N T : Q) :
  (2 <= N -> 0 <= T -> - (N * T) <= x - y <= N * T ->
   - (2 * T) <= x / (N - 1) - y / (N - 1) <= 2 * T)%Q.
Proof.
  intros HN HT Hxy.
  set (c := (/ (N - 1))%Q).
  assert (Hinv : ((N - 1) * c == 1)%Q) by (unfold c; field; lra).
  assert (Hc0 : (0 < c)%Q) by (unfold c; apply Qinv_lt_0_compat; lra).
  assert (Hd : forall z : Q, (z / (N - 1) == z * c)%Q) by (intro z; reflexivity).
  rewrite !Hd.
  assert (H1 : (0 <= (N * T - (x - y)) * c)%Q) by (apply Qmult_le_0_compat; lra).
  assert (H2 : (0 <= (N * T + (x - y)) * c)%Q) by (apply Qmult_le_0_compat; lra).
  assert (H3 : (0 <= T * c)%Q) by (apply Qmult_le_0_compat; lra).
  assert (H4 : (0 <= T * (1 - c))%Q).
  { apply Qmult_le_0_compat; [lra | ]. nra. }
  assert (H5 : (N * T * c == T * ((N - 1) * c) + T * c)%Q) by ring.
  rewrite Hinv in H5.
  clearbody c. split; lra.
Qed.

Lemma decr_small (n : Z) : (1 <= n < 2 ^ 32)%Z -> UInt.decr n = (n - 1)%Z.
Proof. intro H. unfold UInt.decr, UInt.wrap, UInt.modulus. apply Z.mod_small. lia. Qed.

(** C5. The incremental update of [sleep] (increment the count; [delta =
    awake - mean]; [mean += delta / count]; [delta2 = awake - mean];
    [M2 += delta * delta2]), run in binary64 from the values that [reset]
    stores over any sequence of fewer than [2^32] finite samples of
    magnitude at most [B], ends with the count equal to the number [n] of
    samples, with a finite mean within [n * 2^-47 * B] of the arithmetic
    mean of the whole sample set, and with a finite M2 such that
    [M2 / (n - 1)], both as an exact quotient and as the binary64 quotient
    that [getAwakeTimeVar] returns, is within [n * 2^-42 * B^2] of the
    unbiased sample variance computed directly. The bound [B] is taken
    between [2^-500] and [2^480], so that neither the smallest subnormal
    nor an overflow enters the tolerance. *)
Theorem welford_double_matches_direct (B : Q) (samples : list double) :
  (2 ^ (-500) <= B <= 2 ^ 480)%Q ->
  Forall (sample_within B) samples ->
  (Z.of_nat (length samples) < 2 ^ 32)%Z ->
  let '(n, mean, m2) := stats_double samples in
  n = Z.of_nat (length samples) /\
  finite64 mean /\ finite64 m2 /\
  within (mean_tolerance n B) (to_Q mean) (mean_direct (map to_Q samples)) /\
  ((2 <= n)%Z ->
   within (var_tolerance n B) (to_Q m2 / inject_Z (n - 1))
          (var_direct (map to_Q samples)) /\
   finite64 (m2 / Double.of_Z (UInt.decr n))%D /\
   within (var_tolerance n B) (to_Q (m2 / Double.of_Z (UInt.decr n))%D)
          (var_direct (map to_Q samples))).
Proof.
  intros HB Hall Hlen.
  destruct (sample_range B HB) as (HB0 & Heta1 & Heta2 & Hbig1 & Hbig2).
  destruct (stats_double_invariant B HB0 Heta1 Heta2 Hbig1 Hbig2 samples Hall Hlen)
    as (mean & m2 & -> & Hmf & HMf & Hwm & HwM).
  pose proof (samples_bounded B samples Hall) as Hb.
  pose proof (mean_direct_bound B _ ltac:(lra) Hb) as Hmu.
  pose proof (sq_dev_bound B _ _ Hb Hmu) as HS.
  unfold var_direct, mean_tolerance, var_tolerance.
  assert (Hsz : size (map to_Q samples) = inject_Z (Z.of_nat (length samples))).
  { unfold size. now rewrite length_map. }
  rewrite length_map. rewrite Hsz in *.
  set (n := Z.of_nat (length samples)) in *.
  set (mu := mean_direct (map to_Q samples)) in *.
  set (S := sq_dev mu (map to_Q samples)) in *.
  clearbody mu S.
  assert (HN : (0 <= inject_Z n <= 4294967295)%Q).
  { change 0%Q with (inject_Z 0). change 4294967295%Q with (inject_Z 4294967295).
    rewrite <- !Zle_Qle. change (2 ^ 32)%Z with 4294967296%Z in Hlen. lia. }
  split; [reflexivity | ]. split; [assumption | ]. split; [assumption | ].
  assert (HBB : (0 < B * B)%Q) by nra.
  assert (HNB : (0 <= inject_Z n * B)%Q) by (apply Qmult_le_0_compat; lra).
  assert (HNBB : (0 <= inject_Z n * (B * B))%Q) by (apply Qmult_le_0_compat; lra).
  assert (HNNBB : (0 <= inject_Z n * inject_Z n * (B * B)
                   <= 4294967295 * (inject_Z n * (B * B)))%Q).
  { split; [apply Qmult_le_0_compat; [apply Qmult_le_0_compat | ]; lra | ].
    assert (0 <= (4294967295 - inject_Z n) * (inject_Z n * (B * B)))%Q
      by (apply Qmult_le_0_compat; lra).
    lra. }
  unfold within, eps64 in *.
  split; [lra | ].
  intro H2.
  assert (HN2 : (2 <= inject_Z n)%Q).
  { change 2%Q with (inject_Z 2). rewrite <- Zle_Qle. assumption. }
  assert (HD : (inject_Z (n - 1) == inject_Z n - 1)%Q).
  { unfold Z.sub. rewrite inject_Z_plus. reflexivity. }
  destruct (of_Z_count (n - 1)) as (Hkf & Hkq & Hkz).
  { change (2 ^ 53)%Z with 9007199254740992%Z.
    change (2 ^ 32)%Z with 4294967296%Z in Hlen. lia. }
  rewrite decr_small by lia.
  rewrite HD in *.
  set (N := inject_Z n) in *. clearbody N.
  set (T := (256 * N * ((1 # 4503599627370496) * (B * B)))%Q).
  assert (HT : (0 <= T)%Q) by (unfold T; lra).
  pose proof (quotient_err (to_Q m2) S N T HN2 HT ltac:(unfold T; lra)) as Hq.
  pose proof (quotient_err (to_Q m2) 0 N (5 * (B * B)) HN2 ltac:(lra)
                ltac:(lra)) as Hq0.
  assert (H0 : (0 / (N - 1) == 0)%Q) by (unfold Qdiv; ring).
  rewrite H0 in Hq0.
  destruct (div_rounds m2 (Double.of_Z (n - 1)) (10 * (B * B)) HMf Hkf Hkz)
    as [Hvf Hv].
  { rewrite Hkq. lra. }
  { lra. }
  unfold within, eps64 in Hv. rewrite Hkq in Hv.
  unfold T in Hq.
  assert (HN2BB : (0 <= (N - 2) * (B * B))%Q) by (apply Qmult_le_0_compat; lra).
  set (q1 := (to_Q m2 / (N - 1))%Q) in *. set (q2 := (S / (N - 1))%Q) in *.
  clearbody q1 q2.
  split; [lra | ]. split; [assumption | lra].
Qed.

(** * One call of [sleep] *)

Lemma sleep_intro (r : Rate) (now1 now2 : timespec) (awake d : double) (step : timespec) :
  GetDuration (sleepEndTime_ r) now1 = Some awake ->
  advance (timeStep_ r) (stepTime_ r) = Some step ->
  GetDuration now2 step = Some d ->
  exists r' evs,
    sleep r now1 now2 = Some (r', evs) /\
    sleep_post r now1 now2 awake step (d < Double.zero)%D r' evs.
Proof.
  intros Ha Hs Hd. unfold sleep. rewrite Ha. cbn [bind].
  destruct (welford_double _ _ _ awake) as [[count mean] m2] eqn:Hw.
  destruct (check_thresholds r awake) as [[warnings errors] lg] eqn:Hc.
  rewrite Hs. cbn [bind]. rewrite Hd. cbn [bind].
  unfold sleep_post. rewrite Hw, Hc. cbn [fst snd].
  destruct (d < Double.zero)%D; [destruct (enforceRate_ r) | ]; cbn [negb andb];
    eexists; eexists; (split; [reflexivity | ]); cbn;
    rewrite ?app_nil_r; repeat split; reflexivity.
Qed.

Lemma sleep_inv (r : Rate) (now1 now2 : timespec) (r' : Rate) (evs : list event) :
  sleep r now1 now2 = Some (r', evs) ->
  exists awake step d,
    GetDuration (sleepEndTime_ r) now1 = Some awake /\
    advance (timeStep_ r) (stepTime_ r) = Some step /\
    GetDuration now2 step = Some d /\
    sleep_post r now1 now2 awake step (d < Double.zero)%D r' evs.
Proof.
  intro H.
  destruct (GetDuration (sleepEndTime_ r) now1) as [awake | ] eqn:Ha.
  2:{ unfold sleep in H. rewrite Ha in H. discriminate. }
  destruct (advance (timeStep_ r) (stepTime_ r)) as [step | ] eqn:Hs.
  2:{ unfold sleep in H. rewrite Ha in H. cbn [bind] in H.
      destruct (welford_double _ _ _ _) as [[? ?] ?].
      destruct (check_thresholds _ _) as [[? ?] ?].
      rewrite Hs in H. discriminate. }
  destruct (GetDuration now2 step) as [d | ] eqn:Hd.
  2:{ unfold sleep in H. rewrite Ha in H. cbn [bind] in H.
      destruct (welford_double _ _ _ _) as [[? ?] ?].
      destruct (check_thresholds _ _) as [[? ?] ?].
      rewrite Hs in H. cbn [bind] in H. rewrite Hd in H. discriminate. }
  destruct (sleep_intro r now1 now2 awake d step Ha Hs Hd) as (r1 & evs1 & Heq & Hpost).
  rewrite Heq in H. injection H as <- <-.
  exists awake, step, d. auto.
Qed.

Lemma clock_reading_range (a b : timespec) :
  clock_reading a -> clock_reading b ->
  Long.in_range (tv_sec b - tv_sec a) = true.
Proof.
  intros [_ Ha] [_ Hb]. apply in_range_bounds.
  change (2 ^ 61) with 2305843009213693952 in *.
  change (2 ^ 63) with 9223372036854775808. lia.
Qed.

Lemma GetDuration_readings (a b : timespec) :
  clock_reading a -> clock_reading b ->
  exists d, GetDuration a b = Some d /\ isfinite d = true /\
            negative d = ts_ltb b a.
Proof.
  intros Ha Hb. apply GetDuration_sign; [apply Ha | apply Hb | ].
  now apply clock_reading_range.
Qed.

(** The advance of the schedule is defined for every valid time step below
    [max_step], and moves the target forward by at most [2^34] seconds. *)
Lemma advance_total (ts : double) (t : timespec) :
  TimeStepIsValid ts = true -> is_binary64 ts -> (ts < max_step)%D = true ->
  normalized t -> - 2 ^ 62 <= tv_sec t < 2 ^ 62 ->
  exists t', advance ts t = Some t' /\ normalized t' /\
             tv_sec t <= tv_sec t' <= tv_sec t + 2 ^ 34 /\
             nanos t <= nanos t'.
Proof.
  intros Hv Hb Hlt Hn Hsec.
  destruct (step_defined ts (tv_nsec t) Hv Hb Hlt Hn) as (n & Hl & Hn0 & Hn1).
  assert (Hq : 0 <= Z.quot n NSecPerSec_ <= 2 ^ 34).
  { unfold NSecPerSec_. split.
    - apply Z.quot_pos; lia.
    - rewrite Z.quot_div_nonneg by lia.
      apply Z.div_le_upper_bound; [lia | ].
      change (2 ^ 63 - 2 ^ 20) with 9223372036853727232 in Hn1.
      change (2 ^ 34) with 17179869184. lia. }
  assert (Ha : advance ts t =
               Some (mkTimespec (tv_sec t + Z.quot n NSecPerSec_) (Z.rem n NSecPerSec_))).
  { unfold advance. rewrite Hl. cbn [bind]. unfold Long.add.
    rewrite checked_some; [reflexivity | ].
    apply in_range_bounds.
    change (2 ^ 62) with 4611686018427387904 in Hsec.
    change (2 ^ 34) with 17179869184 in Hq.
    change (2 ^ 63) with 9223372036854775808. lia. }
  eexists. split; [exact Ha | ].
  split; [eapply advance_normalized; [exact Hv | apply Hn | exact Ha] | ].
  split; [cbn [tv_sec]; lia | ].
  eapply advance_monotone; eauto.
Qed.

Lemma sleep_total (r : Rate) (now1 now2 : timespec) :
  TimeStepIsValid (timeStep_ r) = true -> is_binary64 (timeStep_ r) ->
  (timeStep_ r < max_step)%D = true ->
  clock_reading (sleepEndTime_ r) -> clock_reading (stepTime_ r) ->
  clock_reading now1 -> clock_reading now2 ->
  exists r' evs awake step,
    sleep r now1 now2 = Some (r', evs) /\
    GetDuration (sleepEndTime_ r) now1 = Some awake /\
    isfinite awake = true /\
    negative awake = ts_ltb now1 (sleepEndTime_ r) /\
    advance (timeStep_ r) (stepTime_ r) = Some step /\
    normalized step /\
    tv_sec (stepTime_ r) <= tv_sec step <= tv_sec (stepTime_ r) + 2 ^ 34 /\
    nanos (stepTime_ r) <= nanos step /\
    sleep_post r now1 now2 awake step (ts_ltb step now2) r' evs.
Proof.
  intros Hv Hb Hlt He Hst H1 H2.
  destruct (GetDuration_readings _ _ He H1) as (awake & Ha & Hfin & Hneg).
  assert (Hsec : - 2 ^ 62 <= tv_sec (stepTime_ r) < 2 ^ 62).
  { destruct Hst as [_ Hst].
    change (2 ^ 61) with 2305843009213693952 in Hst.
    change (2 ^ 62) with 4611686018427387904. lia. }
  destruct (advance_total _ _ Hv Hb Hlt (proj1 Hst) Hsec) as (step & Hs & Hsn & Hss & Hnan).
  assert (Hr : Long.in_range (tv_sec step - tv_sec now2) = true).
  { apply in_range_bounds. destruct H2 as [_ H2]. destruct Hst as [_ Hst].
    change (2 ^ 61) with 2305843009213693952 in *.
    change (2 ^ 34) with 17179869184 in Hss.
    change (2 ^ 63) with 9223372036854775808. lia. }
  destruct (GetDuration_sign now2 step (proj1 H2) Hsn Hr) as (d & Hd & _ & Hdneg).
  destruct (sleep_intro r now1 now2 awake d step Ha Hs Hd) as (r' & evs & Heq & Hpost).
  rewrite ltb_zero, Hdneg in Hpost.
  exists r', evs, awake, step. repeat (split; [assumption | ]). assumption.
Qed.

(** * Threshold check *)

Lemma check_thresholds_cases (r : Rate) (awake : double) :
  ((awake > maxTimeStepError_ r)%D = true ->
   check_thresholds r awake =
   (numWarnings_ r, UInt.incr (numErrors_ r), [Log Error (too_long_msg r awake)])) /\
  ((awake > maxTimeStepError_ r)%D = false ->
   (awake > maxTimeStepWarning_ r)%D = true ->
   check_thresholds r awake =
   (UInt.incr (numWarnings_ r), numErrors_ r, [Log Warn (too_long_msg r awake)])) /\
  ((awake > maxTimeStepError_ r)%D = false ->
   (awake > maxTimeStepWarning_ r)%D = false ->
   check_thresholds r awake = (numWarnings_ r, numErrors_ r, [])).
Proof.
  unfold check_thresholds.
  destruct (awake > maxTimeStepError_ r)%D, (awake > maxTimeStepWarning_ r)%D;
    repeat split; intros; congruence.
Qed.

Lemma logs_app (a b : list event) : logs (a ++ b) = logs a ++ logs b.
Proof. apply flat_map_app. Qed.

Lemma nanosleeps_app (a b : list event) :
  nanosleeps (a ++ b) = nanosleeps a ++ nanosleeps b.
Proof. apply flat_map_app. Qed.

Lemma check_thresholds_nanosleeps (r : Rate) (awake : double) :
  nanosleeps (snd (check_thresholds r awake)) = [].
Proof.
  unfold check_thresholds.
  destruct (awake > maxTimeStepError_ r)%D, (awake > maxTimeStepWarning_ r)%D;
    reflexivity.
Qed.

Lemma sleep_post_logs (r : Rate) (now1 now2 : timespec) (awake : double)
      (step : timespec) (behind : bool) (r' : Rate) (evs : list event) :
  sleep_post r now1 now2 awake step behind r' evs ->
  logs evs = logs (snd (check_thresholds r awake)).
Proof.
  intros (_ & _ & _ & _ & _ & _ & _ & _ & _ & _ & _ & _ & ->).
  rewrite logs_app. destruct behind; cbn; now rewrite app_nil_r.
Qed.

Lemma sleep_post_nanosleeps (r : Rate) (now1 now2 : timespec) (awake : double)
      (step : timespec) (behind : bool) (r' : Rate) (evs : list event) :
  sleep_post r now1 now2 awake step behind r' evs ->
  nanosleeps evs = if behind then [] else [(clockId_ r, step)].
Proof.
  intros (_ & _ & _ & _ & _ & _ & _ & _ & _ & _ & _ & _ & ->).
  rewrite nanosleeps_app, check_thresholds_nanosleeps.
  destruct behind; reflexivity.
Qed.

(** C3. On every [sleep] call the measured awake time is compared with the
    error maximum first and with the warning maximum only if that did not
    trigger: when it exceeds the error maximum, the error counter advances
    by one ([++] on an [unsigned int]) and the warning counter stays; else,
    when it exceeds the warning maximum, the warning counter advances by
    one and the error counter stays; otherwise both counters stay and
    nothing is printed. *)
Theorem sleep_counts_error_before_warning (r : Rate) (now1 now2 : timespec) :
  TimeStepIsValid (timeStep_ r) = true -> is_binary64 (timeStep_ r) ->
  (timeStep_ r < max_step)%D = true ->
  clock_reading (sleepEndTime_ r) -> clock_reading (stepTime_ r) ->
  clock_reading now1 -> clock_reading now2 ->
  exists r' evs awake,
    sleep r now1 now2 = Some (r', evs) /\
    GetDuration (sleepEndTime_ r) now1 = Some awake /\
    awakeTime_ r' = awake /\
    ((awake > maxTimeStepError_ r)%D = true ->
     numErrors_ r' = UInt.incr (numErrors_ r) /\
     numWarnings_ r' = numWarnings_ r /\
     logs evs = [(Error, too_long_msg r awake)]) /\
    ((awake > maxTimeStepError_ r)%D = false ->
     (awake > maxTimeStepWarning_ r)%D = true ->
     numWarnings_ r' = UInt.incr (numWarnings_ r) /\
     numErrors_ r' = numErrors_ r /\
     logs evs = [(Warn, too_long_msg r awake)]) /\
    ((awake > maxTimeStepError_ r)%D = false ->
     (awake > maxTimeStepWarning_ r)%D = false ->
     numWarnings_ r' = numWarnings_ r /\
     numErrors_ r' = numErrors_ r /\
     logs evs = []).
Proof.
  intros Hv Hb Hlt He Hst H1 H2.
  destruct (sleep_total r now1 now2 Hv Hb Hlt He Hst H1 H2)
    as (r' & evs & awake & step & Heq & Ha & _ & _ & _ & _ & _ & _ & Hpost).
  exists r', evs, awake.
  pose proof (sleep_post_logs _ _ _ _ _ _ _ _ Hpost) as Hlogs.
  destruct Hpost as (_ & _ & _ & _ & _ & _ & _ & _ & _ & _ & Haw & Hcnt & _).
  destruct (check_thresholds_cases r awake) as (Hc1 & Hc2 & Hc3).
  repeat (split; [assumption | ]).
  split; [ | split].
  - intro C1. rewrite (Hc1 C1) in Hcnt, Hlogs. cbn in Hcnt, Hlogs.
    injection Hcnt as -> ->. auto.
  - intros C1 C2. rewrite (Hc2 C1 C2) in Hcnt, Hlogs. cbn in Hcnt, Hlogs.
    injection Hcnt as -> ->. auto.
  - intros C1 C2. rewrite (Hc3 C1 C2) in Hcnt, Hlogs. cbn in Hcnt, Hlogs.
    injection Hcnt as -> ->. auto.
Qed.

Lemma pacer_1ms_ok :
  TimeStepIsValid (timeStep_ pacer_1ms) = true /\
  is_binary64 (timeStep_ pacer_1ms) /\
  (timeStep_ pacer_1ms < max_step)%D = true /\
  clock_reading (sleepEndTime_ pacer_1ms) /\
  clock_reading (stepTime_ pacer_1ms).
Proof.
  repeat split; try (vm_compute; reflexivity); vm_compute; congruence.
Qed.

Lemma clock_reading_intro (s n : Z) :
  (0 <=? n) && (n <? 1000000000) && (-2305843009213693952 <=? s)
    && (s <? 2305843009213693952) = true ->
  clock_reading (mkTimespec s n).
Proof.
  intro H. apply andb_prop in H. destruct H as [H H4].
  apply andb_prop in H. destruct H as [H H3].
  apply andb_prop in H. destruct H as [H1 H2].
  apply Z.leb_le in H1, H3. apply Z.ltb_lt in H2, H4.
  unfold clock_reading, normalized, NSecPerSec_. cbn [tv_sec tv_nsec].
  change (2 ^ 61) with 2305843009213693952. lia.
Qed.

(** A cycle of 12 ms of work on the 1 ms pacer: the error counter moves,
    the warning counter does not. *)
Lemma sleep_counts_error_before_warning_witness :
  (TimeStepIsValid (timeStep_ pacer_1ms) = true /\
   is_binary64 (timeStep_ pacer_1ms) /\
   (timeStep_ pacer_1ms < max_step)%D = true /\
   clock_reading (sleepEndTime_ pacer_1ms) /\
   clock_reading (stepTime_ pacer_1ms) /\
   clock_reading (mkTimespec 100 12000000) /\
   clock_reading (mkTimespec 100 12000500)) /\
  exists r' evs,
    sleep pacer_1ms (mkTimespec 100 12000000) (mkTimespec 100 12000500) = Some (r', evs) /\
    numErrors_ r' = 1 /\ numWarnings_ r' = 0.
Proof.
  destruct pacer_1ms_ok as (Hv & Hb & Hlt & He & Hst).
  assert (H1 : clock_reading (mkTimespec 100 12000000))
    by (apply clock_reading_intro; reflexivity).
  assert (H2 : clock_reading (mkTimespec 100 12000500))
    by (apply clock_reading_intro; reflexivity).
  split; [repeat (split; [assumption | ]); assumption | ].
  destruct (sleep_counts_error_before_warning pacer_1ms _ _ Hv Hb Hlt He Hst H1 H2)
    as (r' & evs & awake & Heq & Ha & _ & Herr & _).
  exists r', evs. split; [exact Heq | ].
  assert (Hgt : (awake > maxTimeStepError_ pacer_1ms)%D = true).
  { vm_compute in Ha. injection Ha as <-. vm_compute. reflexivity. }
  destruct (Herr Hgt) as (-> & -> & _). split; reflexivity.
Defined.

(** * Schedule policy *)

(** C2. On every call, after the target [stepTime] has been advanced by
    the time step, the clock is sampled and compared with the target.
    Target in the past, rate not enforced: the target becomes the sample,
    the end of the sleep is the sample, nothing blocks.  Target in the
    past, rate enforced: the advanced target is kept, nothing blocks.
    Target not in the past: the end of the sleep is the target and the
    call waits for that absolute instant on the configured clock. *)
Theorem sleep_schedule_policy (r : Rate) (now1 now2 : timespec) :
  TimeStepIsValid (timeStep_ r) = true -> is_binary64 (timeStep_ r) ->
  (timeStep_ r < max_step)%D = true ->
  clock_reading (sleepEndTime_ r) -> clock_reading (stepTime_ r) ->
  clock_reading now1 -> clock_reading now2 ->
  exists r' evs step,
    sleep r now1 now2 = Some (r', evs) /\
    advance (timeStep_ r) (stepTime_ r) = Some step /\
    (ts_ltb step now2 = true -> enforceRate_ r = false ->
     stepTime_ r' = now2 /\ sleepEndTime_ r' = now2 /\ nanosleeps evs = []) /\
    (ts_ltb step now2 = true -> enforceRate_ r = true ->
     stepTime_ r' = step /\ sleepEndTime_ r' = now2 /\ nanosleeps evs = []) /\
    (ts_ltb step now2 = false ->
     stepTime_ r' = step /\ sleepEndTime_ r' = step /\
     nanosleeps evs = [(clockId_ r, step)]).
Proof.
  intros Hv Hb Hlt He Hst H1 H2.
  destruct (sleep_total r now1 now2 Hv Hb Hlt He Hst H1 H2)
    as (r' & evs & awake & step & Heq & _ & _ & _ & Hadv & _ & _ & _ & Hpost).
  exists r', evs, step.
  pose proof (sleep_post_nanosleeps _ _ _ _ _ _ _ _ Hpost) as Hns.
  destruct Hpost as (_ & _ & _ & _ & _ & _ & _ & Hend & Hstep & _).
  repeat (split; [assumption | ]).
  split; [ | split].
  - intros Hbh Henf. rewrite Hbh, Henf in *. cbn in Hstep. auto.
  - intros Hbh Henf. rewrite Hbh, Henf in *. cbn in Hstep. auto.
  - intros Hbh. rewrite Hbh in *. cbn in Hstep. auto.
Qed.

(** On time: 0.4 ms after the reset the 1 ms pacer waits until 100.001 s. *)
Lemma sleep_schedule_policy_witness :
  (TimeStepIsValid (timeStep_ pacer_1ms) = true /\
   is_binary64 (timeStep_ pacer_1ms) /\
   (timeStep_ pacer_1ms < max_step)%D = true /\
   clock_reading (sleepEndTime_ pacer_1ms) /\
   clock_reading (stepTime_ pacer_1ms) /\
   clock_reading (mkTimespec 100 400000) /\
   clock_reading (mkTimespec 100 400100)) /\
  exists r' evs,
    sleep pacer_1ms (mkTimespec 100 400000) (mkTimespec 100 400100) = Some (r', evs) /\
    sleepEndTime_ r' = mkTimespec 100 1000000 /\
    nanosleeps evs = [(1, mkTimespec 100 1000000)].
Proof.
  destruct pacer_1ms_ok as (Hv & Hb & Hlt & He & Hst).
  assert (H1 : clock_reading (mkTimespec 100 400000))
    by (apply clock_reading_intro; reflexivity).
  assert (H2 : clock_reading (mkTimespec 100 400100))
    by (apply clock_reading_intro; reflexivity).
  split; [repeat (split; [assumption | ]); assumption | ].
  destruct (sleep_schedule_policy pacer_1ms _ _ Hv Hb Hlt He Hst H1 H2)
    as (r' & evs & step & Heq & Hadv & _ & _ & Hon).
  exists r', evs. split; [exact Heq | ].
  vm_compute in Hadv. injection Hadv as <-.
  destruct (Hon eq_refl) as (_ & -> & ->). split; reflexivity.
Defined.

(** * Setters *)

Lemma negative_not_ge_zero (x : double) :
  (x < Double.zero)%D = true -> (x >= Double.zero)%D = false.
Proof. destruct x as [[ | ] | [ | ] | | [ | ] m e]; cbn; congruence. Qed.

Lemma nan_not_ge_zero (x : double) :
  isnan x = true -> (x >= Double.zero)%D = false.
Proof. destruct x; cbn; congruence. Qed.

Lemma TimeStepIsValid_rejects (x : double) :
  (x < Double.zero)%D || isnan x || isinf x = true -> TimeStepIsValid x = false.
Proof.
  unfold TimeStepIsValid. intro H.
  apply orb_true_iff in H. destruct H as [H | H].
  - apply orb_true_iff in H. destruct H as [H | H].
    + now rewrite (negative_not_ge_zero x H).
    + now rewrite (nan_not_ge_zero x H).
  - rewrite H. cbn. now rewrite andb_false_r.
Qed.

Lemma MaxTimeStepIsValid_rejects (x : double) :
  (x < Double.zero)%D || isnan x = true -> MaxTimeStepIsValid x = false.
Proof.
  unfold MaxTimeStepIsValid. intro H.
  apply orb_true_iff in H. destruct H as [H | H].
  - now rewrite (negative_not_ge_zero x H).
  - now rewrite (nan_not_ge_zero x H).
Qed.

(** Against C4 as the specification states it, at [+infinity]: the warning maximum takes it,
    and nothing is printed. *)
Lemma infinite_threshold_is_stored :
  isinf Double.infinity = true /\
  snd (setMaxTimeStepWarning pacer_1ms Double.infinity) = [] /\
  getMaxTimeStepWarning (fst (setMaxTimeStepWarning pacer_1ms Double.infinity))
    = Double.infinity /\
  getMaxTimeStepWarning (fst (setMaxTimeStepWarning pacer_1ms Double.infinity))
    <> getMaxTimeStepWarning pacer_1ms.
Proof. repeat split. vm_compute. discriminate. Qed.

(** C4, amended. [setTimeStep] rejects a negative, NaN or infinite value;
    [setMaxTimeStepWarning] and [setMaxTimeStepError] reject a negative or
    NaN value, which covers [-infinity], and store [+infinity].  A rejected
    value leaves the pacer as it was and prints one error; a setter always
    returns. *)
Theorem setters_keep_state_on_rejected_value (r : Rate) (x : double) :
  ((x < Double.zero)%D || isnan x || isinf x = true ->
   setTimeStep r x =
   (r, [Log Error (invalid_msg r "Cannot set the time step to an invalid value " x)]) /\
   getTimeStep (fst (setTimeStep r x)) = getTimeStep r) /\
  ((x < Double.zero)%D || isnan x = true ->
   setMaxTimeStepWarning r x =
   (r, [Log Error (invalid_msg r
          "Cannot set the max time step for warnings to invalid value " x)]) /\
   setMaxTimeStepError r x =
   (r, [Log Error (invalid_msg r
          "Cannot set the max time step for errors to invalid value " x)])) /\
  setMaxTimeStepWarning r Double.infinity =
    (with_maxTimeStepWarning r Double.infinity, []) /\
  setMaxTimeStepError r Double.infinity =
    (with_maxTimeStepError r Double.infinity, []).
Proof.
  split; [ | split; [ | split; reflexivity]].
  - intro H. unfold setTimeStep. rewrite (TimeStepIsValid_rejects x H). cbn. auto.
  - intro H. unfold setMaxTimeStepWarning, setMaxTimeStepError.
    rewrite (MaxTimeStepIsValid_rejects x H). cbn. auto.
Qed.

(** * Diagnostics *)

Lemma check_thresholds_logs (r : Rate) (awake : double) (sev : severity)
      (msg : list piece) :
  In (sev, msg) (logs (snd (check_thresholds r awake))) ->
  msg = too_long_msg r awake.
Proof.
  unfold check_thresholds.
  destruct (awake > maxTimeStepError_ r)%D, (awake > maxTimeStepWarning_ r)%D;
    cbn; intuition congruence.
Qed.

(** Against C9 as the specification states it, on the 1 ms pacer with an error maximum of
    10 ms after 12 ms of work: the error message shows the awake time and
    the time step, and the maximum that was exceeded is not in it. *)
Lemma error_message_omits_threshold :
  exists r' evs awake,
    sleep pacer_1ms (mkTimespec 100 12000000) (mkTimespec 100 12000500) = Some (r', evs) /\
    logs evs = [(Error, too_long_msg pacer_1ms awake)] /\
    (awake > maxTimeStepError_ pacer_1ms)%D = true /\
    numbers (too_long_msg pacer_1ms awake) = [awake; timeStep_ pacer_1ms] /\
    ~ In (maxTimeStepError_ pacer_1ms) (numbers (too_long_msg pacer_1ms awake)).
Proof.
  eexists. eexists. eexists.
  split; [vm_compute; reflexivity | ].
  split; [vm_compute; reflexivity | ].
  split; [vm_compute; reflexivity | ].
  split; [reflexivity | ].
  vm_compute. intros [H | [H | []]]; discriminate.
Qed.

(** C9, amended. Every warning and every error printed by [sleep] carries
    the name of the pacer and two numbers, the awake time of the cycle and
    the current time step; printing does not end the call, which returns
    the updated pacer. *)
Theorem sleep_diagnostic_content (r : Rate) (now1 now2 : timespec) :
  TimeStepIsValid (timeStep_ r) = true -> is_binary64 (timeStep_ r) ->
  (timeStep_ r < max_step)%D = true ->
  clock_reading (sleepEndTime_ r) -> clock_reading (stepTime_ r) ->
  clock_reading now1 -> clock_reading now2 ->
  exists r' evs awake,
    sleep r now1 now2 = Some (r', evs) /\
    awakeTime_ r' = awake /\
    forall sev msg,
      In (sev, msg) (logs evs) ->
      In (Text (name_ r)) msg /\
      numbers msg = [awake; timeStep_ r].
Proof.
  intros Hv Hb Hlt He Hst H1 H2.
  destruct (sleep_total r now1 now2 Hv Hb Hlt He Hst H1 H2)
    as (r' & evs & awake & step & Heq & _ & _ & _ & _ & _ & _ & _ & Hpost).
  exists r', evs, awake.
  pose proof (sleep_post_logs _ _ _ _ _ _ _ _ Hpost) as Hlogs.
  destruct Hpost as (_ & _ & _ & _ & _ & _ & _ & _ & _ & _ & Haw & _).
  repeat (split; [assumption | ]).
  intros sev msg Hin. rewrite Hlogs in Hin.
  rewrite (check_thresholds_logs _ _ _ _ Hin).
  split; [cbn; auto | reflexivity].
Qed.

Lemma sleep_diagnostic_content_witness :
  (TimeStepIsValid (timeStep_ pacer_1ms) = true /\
   is_binary64 (timeStep_ pacer_1ms) /\
   (timeStep_ pacer_1ms < max_step)%D = true /\
   clock_reading (sleepEndTime_ pacer_1ms) /\
   clock_reading (stepTime_ pacer_1ms) /\
   clock_reading (mkTimespec 100 2000000) /\
   clock_reading (mkTimespec 100 2000500)) /\
  exists r' evs,
    sleep pacer_1ms (mkTimespec 100 2000000) (mkTimespec 100 2000500) = Some (r', evs) /\
    forall sev msg,
      In (sev, msg) (logs evs) ->
      In (Text "loop") msg /\ numbers msg = [awakeTime_ r'; millisecond].
Proof.
  destruct pacer_1ms_ok as (Hv & Hb & Hlt & He & Hst).
  assert (H1 : clock_reading (mkTimespec 100 2000000))
    by (apply clock_reading_intro; reflexivity).
  assert (H2 : clock_reading (mkTimespec 100 2000500))
    by (apply clock_reading_intro; reflexivity).
  split; [repeat (split; [assumption | ]); assumption | ].
  destruct (sleep_diagnostic_content pacer_1ms _ _ Hv Hb Hlt He Hst H1 H2)
    as (r' & evs & awake & Heq & Haw & Hmsg).
  exists r', evs. split; [exact Heq | ].
  rewrite Haw. exact Hmsg.
Defined.

(** * Order of timestamps *)

Lemma ts_ltb_nanos (a b : timespec) :
  normalized a -> normalized b -> ts_ltb a b = true <-> nanos a < nanos b.
Proof.
  unfold normalized, nanos, ts_ltb, NSecPerSec_. intros Ha Hb.
  rewrite orb_true_iff, andb_true_iff, !Z.ltb_lt, Z.eqb_eq. split.
  - intros [H | [H1 H2]]; nia.
  - intro H.
    destruct (Z.lt_trichotomy (tv_sec a) (tv_sec b)) as [Hlt | [Heq | Hgt]];
      [left; assumption | right; split; [assumption | nia] | nia].
Qed.

Lemma ts_leb_nanos (a b : timespec) :
  normalized a -> normalized b -> ts_leb a b = true <-> nanos a <= nanos b.
Proof.
  intros Ha Hb. unfold ts_leb. rewrite negb_true_iff. split.
  - intro Hf. destruct (Z.le_gt_cases (nanos a) (nanos b)) as [ | Hgt]; [assumption | ].
    apply (ts_ltb_nanos b a Hb Ha) in Hgt. congruence.
  - intro Hle. destruct (ts_ltb b a) eqn:E; [ | reflexivity].
    apply (ts_ltb_nanos b a Hb Ha) in E. lia.
Qed.

Lemma ts_leb_refl (a : timespec) : ts_leb a a = true.
Proof.
  unfold ts_leb, ts_ltb. rewrite !Z.ltb_irrefl, Z.eqb_refl. reflexivity.
Qed.

Lemma ts_ltb_leb (a b : timespec) : ts_ltb a b = true -> ts_leb a b = true.
Proof.
  unfold ts_leb, ts_ltb. intro H. apply negb_true_iff.
  apply orb_true_iff in H. rewrite andb_true_iff, !Z.ltb_lt, Z.eqb_eq in H.
  apply orb_false_iff. rewrite andb_false_iff, !Z.ltb_ge, Z.eqb_neq.
  destruct H as [H | [H1 H2]]; split; lia.
Qed.

Lemma ts_leb_trans (a b c : timespec) :
  normalized a -> normalized b -> normalized c ->
  ts_leb a b = true -> ts_leb b c = true -> ts_leb a c = true.
Proof.
  intros Ha Hb Hc H1 H2.
  apply ts_leb_nanos in H1, H2; try assumption.
  apply ts_leb_nanos; try assumption. lia.
Qed.

(** * Zero time step *)

Lemma zero_step_valid (s : bool) :
  TimeStepIsValid (S754_zero s) = true /\ is_binary64 (S754_zero s) /\
  (S754_zero s < max_step)%D = true.
Proof. destruct s; repeat split. Qed.

Lemma incr_wrap (a : Z) : UInt.incr (UInt.wrap a) = UInt.wrap (a + 1).
Proof.
  unfold UInt.incr, UInt.wrap, UInt.modulus.
  rewrite Zplus_mod_idemp_l. reflexivity.
Qed.

Lemma welford_double_count (n : Z) (mean m2 awake : double) :
  fst (fst (welford_double n mean m2 awake)) = UInt.incr n.
Proof. reflexivity. Qed.

(** * Loops of calls *)

Lemma sleeps_cons (r : Rate) (now1 now2 : timespec)
      (rest : list (timespec * timespec)) (r1 : Rate) (evs : list event) :
  sleep r now1 now2 = Some (r1, evs) ->
  sleeps r ((now1, now2) :: rest) =
  match sleeps r1 rest with
  | Some (r', tr) => Some (r', evs :: tr)
  | None => None
  end.
Proof.
  intro H. cbn [sleeps]. rewrite H. cbn [bind fst snd].
  destruct (sleeps r1 rest) as [[r' tr] | ]; reflexivity.
Qed.

Lemma sleeps_cons_inv (r : Rate) (now1 now2 : timespec)
      (rest : list (timespec * timespec)) (r' : Rate) (tr : list (list event)) :
  sleeps r ((now1, now2) :: rest) = Some (r', tr) ->
  exists r1 evs tr',
    sleep r now1 now2 = Some (r1, evs) /\ sleeps r1 rest = Some (r', tr') /\
    tr = evs :: tr'.
Proof.
  cbn [sleeps]. destruct (sleep r now1 now2) as [[r1 evs] | ]; cbn [bind fst snd];
    [ | discriminate].
  destruct (sleeps r1 rest) as [[r2 tr'] | ] eqn:E; cbn [bind fst snd]; [ | discriminate].
  intros [= <- <-]. exists r1, evs, tr'. auto.
Qed.

Lemma sleeps_app (r : Rate) (c1 c2 : list (timespec * timespec))
      (r' : Rate) (tr : list (list event)) :
  sleeps r (c1 ++ c2) = Some (r', tr) ->
  exists r1 tr1 tr2,
    sleeps r c1 = Some (r1, tr1) /\ sleeps r1 c2 = Some (r', tr2) /\
    tr = tr1 ++ tr2.
Proof.
  revert r tr. induction c1 as [ | [a b] c1 IH]; intros r tr H.
  - exists r, [], tr. cbn in *. auto.
  - cbn [app] in H. apply sleeps_cons_inv in H.
    destruct H as (r1 & evs & tr' & Hs & Hrest & ->).
    destruct (IH _ _ Hrest) as (r2 & tr1 & tr2 & H1 & H2 & ->).
    exists r2, (evs :: tr1), tr2.
    rewrite (sleeps_cons _ _ _ _ _ _ Hs), H1. auto.
Qed.

Lemma sleep_count (r : Rate) (now1 now2 : timespec) (r' : Rate) (evs : list event) :
  sleep r now1 now2 = Some (r', evs) ->
  numTimeSteps_ r' = UInt.incr (numTimeSteps_ r).
Proof.
  intro H. apply sleep_inv in H. destruct H as (awake & step & d & _ & _ & _ & Hpost).
  destruct Hpost as (_ & _ & _ & _ & _ & _ & _ & _ & _ & Hw & _).
  rewrite <- (welford_double_count (numTimeSteps_ r) (awakeTimeMean_ r)
                (awakeTimeM2_ r) awake), <- Hw. reflexivity.
Qed.

(** The counter of cycles is the number of calls modulo [2^32]. *)
Lemma sleeps_count (clock : list (timespec * timespec)) (r r' : Rate)
      (tr : list (list event)) (n : Z) :
  numTimeSteps_ r = UInt.wrap n ->
  sleeps r clock = Some (r', tr) ->
  numTimeSteps_ r' = UInt.wrap (n + Z.of_nat (length clock)).
Proof.
  revert r tr n. induction clock as [ | [a b] clock IH]; intros r tr n Hn H.
  - cbn in H. injection H as <- <-. cbn [length]. now rewrite Z.add_0_r.
  - apply sleeps_cons_inv in H. destruct H as (r1 & evs & tr' & Hs & Hrest & ->).
    apply sleep_count in Hs. rewrite Hn, incr_wrap in Hs.
    rewrite (IH _ _ _ Hs Hrest). f_equal. cbn [length]. lia.
Qed.

(** From [reset] on, a loop with a zero time step on a clock that never
    runs backwards is defined at every call, counts every call, and never
    waits for an instant the clock has not reached. *)
Lemma zero_step_loop (clock : list (timespec * timespec)) (r : Rate)
      (t : timespec) (s : bool) :
  timeStep_ r = S754_zero s ->
  clock_reading (sleepEndTime_ r) -> clock_reading (stepTime_ r) ->
  clock_reading t -> ts_leb (stepTime_ r) t = true ->
  Forall (fun p => clock_reading (fst p) /\ clock_reading (snd p)) clock ->
  monotone_from t clock ->
  exists r' tr,
    sleeps r clock = Some (r', tr) /\
    Forall2 (fun p evs => forall c w, In (c, w) (nanosleeps evs) ->
                                      ts_leb w (snd p) = true) clock tr.
Proof.
  revert r t. induction clock as [ | [a b] clock IH]; intros r t Hts He Hst Ht Hle Hall Hmono.
  - exists r, []. split; [reflexivity | constructor].
  - inversion Hall as [ | ? ? [Ha Hb] Hall']; subst. cbn [fst snd] in *.
    destruct Hmono as (Hta & Hab & Hmono).
    assert (Hleb : ts_leb (stepTime_ r) b = true).
    { apply ts_leb_trans with t; [apply Hst | apply Ht | apply Hb | assumption | ].
      apply ts_leb_trans with a; [apply Ht | apply Ha | apply Hb | assumption | assumption]. }
    destruct (sleep_total r a b) as (r1 & evs & awake & step & Heq & _ & _ & _ & Hadv & _ & _ & _ & Hpost);
      try assumption; try (rewrite Hts; apply zero_step_valid).
    assert (Hstep : step = stepTime_ r).
    { rewrite Hts, advance_zero in Hadv.
      - now injection Hadv.
      - apply Hst.
      - destruct Hst as [_ Hs]. apply in_range_bounds.
        change (2 ^ 61) with 2305843009213693952 in Hs.
        change (2 ^ 63) with 9223372036854775808. lia. }
    subst step.
    pose proof (sleep_post_nanosleeps _ _ _ _ _ _ _ _ Hpost) as Hns.
    destruct Hpost as (_ & Hts' & _ & _ & _ & _ & _ & Hend & Hstep & _).
    assert (Hinv : clock_reading (sleepEndTime_ r1) /\ clock_reading (stepTime_ r1) /\
                   ts_leb (stepTime_ r1) b = true).
    { rewrite Hend, Hstep.
      destruct (ts_ltb (stepTime_ r) b); cbn [andb];
        [destruct (negb (enforceRate_ r)) | ]; repeat split;
        try apply Hb; try apply Hst; try assumption; apply ts_leb_refl. }
    destruct Hinv as (He1 & Hst1 & Hle1).
    destruct (IH r1 b ltac:(congruence) He1 Hst1 Hb Hle1 Hall' Hmono) as (r' & tr & Hrun & Hf2).
    exists r', (evs :: tr). split.
    + rewrite (sleeps_cons _ _ _ _ _ _ Heq), Hrun. reflexivity.
    + constructor; [ | assumption]. cbn [snd].
      intros c w Hin. rewrite Hns in Hin.
      destruct (ts_ltb (stepTime_ r) b); cbn in Hin; [contradiction | ].
      destruct Hin as [[= <- <-] | []]. assumption.
Qed.

(** The state that a loop with a zero time step reaches from a state
    whose target is not ahead of the clock: the target is still not
    ahead of the clock when the next call samples it. *)
Lemma zero_step_reach (clock : list (timespec * timespec)) (r : Rate)
      (t : timespec) (s : bool) (a b : timespec) :
  timeStep_ r = S754_zero s ->
  clock_reading (sleepEndTime_ r) -> clock_reading (stepTime_ r) ->
  clock_reading t -> ts_leb (stepTime_ r) t = true ->
  Forall (fun p => clock_reading (fst p) /\ clock_reading (snd p)) (clock ++ [(a, b)]) ->
  monotone_from t (clock ++ [(a, b)]) ->
  exists r' tr,
    sleeps r clock = Some (r', tr) /\
    timeStep_ r' = S754_zero s /\
    clock_reading (sleepEndTime_ r') /\ clock_reading (stepTime_ r') /\
    clock_reading a /\ clock_reading b /\
    ts_leb (stepTime_ r') b = true.
Proof.
  revert r t. induction clock as [ | [c d] clock IH]; intros r t Hts He Hst Ht Hle Hall Hmono.
  - cbn [app] in Hall, Hmono.
    inversion Hall as [ | ? ? [Ha Hb] _]; subst. cbn [fst snd] in *.
    destruct Hmono as (Hta & Hab & _).
    exists r, []. split; [reflexivity | ].
    repeat (split; [assumption | ]).
    apply ts_leb_trans with t; [apply Hst | apply Ht | apply Hb | assumption | ].
    apply ts_leb_trans with a; [apply Ht | apply Ha | apply Hb | assumption | assumption].
  - cbn [app] in Hall, Hmono.
    inversion Hall as [ | ? ? [Hc Hd] Hall']; subst. cbn [fst snd] in *.
    destruct Hmono as (Htc & Hcd & Hmono).
    assert (Hled : ts_leb (stepTime_ r) d = true).
    { apply ts_leb_trans with t; [apply Hst | apply Ht | apply Hd | assumption | ].
      apply ts_leb_trans with c; [apply Ht | apply Hc | apply Hd | assumption | assumption]. }
    destruct (sleep_total r c d)
      as (r1 & evs & awake & step & Heq & _ & _ & _ & Hadv & _ & _ & _ & Hpost);
      try assumption; try (rewrite Hts; apply zero_step_valid).
    assert (Hstep : step = stepTime_ r).
    { rewrite Hts, advance_zero in Hadv.
      - now injection Hadv.
      - apply Hst.
      - destruct Hst as [_ Hs]. apply in_range_bounds.
        change (2 ^ 61) with 2305843009213693952 in Hs.
        change (2 ^ 63) with 9223372036854775808. lia. }
    subst step.
    destruct Hpost as (_ & Hts' & _ & _ & _ & _ & _ & Hend & Hstep & _).
    assert (Hinv : clock_reading (sleepEndTime_ r1) /\ clock_reading (stepTime_ r1) /\
                   ts_leb (stepTime_ r1) d = true).
    { rewrite Hend, Hstep.
      destruct (ts_ltb (stepTime_ r) d); cbn [andb];
        [destruct (negb (enforceRate_ r)) | ]; repeat split;
        try apply Hd; try apply Hst; try assumption; apply ts_leb_refl. }
    destruct Hinv as (He1 & Hst1 & Hle1).
    destruct (IH r1 d ltac:(congruence) He1 Hst1 Hd Hle1 Hall' Hmono)
      as (r' & tr & Hrun & Hrest).
    exists r', (evs :: tr). split; [ | assumption].
    rewrite (sleeps_cons _ _ _ _ _ _ Heq), Hrun. reflexivity.
Qed.

(** The update of the statistics, as one call leaves it. *)
Lemma sleep_post_statistics (r : Rate) (now1 now2 : timespec) (awake : double)
      (step : timespec) (behind : bool) (r' : Rate) (evs : list event) :
  sleep_post r now1 now2 awake step behind r' evs ->
  awakeTime_ r' = awake /\
  numTimeSteps_ r' = UInt.incr (numTimeSteps_ r) /\
  awakeTimeMean_ r' =
    (awakeTimeMean_ r
     + (awake - awakeTimeMean_ r) / Double.of_Z (numTimeSteps_ r'))%D /\
  awakeTimeM2_ r' =
    (awakeTimeM2_ r
     + (awake - awakeTimeMean_ r) * (awake - awakeTimeMean_ r'))%D.
Proof.
  intros (_ & _ & _ & _ & _ & _ & _ & _ & _ & Hw & Haw & _).
  unfold welford_double, welford in Hw. injection Hw as Hn Hmean Hm2.
  rewrite Hm2, Hmean, Hn. repeat split. assumption.
Qed.

(** C8. With a time step of zero, in every state that a loop of calls
    reaches from [reset] on a clock that does not run backwards, the next
    call of [sleep] still measures the awake time and runs the update of
    the running statistics (the counter advances by one; the mean and M2
    are recomputed from the new sample by the single-pass update, in
    binary64), still compares the awake time with the error maximum and
    then with the warning maximum, counting and printing as for any other
    time step, and it does not block: afterwards the target is not ahead
    of the clock sample [now2], and a wait that the call asks for has a
    target that [now2] has already reached. *)
Theorem sleep_with_zero_time_step (r0 : Rate) (now : timespec) (s : bool)
        (clock : list (timespec * timespec)) (now1 now2 : timespec) :
  timeStep_ r0 = S754_zero s ->
  clock_reading now ->
  Forall (fun p => clock_reading (fst p) /\ clock_reading (snd p))
         (clock ++ [(now1, now2)]) ->
  monotone_from now (clock ++ [(now1, now2)]) ->
  exists r tr r' evs awake,
    sleeps (reset r0 now) clock = Some (r, tr) /\
    sleep r now1 now2 = Some (r', evs) /\
    GetDuration (sleepEndTime_ r) now1 = Some awake /\
    awakeTime_ r' = awake /\
    numTimeSteps_ r' = UInt.incr (numTimeSteps_ r) /\
    awakeTimeMean_ r' =
      (awakeTimeMean_ r
       + (awake - awakeTimeMean_ r) / Double.of_Z (numTimeSteps_ r'))%D /\
    awakeTimeM2_ r' =
      (awakeTimeM2_ r
       + (awake - awakeTimeMean_ r) * (awake - awakeTimeMean_ r'))%D /\
    ((awake > maxTimeStepError_ r)%D = true ->
     numErrors_ r' = UInt.incr (numErrors_ r) /\
     numWarnings_ r' = numWarnings_ r /\
     logs evs = [(Error, too_long_msg r awake)]) /\
    ((awake > maxTimeStepError_ r)%D = false ->
     (awake > maxTimeStepWarning_ r)%D = true ->
     numWarnings_ r' = UInt.incr (numWarnings_ r) /\
     numErrors_ r' = numErrors_ r /\
     logs evs = [(Warn, too_long_msg r awake)]) /\
    ((awake > maxTimeStepError_ r)%D = false ->
     (awake > maxTimeStepWarning_ r)%D = false ->
     numWarnings_ r' = numWarnings_ r /\
     numErrors_ r' = numErrors_ r /\
     logs evs = []) /\
    ts_leb (stepTime_ r') now2 = true /\
    (forall c t, In (c, t) (nanosleeps evs) -> ts_leb t now2 = true).
Proof.
  intros Hts Hnow Hall Hmono.
  destruct (zero_step_reach clock (reset r0 now) now s now1 now2 Hts Hnow Hnow Hnow
              (ts_leb_refl now) Hall Hmono)
    as (r & tr & Hrun & Hts' & He & Hst & H1 & H2 & Hle).
  destruct (zero_step_valid s) as (Hv & Hb & Hlt). rewrite <- Hts' in Hv, Hb, Hlt.
  destruct (sleep_total r now1 now2 Hv Hb Hlt He Hst H1 H2)
    as (r' & evs & awake & step & Heq & Ha & _ & _ & Hadv & _ & _ & _ & Hpost).
  assert (Hstep : step = stepTime_ r).
  { rewrite Hts', advance_zero in Hadv.
    - now injection Hadv.
    - apply Hst.
    - destruct Hst as [_ Hs]. apply in_range_bounds.
      change (2 ^ 61) with 2305843009213693952 in Hs.
      change (2 ^ 63) with 9223372036854775808. lia. }
  subst step.
  exists r, tr, r', evs, awake.
  pose proof (sleep_post_logs _ _ _ _ _ _ _ _ Hpost) as Hlogs.
  pose proof (sleep_post_nanosleeps _ _ _ _ _ _ _ _ Hpost) as Hns.
  destruct (sleep_post_statistics _ _ _ _ _ _ _ _ Hpost) as (Haw & Hn & Hmean & Hm2).
  destruct Hpost as (_ & _ & _ & _ & _ & _ & _ & Hend & Hstp & _ & _ & Hcnt & _).
  destruct (check_thresholds_cases r awake) as (Hc1 & Hc2 & Hc3).
  repeat (split; [assumption | ]).
  split; [ | split; [ | split; [ | split]]].
  - intro C1. rewrite (Hc1 C1) in Hcnt, Hlogs. cbn in Hcnt, Hlogs.
    injection Hcnt as -> ->. auto.
  - intros C1 C2. rewrite (Hc2 C1 C2) in Hcnt, Hlogs. cbn in Hcnt, Hlogs.
    injection Hcnt as -> ->. auto.
  - intros C1 C2. rewrite (Hc3 C1 C2) in Hcnt, Hlogs. cbn in Hcnt, Hlogs.
    injection Hcnt as -> ->. auto.
  - rewrite Hstp.
    destruct (ts_ltb (stepTime_ r) now2); cbn [andb]; [ | assumption].
    destruct (negb (enforceRate_ r)); [apply ts_leb_refl | assumption].
  - intros c t Hin. rewrite Hns in Hin.
    destruct (ts_ltb (stepTime_ r) now2); cbn in Hin; [contradiction | ].
    destruct Hin as [[= <- <-] | []]. assumption.
Qed.

(** The probe after two cycles, 0.2 ms and then 12.8 ms of work; the next
    call comes after 5 ms: it counts the third sample, prints a warning,
    leaves the target where [reset] put it, and asks for no wait. *)
Lemma sleep_with_zero_time_step_witness :
  (timeStep_ pacer_probe = S754_zero false /\
   clock_reading (mkTimespec 100 0) /\
   Forall (fun p => clock_reading (fst p) /\ clock_reading (snd p))
          (firstn 2 clock_busy ++ [(mkTimespec 100 18000200, mkTimespec 100 18000300)]) /\
   monotone_from (mkTimespec 100 0)
     (firstn 2 clock_busy ++ [(mkTimespec 100 18000200, mkTimespec 100 18000300)])) /\
  exists r tr r' evs,
    sleeps pacer_probe (firstn 2 clock_busy) = Some (r, tr) /\
    sleep r (mkTimespec 100 18000200) (mkTimespec 100 18000300) = Some (r', evs) /\
    numTimeSteps_ r' = 3 /\
    awakeTime_ r' = S754_finite false 5764722815184696 (-60) /\
    awakeTimeMean_ r' = S754_finite false 6917529027641082 (-60) /\
    awakeTimeM2_ r' = S754_finite false 5967775536519235 (-66) /\
    numWarnings_ r' = 1 /\ numErrors_ r' = 1 /\
    map fst (logs evs) = [Warn] /\
    nanosleeps evs = [] /\
    stepTime_ r' = mkTimespec 100 0.
Proof.
  assert (Hts : timeStep_ pacer_probe = S754_zero false) by reflexivity.
  assert (Hnow : clock_reading (mkTimespec 100 0))
    by (apply clock_reading_intro; reflexivity).
  assert (Hall : Forall (fun p => clock_reading (fst p) /\ clock_reading (snd p))
            (firstn 2 clock_busy ++ [(mkTimespec 100 18000200, mkTimespec 100 18000300)])).
  { repeat constructor; apply clock_reading_intro; reflexivity. }
  assert (Hmono : monotone_from (mkTimespec 100 0)
            (firstn 2 clock_busy ++ [(mkTimespec 100 18000200, mkTimespec 100 18000300)])).
  { cbn. repeat split. }
  split; [repeat (split; [assumption | ]); assumption | ].
  destruct (sleep_with_zero_time_step
              (mkRate "loop" Double.zero millisecond (Double.of_Z 10 * millisecond)%D
                      true 1 (mkTimespec 0 0) (mkTimespec 0 0) (mkTimespec 0 0)
                      0 0 0 Double.zero Double.zero Double.zero)
              (mkTimespec 100 0) false (firstn 2 clock_busy)
              (mkTimespec 100 18000200) (mkTimespec 100 18000300)
              Hts Hnow Hall Hmono)
    as (r & tr & r' & evs & awake & Hrun & Heq & _).
  exists r, tr, r', evs.
  split; [exact Hrun | ]. split; [exact Heq | ].
  vm_compute in Hrun. injection Hrun as <- <-.
  vm_compute in Heq. injection Heq as <- <-.
  repeat split.
Defined.

(** * The statistics of a loop *)

(** The statistics members after a loop are those that the update of
    [sleep], fed with the awake times of the calls, makes of the members
    before the loop. *)
Lemma sleeps_feed_statistics (clock : list (timespec * timespec)) (r r' : Rate)
      (tr : list (list event)) :
  sleeps r clock = Some (r', tr) ->
  (numTimeSteps_ r', awakeTimeMean_ r', awakeTimeM2_ r') =
  fold_left (fun '(n, mean, m2) x => welford_double n mean m2 x)
            (awake_times r clock)
            (numTimeSteps_ r, awakeTimeMean_ r, awakeTimeM2_ r).
Proof.
  revert r tr. induction clock as [ | [a b] clock IH]; intros r tr H.
  - cbn in H. injection H as <- <-. reflexivity.
  - apply sleeps_cons_inv in H. destruct H as (r1 & evs & tr' & Hs & Hrest & ->).
    cbn [awake_times]. rewrite Hs. cbn [fold_left].
    apply sleep_inv in Hs. destruct Hs as (awake & step & d & _ & _ & _ & Hpost).
    destruct Hpost as (_ & _ & _ & _ & _ & _ & _ & _ & _ & Hw & Haw & _).
    rewrite Haw, <- Hw. apply (IH _ _ Hrest).
Qed.

(** Three cycles of the 1 ms loop, with 0.2 ms, 12 ms and 5 ms of work:
    the mean and the variance that the accessors return are within the
    tolerances of the mean and the variance of the three awake times. *)
Lemma welford_double_matches_direct_witness :
  ((2 ^ (-500) <= 1 <= 2 ^ 480)%Q /\
   Forall (sample_within 1) (awake_times pacer_1ms clock_busy) /\
   Z.of_nat (length (awake_times pacer_1ms clock_busy)) < 2 ^ 32) /\
  exists r tr,
    sleeps pacer_1ms clock_busy = Some (r, tr) /\
    getNumTimeSteps r = 3 /\
    within (mean_tolerance 3 1) (to_Q (getAwakeTimeMean r))
           (mean_direct (map to_Q (awake_times pacer_1ms clock_busy))) /\
    within (var_tolerance 3 1) (to_Q (getAwakeTimeVar r))
           (var_direct (map to_Q (awake_times pacer_1ms clock_busy))).
Proof.
  assert (HB : (2 ^ (-500) <= 1 <= 2 ^ 480)%Q).
  { change 1%Q with (2 ^ 0)%Q. split; apply Qpow2_le; lia. }
  assert (Hall : Forall (sample_within 1) (awake_times pacer_1ms clock_busy)).
  { assert (E : awake_times pacer_1ms clock_busy =
                [S754_finite false 7378697629483821 (-65);
                 S754_finite false 6917529027641082 (-59);
                 S754_finite false 5764722815184696 (-60)])
      by (vm_compute; reflexivity).
    rewrite E.
    repeat constructor; try (vm_compute; reflexivity);
      unfold Qle; vm_compute; discriminate. }
  assert (Hlen : Z.of_nat (length (awake_times pacer_1ms clock_busy)) < 2 ^ 32)
    by (vm_compute; reflexivity).
  split; [repeat (split; [assumption | ]); assumption | ].
  pose proof (welford_double_matches_direct 1 _ HB Hall Hlen) as H.
  destruct (sleeps pacer_1ms clock_busy) as [[r tr] | ] eqn:E;
    [ | vm_compute in E; discriminate].
  pose proof (sleeps_feed_statistics _ _ _ _ E) as Hfeed.
  change (fold_left _ _ _) with (stats_double (awake_times pacer_1ms clock_busy))
    in Hfeed.
  destruct (stats_double (awake_times pacer_1ms clock_busy)) as [[n mean] m2].
  destruct H as (Hn & _ & _ & Hwm & Hvar).
  injection Hfeed as H1 H2 H3.
  assert (Hn3 : n = 3) by (rewrite Hn; vm_compute; reflexivity).
  subst n. exists r, tr. split; [reflexivity | ].
  unfold getNumTimeSteps, getAwakeTimeMean, getAwakeTimeVar.
  rewrite H1, H2, H3. cbn [Z.eqb Z.leb Z.compare Pos.compare Pos.compare_cont].
  split; [reflexivity | ]. split; [exact Hwm | ].
  apply Hvar. lia.
Defined.

(** * The target and the time step *)

Lemma GetDuration_in_range (s e : timespec) (d : double) :
  GetDuration s e = Some d -> Long.in_range (tv_sec e - tv_sec s) = true.
Proof.
  unfold GetDuration, Long.sub, Long.checked.
  destruct (Long.in_range (tv_sec e - tv_sec s)); [reflexivity | discriminate].
Qed.

(** Whenever a call is defined, it leaves the target normalized. *)
Lemma sleep_keeps_target_normalized (r : Rate) (now1 now2 : timespec)
      (r' : Rate) (evs : list event) :
  TimeStepIsValid (timeStep_ r) = true ->
  normalized (stepTime_ r) -> normalized now2 ->
  sleep r now1 now2 = Some (r', evs) ->
  normalized (stepTime_ r').
Proof.
  intros Hv Hst H2 H. apply sleep_inv in H.
  destruct H as (awake & step & d & _ & Hadv & _ & Hpost).
  destruct Hpost as (_ & _ & _ & _ & _ & _ & _ & _ & -> & _).
  pose proof (advance_normalized _ _ _ Hv (proj1 Hst) Hadv).
  destruct (_ && _); assumption.
Qed.

Lemma reset_target (r : Rate) (now : timespec) :
  stepTime_ (reset r now) = now /\ sleepEndTime_ (reset r now) = now /\
  sleepStartTime_ (reset r now) = now.
Proof. repeat split. Qed.

(** Whenever a call is defined, it does not move the target backwards. *)
Lemma sleep_never_rewinds_target (r : Rate) (now1 now2 : timespec)
      (r' : Rate) (evs : list event) :
  TimeStepIsValid (timeStep_ r) = true -> is_binary64 (timeStep_ r) ->
  normalized (stepTime_ r) -> normalized now2 ->
  sleep r now1 now2 = Some (r', evs) ->
  nanos (stepTime_ r) <= nanos (stepTime_ r').
Proof.
  intros Hv Hb Hst H2 H. apply sleep_inv in H.
  destruct H as (awake & step & d & _ & Hadv & Hd & Hpost).
  destruct Hpost as (_ & _ & _ & _ & _ & _ & _ & _ & -> & _).
  pose proof (advance_normalized _ _ _ Hv (proj1 Hst) Hadv) as Hsn.
  pose proof (advance_monotone _ _ _ Hv Hb Hst Hadv) as Hmono.
  destruct (GetDuration_sign now2 step H2 Hsn (GetDuration_in_range _ _ _ Hd))
    as (d' & Hd' & _ & Hneg).
  rewrite Hd in Hd'. injection Hd' as <-.
  rewrite ltb_zero, Hneg.
  destruct (ts_ltb step now2) eqn:Hlt; cbn [andb]; [ | assumption].
  destruct (negb (enforceRate_ r)); [ | assumption].
  apply ts_ltb_nanos in Hlt; try assumption. lia.
Qed.

(** C10, at the failing input. The time step [1e10] seconds passes
    [TimeStepIsValid]; scaled to nanoseconds it is [1e19], more than any
    [long] holds, so the conversion back to [tv_nsec] has no defined
    result and neither has the call: nothing is promised about the
    stored target. *)
Theorem sleep_undefined_for_huge_time_step :
  TimeStepIsValid (timeStep_ (pacer_huge true)) = true /\
  is_binary64 (timeStep_ (pacer_huge true)) /\
  normalized (stepTime_ (pacer_huge true)) /\
  Double.to_long (Double.of_Z (tv_nsec (stepTime_ (pacer_huge true)))
                  + timeStep_ (pacer_huge true) * Double.of_Z NSecPerSec_)%D = None /\
  sleep (pacer_huge true) (mkTimespec 100 1000) (mkTimespec 100 2000) = None.
Proof.
  repeat split; try (vm_compute; reflexivity); vm_compute; congruence.
Qed.

(** The advance of the target is the conversion followed by the carry. *)
Lemma advance_carry (ts : double) (t : timespec) :
  advance ts t =
  (nsec <- Double.to_long (Double.of_Z (tv_nsec t) + ts * Double.of_Z NSecPerSec_)%D ;;
   carry t nsec).
Proof. reflexivity. Qed.

(** C7, at the failing input: the pacer that enforces its rate, with the
    valid time step [1e10] seconds, reset at 100 s. The sum handed to the
    conversion to [long] is [1e19], beyond [Long.MAX], so the advance of
    the target has no defined result, and no call of [sleep] has one,
    whatever the clock shows: nothing keeps the target from moving
    backwards. With [Long.MIN], the value that the conversion instruction
    of x86-64 delivers for an operand out of range, the carry stores the
    target [{-9223371936, -854775808}], some 292 years before the target
    [{100, 0}] that [reset] stored; the comparison with the clock finds
    the call behind, and with the rate enforced the target stays there. *)
Theorem enforced_target_rewound_for_huge_time_step :
  pacer_huge true = reset (pacer_huge true) (mkTimespec 100 0) /\
  TimeStepIsValid (timeStep_ (pacer_huge true)) = true /\
  is_binary64 (timeStep_ (pacer_huge true)) /\
  enforceRate_ (pacer_huge true) = true /\
  stepTime_ (pacer_huge true) = mkTimespec 100 0 /\
  (Double.of_Z (tv_nsec (stepTime_ (pacer_huge true)))
   + timeStep_ (pacer_huge true) * Double.of_Z NSecPerSec_)%D
    = Double.of_Z (10 ^ 19) /\
  Long.MAX < 10 ^ 19 /\
  advance (timeStep_ (pacer_huge true)) (stepTime_ (pacer_huge true)) = None /\
  (forall now1 now2 : timespec, sleep (pacer_huge true) now1 now2 = None) /\
  carry (stepTime_ (pacer_huge true)) Long.MIN
    = Some (mkTimespec (-9223371936) (-854775808)) /\
  ts_ltb (mkTimespec (-9223371936) (-854775808)) (stepTime_ (pacer_huge true)) = true /\
  exists behind,
    GetDuration (mkTimespec 100 2000) (mkTimespec (-9223371936) (-854775808))
      = Some behind /\
    (behind < Double.zero)%D = true.
Proof.
  assert (Hadv : advance (timeStep_ (pacer_huge true)) (stepTime_ (pacer_huge true))
                 = None) by (vm_compute; reflexivity).
  do 7 (split; [vm_compute; reflexivity | ]).
  split; [exact Hadv | ].
  split.
  - intros now1 now2. unfold sleep.
    destruct (GetDuration (sleepEndTime_ (pacer_huge true)) now1) as [awake | ];
      [ | reflexivity].
    cbn [bind].
    destruct (welford_double _ _ _ awake) as [[count mean] m2].
    destruct (check_thresholds (pacer_huge true) awake) as [[warnings errors] lg].
    rewrite Hadv. reflexivity.
  - do 2 (split; [vm_compute; reflexivity | ]).
    eexists. split; vm_compute; reflexivity.
Qed.

(** ** Whole numbers of nanoseconds *)

Lemma add_nanos_normalized (t : timespec) (k : Z) :
  0 <= tv_nsec t + k -> normalized (add_nanos t k).
Proof. intro H. unfold normalized, add_nanos. cbn [tv_nsec]. now apply rem_normalized. Qed.

Lemma add_nanos_nanos (t : timespec) (k : Z) :
  nanos (add_nanos t k) = nanos t + k.
Proof.
  unfold nanos, add_nanos. cbn [tv_sec tv_nsec].
  pose proof (Z.quot_rem' (tv_nsec t + k) NSecPerSec_). lia.
Qed.

Lemma normalized_nanos_eq (a b : timespec) :
  normalized a -> normalized b -> nanos a = nanos b -> a = b.
Proof.
  unfold normalized, nanos, NSecPerSec_. intros Ha Hb H.
  destruct a as [sa na], b as [sb nb]. cbn [tv_sec tv_nsec] in *.
  assert (sa = sb) by nia. subst. f_equal. lia.
Qed.

Lemma add_nanos_add (t : timespec) (k j : Z) :
  normalized t -> 0 <= k -> 0 <= j ->
  add_nanos (add_nanos t k) j = add_nanos t (k + j).
Proof.
  intros Ht Hk Hj. unfold normalized in Ht.
  pose proof (add_nanos_normalized t k ltac:(lia)) as Hn.
  apply normalized_nanos_eq.
  - apply add_nanos_normalized. unfold normalized in Hn. lia.
  - apply add_nanos_normalized. lia.
  - rewrite !add_nanos_nanos. lia.
Qed.

Lemma advance_exact (ts : double) (t : timespec) (k : Z) :
  (ts * Double.of_Z NSecPerSec_)%D = Double.of_Z k ->
  0 <= k -> k + NSecPerSec_ <= 2 ^ 53 ->
  normalized t -> - 2 ^ 62 <= tv_sec t < 2 ^ 62 ->
  advance ts t = Some (add_nanos t k).
Proof.
  intros Hts Hk Hk53 Hn Hsec. unfold normalized in Hn. unfold NSecPerSec_ in Hn, Hk53.
  unfold advance. rewrite Hts, add_of_Z by lia. cbn [bind].
  unfold Long.add. rewrite checked_some; [reflexivity | ].
  apply in_range_bounds.
  assert (0 <= Z.quot (tv_nsec t + k) NSecPerSec_ <= 2 ^ 53).
  { unfold NSecPerSec_. split; [apply Z.quot_pos; lia | ].
    rewrite Z.quot_div_nonneg by lia. apply Z.div_le_upper_bound; lia. }
  change (2 ^ 53) with 9007199254740992 in *.
  change (2 ^ 62) with 4611686018427387904 in *.
  change (2 ^ 63) with 9223372036854775808. lia.
Qed.

(** Against C1 as the specification states it, for a 30 Hz loop: the time step is valid, no
    work is done between the calls, and after thirty calls the stored
    target is 100.999999990 s, ten nanoseconds short of the ideal
    [100 s + 30 * timeStep]: each call drops the third of a nanosecond
    that [33333333.33 ns] has beyond a whole number. *)
Lemma thirty_hertz_target_drifts :
  TimeStepIsValid (timeStep_ pacer_30hz) = true /\
  monotone_from (mkTimespec 100 0) clock_30hz /\
  exists r' tr,
    sleeps pacer_30hz clock_30hz = Some (r', tr) /\
    map nanosleeps tr = map (fun i => [(1, mkTimespec 100 (Z.of_nat i * 33333333))])
                            (seq 1 30) /\
    stepTime_ r' = mkTimespec 100 999999990 /\
    (drift r' (mkTimespec 100 0) 30 < - (9 # 1))%Q.
Proof.
  split; [vm_compute; reflexivity | ].
  split; [vm_compute; intuition congruence | ].
  eexists. eexists.
  split; [vm_compute; reflexivity | ].
  split; [vm_compute; reflexivity | ].
  split; vm_compute; reflexivity.
Qed.

Lemma whole_steps_loop (clock : list (timespec * timespec)) (r : Rate) (k : Z) :
  (timeStep_ r * Double.of_Z NSecPerSec_)%D = Double.of_Z k ->
  0 <= k -> k + NSecPerSec_ <= 2 ^ 53 ->
  clock_reading (sleepEndTime_ r) -> clock_reading (stepTime_ r) ->
  Forall (fun p => clock_reading (fst p) /\ clock_reading (snd p)) clock ->
  nanos (stepTime_ r) + Z.of_nat (length clock) * k < 2 ^ 61 * NSecPerSec_ ->
  enforceRate_ r = true \/ on_schedule (stepTime_ r) k clock ->
  exists r' tr,
    sleeps r clock = Some (r', tr) /\
    stepTime_ r' = add_nanos (stepTime_ r) (Z.of_nat (length clock) * k).
Proof.
  revert r. induction clock as [ | [a b] clock IH]; intros r Hts Hk Hk53 He Hst Hall Hbound Hpol.
  - exists r, []. split; [reflexivity | ].
    cbn [length Z.of_nat]. rewrite Z.mul_0_l.
    apply normalized_nanos_eq; [apply Hst | | now rewrite add_nanos_nanos, Z.add_0_r].
    apply add_nanos_normalized. destruct Hst as [Hn _]. unfold normalized in Hn. lia.
  - inversion Hall as [ | ? ? [Ha Hb] Hall']; subst. cbn [fst snd] in *.
    cbn [length] in Hbound. rewrite Nat2Z.inj_succ in Hbound.
    set (t := stepTime_ r) in *.
    assert (Hsec : - 2 ^ 62 <= tv_sec t < 2 ^ 62).
    { destruct Hst as [_ Hs]. change (2 ^ 61) with 2305843009213693952 in Hs.
      change (2 ^ 62) with 4611686018427387904. lia. }
    pose proof (advance_exact _ t k Hts Hk Hk53 (proj1 Hst) Hsec) as Hadv.
    assert (Hstep : clock_reading (add_nanos t k)).
    { destruct Hst as [Hn Hs]. split.
      - apply add_nanos_normalized. unfold normalized in Hn. lia.
      - pose proof (add_nanos_nanos t k) as Hnn.
        pose proof (add_nanos_normalized t k ltac:(unfold normalized in Hn; lia)) as Hn'.
        assert (0 <= Z.of_nat (length clock) * k) by nia.
        unfold nanos, normalized, NSecPerSec_ in *.
        cbn [add_nanos tv_sec] in *.
        assert (0 <= Z.quot (tv_nsec t + k) 1000000000) by (apply Z.quot_pos; lia).
        change (2 ^ 61) with 2305843009213693952 in *. nia. }
    destruct (GetDuration_readings _ _ He Ha) as (awake & Haw & _ & _).
    destruct (GetDuration_readings _ _ Hb Hstep) as (d & Hd & _ & Hneg).
    destruct (sleep_intro r a b awake d _ Haw Hadv Hd) as (r1 & evs & Heq & Hpost).
    rewrite ltb_zero, Hneg in Hpost.
    destruct Hpost as (_ & Hts1 & _ & _ & Henf1 & _ & _ & Hend & Hstep1 & _).
    assert (Hst1 : stepTime_ r1 = add_nanos t k).
    { rewrite Hstep1. destruct Hpol as [-> | [-> _]]; [ | reflexivity].
      now rewrite andb_false_r. }
    assert (He1 : clock_reading (sleepEndTime_ r1)).
    { rewrite Hend. destruct (ts_ltb _ _); assumption. }
    destruct (IH r1) as (r' & tr & Hrun & Hfin).
    + congruence.
    + assumption.
    + assumption.
    + assumption.
    + rewrite Hst1. assumption.
    + assumption.
    + rewrite Hst1, add_nanos_nanos. lia.
    + rewrite Henf1, Hst1. destruct Hpol as [ | [_ H]]; auto.
    + exists r', (evs :: tr). split.
      * rewrite (sleeps_cons _ _ _ _ _ _ Heq), Hrun. reflexivity.
      * rewrite Hfin, Hst1.
        rewrite add_nanos_add; [ | apply Hst | lia | nia].
        f_equal. cbn [length]. lia.
Qed.

(** C1, amended. For a time step that is a whole number [k] of
    nanoseconds, that is, whose product with [10^9] is exactly [k] in
    [double] arithmetic, with [k + 10^9 <= 2^53]: after [reset] and [N]
    consecutive calls that are never behind schedule (or with the rate
    enforced), the stored target is the reset-time clock value plus
    [N * k] nanoseconds, exactly. *)
Theorem target_after_whole_nanosecond_steps
        (r0 : Rate) (now : timespec) (clock : list (timespec * timespec)) (k : Z) :
  (timeStep_ r0 * Double.of_Z NSecPerSec_)%D = Double.of_Z k ->
  0 <= k -> k + NSecPerSec_ <= 2 ^ 53 ->
  clock_reading now ->
  Forall (fun p => clock_reading (fst p) /\ clock_reading (snd p)) clock ->
  nanos now + Z.of_nat (length clock) * k < 2 ^ 61 * NSecPerSec_ ->
  enforceRate_ r0 = true \/ on_schedule now k clock ->
  exists r' tr,
    sleeps (reset r0 now) clock = Some (r', tr) /\
    stepTime_ r' = add_nanos now (Z.of_nat (length clock) * k) /\
    nanos (stepTime_ r') = nanos now + Z.of_nat (length clock) * k.
Proof.
  intros Hts Hk Hk53 Hnow Hall Hbound Hpol.
  destruct (whole_steps_loop clock (reset r0 now) k) as (r' & tr & Hrun & Hfin);
    try assumption.
  exists r', tr. split; [assumption | ]. split; [assumption | ].
  rewrite Hfin. apply add_nanos_nanos.
Qed.

(** Three on-time cycles of the 1 ms pacer: the target is 100.003 s. *)
Lemma target_after_whole_nanosecond_steps_witness :
  ((timeStep_ pacer_1ms * Double.of_Z NSecPerSec_)%D = Double.of_Z 1000000 /\
   0 <= 1000000 /\ 1000000 + NSecPerSec_ <= 2 ^ 53 /\
   clock_reading (mkTimespec 100 0) /\
   Forall (fun p => clock_reading (fst p) /\ clock_reading (snd p)) clock_1ms /\
   nanos (mkTimespec 100 0) + Z.of_nat (length clock_1ms) * 1000000
     < 2 ^ 61 * NSecPerSec_ /\
   (enforceRate_ pacer_1ms = true \/ on_schedule (mkTimespec 100 0) 1000000 clock_1ms)) /\
  exists r' tr,
    sleeps pacer_1ms clock_1ms = Some (r', tr) /\
    stepTime_ r' = mkTimespec 100 3000000.
Proof.
  assert (Hts : (timeStep_ pacer_1ms * Double.of_Z NSecPerSec_)%D = Double.of_Z 1000000)
    by (vm_compute; reflexivity).
  assert (Hk53 : 1000000 + NSecPerSec_ <= 2 ^ 53) by (vm_compute; congruence).
  assert (Hnow : clock_reading (mkTimespec 100 0))
    by (apply clock_reading_intro; reflexivity).
  assert (Hall : Forall (fun p => clock_reading (fst p) /\ clock_reading (snd p)) clock_1ms).
  { repeat constructor; apply clock_reading_intro; reflexivity. }
  assert (Hbound : nanos (mkTimespec 100 0) + Z.of_nat (length clock_1ms) * 1000000
                   < 2 ^ 61 * NSecPerSec_) by (vm_compute; reflexivity).
  assert (Hpol : enforceRate_ pacer_1ms = true \/
                 on_schedule (mkTimespec 100 0) 1000000 clock_1ms)
    by (left; reflexivity).
  split; [repeat (split; [assumption || lia | ]); assumption | ].
  destruct (target_after_whole_nanosecond_steps
              (pacer millisecond millisecond (Double.of_Z 10 * millisecond)%D true
                     (mkTimespec 0 0))
              (mkTimespec 100 0) clock_1ms 1000000 Hts ltac:(lia) Hk53 Hnow Hall Hbound Hpol)
    as (r' & tr & Hrun & Hfin & _).
  exists r', tr. split; [exact Hrun | ]. rewrite Hfin. reflexivity.
Defined.

(** ** The counter of time steps wraps *)

Lemma div_zero_not_finite (d : double) :
  Double.isfinite (d / Double.of_Z 0)%D = false.
Proof. rewrite of_Z_0. destruct d; reflexivity. Qed.

Lemma add_not_finite (x y : double) :
  Double.isfinite y = false -> Double.isfinite (x + y)%D = false.
Proof.
  destruct y as [sy | sy | | sy my ey]; cbn; try discriminate; intros _.
  - destruct x as [sx | sx | | sx mx ex]; try reflexivity.
    destruct sx, sy; reflexivity.
  - destruct x; reflexivity.
Qed.

Lemma of_Z_1 : Double.of_Z 1 = S754_finite false 4503599627370496 (-52).
Proof. vm_compute. reflexivity. Qed.

(** With a mean that is not finite and a count of one, the update leaves
    NaN as the mean, whatever the sample is. *)
Lemma mean_update_nan (m a : double) :
  Double.isfinite m = false ->
  Double.isnan (m + (a - m) / Double.of_Z 1)%D = true.
Proof.
  rewrite of_Z_1.
  destruct m as [sm | sm | | sm mm em]; cbn [Double.isfinite]; try discriminate; intros _.
  - destruct a as [sa | sa | | sa ma ea]; destruct sm; try destruct sa; reflexivity.
  - destruct a; reflexivity.
Qed.

Lemma sleep_mean (r : Rate) (now1 now2 : timespec) (r' : Rate) (evs : list event) :
  sleep r now1 now2 = Some (r', evs) ->
  numTimeSteps_ r' = UInt.incr (numTimeSteps_ r) /\
  awakeTimeMean_ r' =
    (awakeTimeMean_ r +
     (awakeTime_ r' - awakeTimeMean_ r) / Double.of_Z (UInt.incr (numTimeSteps_ r)))%D.
Proof.
  intro H. apply sleep_inv in H. destruct H as (awake & step & d & _ & _ & _ & Hpost).
  destruct Hpost as (_ & _ & _ & _ & _ & _ & _ & _ & _ & Hw & Haw & _).
  unfold welford_double, welford in Hw. injection Hw as Hc Hm _.
  rewrite Haw. split; assumption.
Qed.

(** The call that takes the counter from its maximum back to zero divides
    by zero, and the call after it turns the mean into NaN. *)
Lemma wrap_two_steps (r r1 r2 : Rate) (a b c d : timespec) (e1 e2 : list event) :
  numTimeSteps_ r = UInt.modulus - 1 ->
  sleep r a b = Some (r1, e1) ->
  sleep r1 c d = Some (r2, e2) ->
  numTimeSteps_ r1 = 0 /\ Double.isfinite (awakeTimeMean_ r1) = false /\
  numTimeSteps_ r2 = 1 /\ Double.isnan (awakeTimeMean_ r2) = true.
Proof.
  intros Hn H1 H2.
  apply sleep_mean in H1. destruct H1 as [Hc1 Hm1].
  apply sleep_mean in H2. destruct H2 as [Hc2 Hm2].
  rewrite Hn in Hc1, Hm1.
  change (UInt.incr (UInt.modulus - 1)) with 0 in Hc1, Hm1.
  rewrite Hc1 in Hc2, Hm2. change (UInt.incr 0) with 1 in Hc2, Hm2.
  assert (Hinf : Double.isfinite (awakeTimeMean_ r1) = false).
  { rewrite Hm1. apply add_not_finite, div_zero_not_finite. }
  repeat (split; [assumption | ]).
  rewrite Hm2. apply mean_update_nan, Hinf.
Qed.

Lemma split_last_two (A : Type) (l : list A) (n : Z) :
  Z.of_nat (length l) = n + 2 -> 0 <= n ->
  exists init p q, l = init ++ [p; q] /\ Z.of_nat (length init) = n.
Proof.
  intros Hl Hn.
  destruct (exists_last (l := l)) as (l1 & q & ->).
  { intros ->. cbn in Hl. lia. }
  rewrite length_app in Hl. cbn [length] in Hl.
  destruct (exists_last (l := l1)) as (init & p & ->).
  { intros ->. cbn in Hl. lia. }
  rewrite length_app in Hl. cbn [length] in Hl.
  exists init, p, q. split; [now rewrite <- app_assoc | lia].
Qed.

(** C6. [getAwakeTimeMean] returns NaN although [sleep] has run and the
    counter is not zero: the counter is an [unsigned int], so the
    [2^32]-th call after [reset] takes it back to zero and divides by it,
    and the call after that, whatever the clock reads, leaves the counter
    at one and the stored mean at NaN. *)
Theorem mean_is_nan_after_counter_wraps
        (r0 : Rate) (now : timespec) (clock : list (timespec * timespec))
        (r' : Rate) (tr : list (list event)) :
  Z.of_nat (length clock) = UInt.modulus + 1 ->
  sleeps (reset r0 now) clock = Some (r', tr) ->
  getNumTimeSteps r' = 1 /\
  Double.isnan (getAwakeTimeMean r') = true.
Proof.
  intros Hlen Hrun.
  destruct (split_last_two _ clock (UInt.modulus - 1)) as (init & [a b] & [c d] & -> & Hinit).
  { rewrite Hlen. lia. }
  { unfold UInt.modulus. lia. }
  apply sleeps_app in Hrun. destruct Hrun as (ri & tr1 & tr2 & Hi & Hlast & _).
  apply sleeps_cons_inv in Hlast. destruct Hlast as (r1 & e1 & tr3 & H1 & Hlast & _).
  apply sleeps_cons_inv in Hlast. destruct Hlast as (r2 & e2 & tr4 & H2 & Hnil & _).
  cbn [sleeps] in Hnil. injection Hnil as <- _.
  assert (Hc : numTimeSteps_ ri = UInt.modulus - 1).
  { rewrite (sleeps_count init (reset r0 now) ri tr1 0 eq_refl Hi), Hinit.
    reflexivity. }
  destruct (wrap_two_steps ri r1 r2 a b c d e1 e2 Hc H1 H2) as (_ & _ & Hc2 & Hnan).
  unfold getNumTimeSteps, getAwakeTimeMean. rewrite Hc2. split; [reflexivity | exact Hnan].
Qed.

Lemma frozen_clock_length (t : timespec) (n : nat) :
  length (frozen_clock t n) = n.
Proof. apply repeat_length. Qed.

Lemma frozen_clock_readings (t : timespec) (n : nat) :
  clock_reading t ->
  Forall (fun p => clock_reading (fst p) /\ clock_reading (snd p)) (frozen_clock t n).
Proof.
  intro Ht. apply Forall_forall. intros p Hp.
  apply repeat_spec in Hp. subst p. split; exact Ht.
Qed.

Lemma frozen_clock_monotone (t : timespec) (n : nat) :
  monotone_from t (frozen_clock t n).
Proof.
  induction n as [ | n IH]; [exact I | ].
  cbn [frozen_clock repeat monotone_from].
  split; [apply ts_leb_refl | split; [apply ts_leb_refl | exact IH]].
Qed.

(** The probe with a zero time step on a clock that stands still at 100 s:
    the run of [2^32 + 1] calls is defined, and ends with a count of one
    and a mean that is NaN. *)
Lemma mean_is_nan_after_counter_wraps_witness :
  Z.of_nat (length (frozen_clock (mkTimespec 100 0) wrap_length)) = UInt.modulus + 1 /\
  exists r',
    (exists tr, sleeps pacer_probe (frozen_clock (mkTimespec 100 0) wrap_length)
                = Some (r', tr)) /\
    getNumTimeSteps r' = 1 /\
    Double.isnan (getAwakeTimeMean r') = true.
Proof.
  assert (Hlen : Z.of_nat (length (frozen_clock (mkTimespec 100 0) wrap_length))
                 = UInt.modulus + 1).
  { rewrite frozen_clock_length. unfold wrap_length. apply Z2Nat.id.
    unfold UInt.modulus. lia. }
  assert (Ht : clock_reading (mkTimespec 100 0))
    by (apply clock_reading_intro; reflexivity).
  destruct (zero_step_loop (frozen_clock (mkTimespec 100 0) wrap_length) pacer_probe
              (mkTimespec 100 0) false eq_refl Ht Ht Ht
              (ts_leb_refl _)
              (frozen_clock_readings _ _ Ht)
              (frozen_clock_monotone _ _)) as (r' & tr & Hrun & _).
  split; [exact Hlen | ].
  exists r'. split; [exists tr; exact Hrun | ].
  exact (mean_is_nan_after_counter_wraps _ (mkTimespec 100 0) _ r' tr Hlen Hrun).
Defined.

(** * Supporting properties *)

(** One on-time cycle of the 1 ms pacer: the target moves from 100 s to
    100.001 s. *)
Lemma sleep_never_rewinds_target_witness :
  (TimeStepIsValid (timeStep_ pacer_1ms) = true /\ is_binary64 (timeStep_ pacer_1ms) /\
   normalized (stepTime_ pacer_1ms) /\ normalized (mkTimespec 100 200100)) /\
  exists r' evs,
    sleep pacer_1ms (mkTimespec 100 200000) (mkTimespec 100 200100) = Some (r', evs) /\
    nanos (stepTime_ pacer_1ms) <= nanos (stepTime_ r').
Proof.
  assert (Hv : TimeStepIsValid (timeStep_ pacer_1ms) = true) by (vm_compute; reflexivity).
  assert (Hb : is_binary64 (timeStep_ pacer_1ms)) by (vm_compute; reflexivity).
  assert (Hs : normalized (stepTime_ pacer_1ms)) by (vm_compute; split; congruence).
  assert (Hn : normalized (mkTimespec 100 200100)) by (vm_compute; split; congruence).
  split; [repeat (split; [assumption | ]); assumption | ].
  destruct (sleep pacer_1ms (mkTimespec 100 200000) (mkTimespec 100 200100))
    as [[r' evs] | ] eqn:E; [ | vm_compute in E; discriminate].
  exists r', evs. split; [reflexivity | ].
  exact (sleep_never_rewinds_target pacer_1ms (mkTimespec 100 200000)
           (mkTimespec 100 200100) r' evs Hv Hb Hs Hn E).
Defined.

(** A late cycle of a pacer that does not enforce its rate: the target is
    snapped to the clock sample, which is normalized. *)
Lemma sleep_keeps_target_normalized_witness :
  (TimeStepIsValid (timeStep_ pacer_lenient) = true /\
   normalized (stepTime_ pacer_lenient) /\ normalized (mkTimespec 100 12000500)) /\
  exists r' evs,
    sleep pacer_lenient (mkTimespec 100 12000000) (mkTimespec 100 12000500)
      = Some (r', evs) /\
    normalized (stepTime_ r').
Proof.
  assert (Hv : TimeStepIsValid (timeStep_ pacer_lenient) = true) by (vm_compute; reflexivity).
  assert (Hs : normalized (stepTime_ pacer_lenient)) by (vm_compute; split; congruence).
  assert (Hn : normalized (mkTimespec 100 12000500)) by (vm_compute; split; congruence).
  split; [repeat (split; [assumption | ]); assumption | ].
  destruct (sleep pacer_lenient (mkTimespec 100 12000000) (mkTimespec 100 12000500))
    as [[r' evs] | ] eqn:E; [ | vm_compute in E; discriminate].
  exists r', evs. split; [reflexivity | ].
  exact (sleep_keeps_target_normalized pacer_lenient (mkTimespec 100 12000000)
           (mkTimespec 100 12000500) r' evs Hv Hs Hn E).
Defined.

(** Right after [reset], the four statistics read NaN and the counters
    read zero; an accessor is a function of the state and returns nothing
    else, so it changes nothing. *)
Theorem accessors_after_reset (r : Rate) (now : timespec) :
  getNumTimeSteps (reset r now) = 0 /\
  getNumWarnings (reset r now) = 0 /\
  getNumErrors (reset r now) = 0 /\
  isnan (getAwakeTime (reset r now)) = true /\
  isnan (getAwakeTimeMean (reset r now)) = true /\
  isnan (getAwakeTimeVar (reset r now)) = true /\
  isnan (getAwakeTimeStdDev (reset r now)) = true /\
  getStepTime (reset r now) = now /\
  getSleepStartTime (reset r now) = now /\
  getSleepEndTime (reset r now) = now.
Proof.
  unfold getAwakeTimeStdDev, getAwakeTimeVar, getAwakeTimeMean, getAwakeTime.
  cbn [reset numTimeSteps_ Z.eqb Z.leb Z.compare].
  repeat split.
Qed.

(** After exactly one [sleep] since [reset], on a clock that has not run
    backwards in between, the awake time is a finite number that is not
    negative, and the variance and the standard deviation are NaN. *)
Theorem accessors_after_first_sleep (r0 : Rate) (now now1 now2 : timespec)
        (r' : Rate) (evs : list event) :
  clock_reading now -> clock_reading now1 -> ts_leb now now1 = true ->
  sleep (reset r0 now) now1 now2 = Some (r', evs) ->
  getNumTimeSteps r' = 1 /\
  isfinite (getAwakeTime r') = true /\
  negative (getAwakeTime r') = false /\
  isnan (getAwakeTimeVar r') = true /\
  isnan (getAwakeTimeStdDev r') = true.
Proof.
  intros Hnow H1 Hle H.
  pose proof (sleep_count _ _ _ _ _ H) as Hc.
  change (UInt.incr (numTimeSteps_ (reset r0 now))) with 1 in Hc.
  apply sleep_inv in H. destruct H as (awake & step & d & Haw & _ & _ & Hpost).
  destruct Hpost as (_ & _ & _ & _ & _ & _ & _ & _ & _ & _ & Hawake & _).
  destruct (GetDuration_readings now now1 Hnow H1) as (a & Ha & Hfin & Hneg).
  change (sleepEndTime_ (reset r0 now)) with now in Haw.
  rewrite Ha in Haw. injection Haw as <-.
  unfold ts_leb in Hle. apply negb_true_iff in Hle. rewrite Hle in Hneg.
  unfold getAwakeTimeStdDev, getAwakeTimeVar, getAwakeTime, getNumTimeSteps.
  rewrite Hc, Hawake. cbn [Z.eqb Z.leb Z.compare Pos.compare].
  repeat split; assumption.
Qed.

(** The first cycle of the 1 ms pacer, after 0.2 ms of work. *)
Lemma accessors_after_first_sleep_witness :
  (clock_reading (mkTimespec 100 0) /\ clock_reading (mkTimespec 100 200000) /\
   ts_leb (mkTimespec 100 0) (mkTimespec 100 200000) = true) /\
  exists r' evs,
    sleep pacer_1ms (mkTimespec 100 200000) (mkTimespec 100 200100) = Some (r', evs) /\
    getNumTimeSteps r' = 1 /\
    isfinite (getAwakeTime r') = true /\
    negative (getAwakeTime r') = false /\
    isnan (getAwakeTimeVar r') = true.
Proof.
  assert (H0 : clock_reading (mkTimespec 100 0)) by (apply clock_reading_intro; reflexivity).
  assert (H1 : clock_reading (mkTimespec 100 200000))
    by (apply clock_reading_intro; reflexivity).
  assert (Hle : ts_leb (mkTimespec 100 0) (mkTimespec 100 200000) = true) by reflexivity.
  split; [repeat (split; [assumption | ]); assumption | ].
  destruct (sleep pacer_1ms (mkTimespec 100 200000) (mkTimespec 100 200100))
    as [[r' evs] | ] eqn:E; [ | vm_compute in E; discriminate].
  exists r', evs. split; [reflexivity | ].
  destruct (accessors_after_first_sleep pacer_1ms (mkTimespec 100 0)
              (mkTimespec 100 200000) (mkTimespec 100 200100) r' evs H0 H1 Hle E)
    as (Hc & Hf & Hn & Hv & _).
  repeat (split; [assumption | ]). assumption.
Defined.

(** From [reset] on, a loop with a zero time step on a clock that does not
    run backwards is defined at every call, counts every call, and never
    waits for an instant that the clock has not reached. *)
Theorem probe_loop_never_waits (r0 : Rate) (now : timespec) (s : bool)
        (clock : list (timespec * timespec)) :
  timeStep_ r0 = S754_zero s ->
  clock_reading now ->
  Forall (fun p => clock_reading (fst p) /\ clock_reading (snd p)) clock ->
  monotone_from now clock ->
  exists r' tr,
    sleeps (reset r0 now) clock = Some (r', tr) /\
    getNumTimeSteps r' = UInt.wrap (Z.of_nat (length clock)) /\
    Forall2 (fun p evs => forall c w, In (c, w) (nanosleeps evs) ->
                                      ts_leb w (snd p) = true) clock tr.
Proof.
  intros Hts Hnow Hall Hmono.
  destruct (zero_step_loop clock (reset r0 now) now s Hts Hnow Hnow Hnow
              (ts_leb_refl now) Hall Hmono) as (r' & tr & Hrun & Hwait).
  exists r', tr. split; [assumption | ]. split; [ | assumption].
  apply (sleeps_count clock (reset r0 now) r' tr 0 eq_refl Hrun).
Qed.

(** Three cycles of the probe: three calls counted, no wait ahead of the
    clock. *)
Lemma probe_loop_never_waits_witness :
  (timeStep_ pacer_probe = S754_zero false /\
   clock_reading (mkTimespec 100 0) /\
   Forall (fun p => clock_reading (fst p) /\ clock_reading (snd p)) clock_1ms /\
   monotone_from (mkTimespec 100 0) clock_1ms) /\
  exists r' tr,
    sleeps pacer_probe clock_1ms = Some (r', tr) /\
    getNumTimeSteps r' = 3.
Proof.
  assert (Hts : timeStep_ pacer_probe = S754_zero false) by reflexivity.
  assert (Hnow : clock_reading (mkTimespec 100 0))
    by (apply clock_reading_intro; reflexivity).
  assert (Hall : Forall (fun p => clock_reading (fst p) /\ clock_reading (snd p)) clock_1ms).
  { repeat constructor; apply clock_reading_intro; reflexivity. }
  assert (Hmono : monotone_from (mkTimespec 100 0) clock_1ms).
  { cbn. repeat split. }
  split; [repeat (split; [assumption | ]); assumption | ].
  destruct (probe_loop_never_waits pacer_probe (mkTimespec 100 0) false clock_1ms
              Hts Hnow Hall Hmono) as (r' & tr & Hrun & Hc & _).
  exists r', tr. split; [exact Hrun | exact Hc].
Defined.

(** * Accepted values and constructors *)

Lemma TimeStepIsValid_iff (x : double) :
  TimeStepIsValid x = true <-> nonneg x /\ isfinite x = true.
Proof.
  destruct x as [[ | ] | [ | ] | | [ | ] m e]; cbn; intuition congruence.
Qed.

Lemma MaxTimeStepIsValid_iff (x : double) :
  MaxTimeStepIsValid x = true <-> nonneg x.
Proof.
  destruct x as [[ | ] | [ | ] | | [ | ] m e]; cbn; intuition congruence.
Qed.

(** The time step takes exactly the zeros of either sign and the positive
    finite numbers, the two maxima take [+infinity] as well; an accepted
    value is what the getter returns afterwards, and nothing is printed. *)
Theorem setters_accept_exactly_nonnegative (r : Rate) (x : double) :
  (TimeStepIsValid x = true <-> nonneg x /\ isfinite x = true) /\
  (MaxTimeStepIsValid x = true <-> nonneg x) /\
  (nonneg x /\ isfinite x = true ->
   snd (setTimeStep r x) = [] /\
   getTimeStep (fst (setTimeStep r x)) = x /\
   fst (setTimeStep r x) = with_timeStep r x) /\
  (nonneg x ->
   snd (setMaxTimeStepWarning r x) = [] /\
   getMaxTimeStepWarning (fst (setMaxTimeStepWarning r x)) = x /\
   snd (setMaxTimeStepError r x) = [] /\
   getMaxTimeStepError (fst (setMaxTimeStepError r x)) = x).
Proof.
  split; [apply TimeStepIsValid_iff | ].
  split; [apply MaxTimeStepIsValid_iff | ].
  split.
  - intro H. apply TimeStepIsValid_iff in H.
    unfold setTimeStep. rewrite H. repeat split.
  - intro H. apply MaxTimeStepIsValid_iff in H.
    unfold setMaxTimeStepWarning, setMaxTimeStepError. rewrite H. repeat split.
Qed.

Lemma Rate_Rate_result (fresh : Rate) (name : string) (ts w e : double)
      (enforce : bool) (clockId : Z) (now : timespec) :
  fst (Rate_Rate fresh name ts w e enforce clockId now) =
    mkRate name
           (if TimeStepIsValid ts then ts else timeStep_ fresh)
           (if MaxTimeStepIsValid w then w else maxTimeStepWarning_ fresh)
           (if MaxTimeStepIsValid e then e else maxTimeStepError_ fresh)
           enforce clockId now now now 0 0 0 Double.zero Double.zero Double.zero /\
  length (snd (Rate_Rate fresh name ts w e enforce clockId now)) = rejected ts w e /\
  Forall (fun ev => exists msg, ev = Log Error msg)
         (snd (Rate_Rate fresh name ts w e enforce clockId now)).
Proof.
  unfold Rate_Rate, setTimeStep, setMaxTimeStepWarning, setMaxTimeStepError, rejected.
  destruct (TimeStepIsValid ts), (MaxTimeStepIsValid w), (MaxTimeStepIsValid e);
    cbn; repeat split; repeat constructor; eexists; reflexivity.
Qed.

(** The six-argument constructor stores each valid number and leaves, for
    each invalid one, the member as its declaration initialized it,
    printing one error per rejected number; the name, the clock and the
    policy are the arguments, the three timestamps are the clock sample
    of [reset], and the counters and statistics are zero. *)
Theorem constructor_stores_what_setters_accept
        (fresh : Rate) (name : string) (ts w e : double)
        (enforce : bool) (clockId : Z) (now : timespec) :
  let r := fst (Rate_Rate fresh name ts w e enforce clockId now) in
  let evs := snd (Rate_Rate fresh name ts w e enforce clockId now) in
  getName r = name /\ getClockId r = clockId /\ getEnforceRate r = enforce /\
  getTimeStep r = (if TimeStepIsValid ts then ts else timeStep_ fresh) /\
  getMaxTimeStepWarning r
    = (if MaxTimeStepIsValid w then w else maxTimeStepWarning_ fresh) /\
  getMaxTimeStepError r
    = (if MaxTimeStepIsValid e then e else maxTimeStepError_ fresh) /\
  getSleepStartTime r = now /\ getSleepEndTime r = now /\ getStepTime r = now /\
  getNumTimeSteps r = 0 /\ getNumWarnings r = 0 /\ getNumErrors r = 0 /\
  length evs = rejected ts w e /\
  Forall (fun ev => exists msg, ev = Log Error msg) evs.
Proof.
  intros r evs.
  destruct (Rate_Rate_result fresh name ts w e enforce clockId now) as (Hr & Hl & Hf).
  subst r evs. rewrite Hr. cbn.
  repeat (split; [reflexivity | ]). split; assumption.
Qed.

Lemma of_Z_10 : Double.of_Z 10 = S754_finite false 5629499534213120 (-49).
Proof. vm_compute. reflexivity. Qed.

Lemma finite_mul_nonneg (mx : positive) (ex : Z) (y : double) :
  nonneg y -> nonneg (mul (S754_finite false mx ex) y).
Proof.
  destruct y as [sy | [ | ] | | [ | ] my ey]; cbn [nonneg]; try easy; intros _;
    try exact I.
  unfold mul, SFmul. cbn [xorb].
  pose proof (binary_round_aux_class false (mx * my) (ex + ey)) as H.
  cbv zeta in H. change prec with 53. change emax with 1024.
  destruct H as [-> | [-> | (m & e & ->)]]; exact I.
Qed.

Lemma unit_le_product (T u : Z) :
  unit_of 2148 T u -> 2 ^ 1074 <= T -> 0 < u <= T.
Proof.
  intros (j & Hj & -> & Hu & Hl) HT.
  pose proof (pow2_pos j ltac:(lia)) as Hp. split; [assumption | ].
  destruct Hl as [Hl | ->].
  - change (2 ^ 52) with 4503599627370496 in Hl. lia.
  - exact HT.
Qed.

(** Ten times a negative number is negative: the product does not
    underflow to zero. *)
Lemma ten_times_negative (ts : double) :
  is_binary64 ts -> negative ts = true ->
  negative (Double.of_Z 10 * ts)%D = true.
Proof.
  intros Hb Hn. rewrite of_Z_10.
  destruct ts as [s | [ | ] | | [ | ] m e]; cbn [negative] in Hn; try discriminate.
  - reflexivity.
  - pose proof (valid_binary_wf _ Hb eq_refl) as Hwf. cbn [wf] in Hwf.
    destruct (SFmul_finite false 5629499534213120 (-49) true m e
                ltac:(lia) ltac:(lia) ltac:(left; cbn; lia)) as (u & R & Hu & Hf & Hr).
    cbv zeta in Hu, Hf, Hr. cbn [xorb] in Hr.
    set (p := mul _ _) in *. clearbody p.
    cbn [mag] in Hu, Hf. change (-49 + 1074) with 1025 in Hu, Hf.
    assert (HT : 2 ^ 1074 <=
                 5629499534213120 * 2 ^ 1025 * (Z.pos m * 2 ^ (e + 1074))).
    { pose proof (pow2_pos (e + 1074) ltac:(lia)) as Hq.
      change (5629499534213120 * 2 ^ 1025) with (10 * 2 ^ 1074).
      assert (1 <= Z.pos m * 2 ^ (e + 1074)) by nia.
      hide_pow 1074. nia. }
    pose proof (unit_le_product _ _ Hu HT) as Hule.
    pose proof (faithfulZ_pos _ _ _ Hule Hf) as HR.
    destruct Hr as [HR0 | m' e' _ _ _ | _]; [lia | reflexivity | reflexivity].
Qed.

Lemma negative_invalid (x : double) :
  negative x = true -> TimeStepIsValid x = false /\ MaxTimeStepIsValid x = false.
Proof.
  destruct x as [[ | ] | [ | ] | | [ | ] m e]; cbn; intuition congruence.
Qed.

Lemma rejected_default (ts : double) :
  is_binary64 ts ->
  (TimeStepIsValid ts = true ->
   MaxTimeStepIsValid ts = true /\
   MaxTimeStepIsValid (Double.of_Z 10 * ts)%D = true) /\
  (isnan ts = true \/ negative ts = true ->
   TimeStepIsValid ts = false /\ MaxTimeStepIsValid ts = false /\
   MaxTimeStepIsValid (Double.of_Z 10 * ts)%D = false).
Proof.
  intro Hb. split.
  - intro Hv. apply TimeStepIsValid_iff in Hv. destruct Hv as [Hn _].
    split; apply MaxTimeStepIsValid_iff; [assumption | ].
    rewrite of_Z_10. apply finite_mul_nonneg. assumption.
  - intros [Hnan | Hneg].
    + destruct ts; try discriminate. repeat split.
    + destruct (negative_invalid _ Hneg) as [H1 H2].
      destruct (negative_invalid _ (ten_times_negative _ Hb Hneg)) as [_ H3].
      repeat split; assumption.
Qed.

(** The two-argument constructor.  A valid time step is stored, with
    itself as the warning maximum and ten times itself as the error
    maximum, and nothing is printed.  [+infinity] is refused as a time
    step but stored as both maxima, with one error printed.  NaN and
    negative numbers are refused three times over: no member is set and
    three errors are printed. *)
Theorem default_constructor_thresholds
        (fresh : Rate) (name : string) (ts : double) (now : timespec) :
  is_binary64 ts ->
  let r := fst (Rate_Rate_default fresh name ts now) in
  let evs := snd (Rate_Rate_default fresh name ts now) in
  getEnforceRate r = true /\ getClockId r = CLOCK_MONOTONIC /\
  (TimeStepIsValid ts = true ->
   getTimeStep r = ts /\ getMaxTimeStepWarning r = ts /\
   getMaxTimeStepError r = (Double.of_Z 10 * ts)%D /\ evs = []) /\
  (ts = Double.infinity ->
   getTimeStep r = timeStep_ fresh /\ getMaxTimeStepWarning r = Double.infinity /\
   getMaxTimeStepError r = Double.infinity /\ length evs = 1%nat) /\
  (isnan ts = true \/ negative ts = true ->
   getTimeStep r = timeStep_ fresh /\
   getMaxTimeStepWarning r = maxTimeStepWarning_ fresh /\
   getMaxTimeStepError r = maxTimeStepError_ fresh /\ length evs = 3%nat).
Proof.
  intros Hb r evs.
  destruct (Rate_Rate_result fresh name ts ts (Double.of_Z 10 * ts)%D true
              CLOCK_MONOTONIC now) as (Hr & Hl & _).
  fold (Rate_Rate_default fresh name ts now) in Hr, Hl. fold r in Hr. fold evs in Hl.
  destruct (rejected_default ts Hb) as [Hvalid Hinvalid].
  rewrite Hr. cbn [getEnforceRate getClockId getTimeStep getMaxTimeStepWarning
                   getMaxTimeStepError enforceRate_ clockId_ timeStep_
                   maxTimeStepWarning_ maxTimeStepError_].
  split; [reflexivity | ]. split; [reflexivity | ]. split; [ | split].
  - intro Hv. destruct (Hvalid Hv) as [Hw He].
    unfold rejected in Hl. rewrite Hv, Hw, He in *.
    repeat (split; [reflexivity | ]).
    destruct evs; [reflexivity | discriminate].
  - intros ->. rewrite of_Z_10 in *. cbn in *. repeat split.
  - intro Hi. destruct (Hinvalid Hi) as (Hv & Hw & He).
    unfold rejected in Hl. rewrite Hv, Hw, He in *.
    repeat (split; [reflexivity | ]). assumption.
Qed.

(** A loop at 1 kHz, built with the two-argument constructor from blank
    members. *)
Lemma default_constructor_thresholds_witness :
  is_binary64 millisecond /\
  fst (Rate_Rate_default (blank (mkTimespec 0 0) S754_nan) "loop" millisecond
                         (mkTimespec 100 0)) = pacer_1ms /\
  snd (Rate_Rate_default (blank (mkTimespec 0 0) S754_nan) "loop" millisecond
                         (mkTimespec 100 0)) = [].
Proof.
  assert (Hb : is_binary64 millisecond) by (vm_compute; reflexivity).
  split; [exact Hb | ].
  destruct (default_constructor_thresholds (blank (mkTimespec 0 0) S754_nan) "loop"
              millisecond (mkTimespec 100 0) Hb) as (_ & _ & Hvalid & _).
  destruct (Hvalid ltac:(vm_compute; reflexivity)) as (_ & _ & _ & Hevs).
  split; [vm_compute; reflexivity | exact Hevs].
Defined.

(** * Configuration, counters and the order of the schedule *)

Lemma sleep_keeps_configuration (r : Rate) (now1 now2 : timespec)
      (r' : Rate) (evs : list event) :
  sleep r now1 now2 = Some (r', evs) ->
  name_ r' = name_ r /\ timeStep_ r' = timeStep_ r /\
  maxTimeStepWarning_ r' = maxTimeStepWarning_ r /\
  maxTimeStepError_ r' = maxTimeStepError_ r /\
  enforceRate_ r' = enforceRate_ r /\ clockId_ r' = clockId_ r.
Proof.
  intro H. apply sleep_inv in H. destruct H as (awake & step & d & _ & _ & _ & Hpost).
  destruct Hpost as (H1 & H2 & H3 & H4 & H5 & H6 & _).
  repeat split; assumption.
Qed.

Lemma sleeps_keep_configuration (clock : list (timespec * timespec)) (r r' : Rate)
      (tr : list (list event)) :
  sleeps r clock = Some (r', tr) ->
  name_ r' = name_ r /\ timeStep_ r' = timeStep_ r /\
  maxTimeStepWarning_ r' = maxTimeStepWarning_ r /\
  maxTimeStepError_ r' = maxTimeStepError_ r /\
  enforceRate_ r' = enforceRate_ r /\ clockId_ r' = clockId_ r.
Proof.
  revert r tr. induction clock as [ | [a b] clock IH]; intros r tr H.
  - cbn in H. injection H as <- _. repeat split.
  - apply sleeps_cons_inv in H. destruct H as (r1 & evs & tr' & Hs & Hrest & _).
    destruct (sleep_keeps_configuration _ _ _ _ _ Hs) as (H1 & H2 & H3 & H4 & H5 & H6).
    destruct (IH _ _ Hrest) as (G1 & G2 & G3 & G4 & G5 & G6).
    repeat split; congruence.
Qed.

(** A loop of [sleep] calls never changes the configuration (name, time
    step, the two maxima, policy, clock), so that [reset] after the loop
    gives the very state that [reset] before it gives: nothing of the
    history of a pacer survives [reset]. *)
Theorem reset_forgets_history (r r' : Rate) (clock : list (timespec * timespec))
        (tr : list (list event)) (now : timespec) :
  sleeps r clock = Some (r', tr) ->
  getName r' = getName r /\ getTimeStep r' = getTimeStep r /\
  getMaxTimeStepWarning r' = getMaxTimeStepWarning r /\
  getMaxTimeStepError r' = getMaxTimeStepError r /\
  getEnforceRate r' = getEnforceRate r /\ getClockId r' = getClockId r /\
  reset r' now = reset r now.
Proof.
  intro H. destruct (sleeps_keep_configuration _ _ _ _ H) as (H1 & H2 & H3 & H4 & H5 & H6).
  unfold getName, getTimeStep, getMaxTimeStepWarning, getMaxTimeStepError,
    getEnforceRate, getClockId, reset.
  rewrite H1, H2, H3, H4, H5, H6. repeat split.
Qed.

(** Three cycles of the 1 ms pacer, then [reset] at 200 s. *)
Lemma reset_forgets_history_witness :
  exists r' tr,
    sleeps pacer_1ms clock_1ms = Some (r', tr) /\
    getTimeStep r' = millisecond /\
    reset r' (mkTimespec 200 0) = reset pacer_1ms (mkTimespec 200 0).
Proof.
  destruct (sleeps pacer_1ms clock_1ms) as [[r' tr] | ] eqn:E;
    [ | vm_compute in E; discriminate].
  exists r', tr. split; [reflexivity | ].
  destruct (reset_forgets_history pacer_1ms r' clock_1ms tr (mkTimespec 200 0) E)
    as (_ & Hts & _ & _ & _ & _ & Hreset).
  split; [exact Hts | exact Hreset].
Defined.

(** ** Counters and diagnostics *)

Lemma count_logs_nonneg (sev : severity) (evs : list event) : 0 <= count_logs sev evs.
Proof. unfold count_logs. lia. Qed.

Lemma sleep_counts (r : Rate) (now1 now2 : timespec) (r' : Rate) (evs : list event) :
  sleep r now1 now2 = Some (r', evs) ->
  0 <= numWarnings_ r < UInt.modulus - 1 -> 0 <= numErrors_ r < UInt.modulus - 1 ->
  numWarnings_ r' = numWarnings_ r + count_logs Warn evs /\
  numErrors_ r' = numErrors_ r + count_logs Error evs /\
  count_logs Warn evs + count_logs Error evs <= 1.
Proof.
  intros H Hw He. apply sleep_inv in H.
  destruct H as (awake & step & d & _ & _ & _ & Hpost).
  pose proof (sleep_post_logs _ _ _ _ _ _ _ _ Hpost) as Hlogs.
  destruct Hpost as (_ & _ & _ & _ & _ & _ & _ & _ & _ & _ & _ & Hc & _).
  unfold count_logs. rewrite Hlogs.
  destruct (check_thresholds_cases r awake) as (C1 & C2 & C3).
  change UInt.modulus with 4294967296 in *.
  destruct (awake > maxTimeStepError_ r)%D eqn:E1.
  - rewrite (C1 eq_refl) in Hc |- *. cbn in Hc |- *. injection Hc as -> ->.
    rewrite incr_small by (change (2 ^ 32) with 4294967296; lia). lia.
  - destruct (awake > maxTimeStepWarning_ r)%D eqn:E2.
    + rewrite (C2 eq_refl eq_refl) in Hc |- *. cbn in Hc |- *. injection Hc as -> ->.
      rewrite incr_small by (change (2 ^ 32) with 4294967296; lia). lia.
    + rewrite (C3 eq_refl eq_refl) in Hc |- *. cbn in Hc |- *. injection Hc as -> ->.
      lia.
Qed.

Lemma sleeps_counts (clock : list (timespec * timespec)) (r r' : Rate)
      (tr : list (list event)) :
  sleeps r clock = Some (r', tr) ->
  0 <= numWarnings_ r -> 0 <= numErrors_ r ->
  numWarnings_ r + Z.of_nat (length clock) < UInt.modulus ->
  numErrors_ r + Z.of_nat (length clock) < UInt.modulus ->
  numWarnings_ r' = numWarnings_ r + count_trace Warn tr /\
  numErrors_ r' = numErrors_ r + count_trace Error tr /\
  0 <= count_trace Warn tr /\ 0 <= count_trace Error tr /\
  count_trace Warn tr + count_trace Error tr <= Z.of_nat (length clock).
Proof.
  revert r tr. induction clock as [ | [a b] clock IH]; intros r tr H Hw0 He0 Hw He.
  - cbn in H. injection H as <- <-. cbn. lia.
  - apply sleeps_cons_inv in H. destruct H as (r1 & evs & tr' & Hs & Hrest & ->).
    cbn [length] in Hw, He. rewrite Nat2Z.inj_succ in Hw, He.
    destruct (sleep_counts _ _ _ _ _ Hs ltac:(lia) ltac:(lia)) as (S1 & S2 & S3).
    pose proof (count_logs_nonneg Warn evs). pose proof (count_logs_nonneg Error evs).
    destruct (IH _ _ Hrest ltac:(lia) ltac:(lia) ltac:(lia) ltac:(lia))
      as (I1 & I2 & I3 & I4 & I5).
    cbn [count_trace fold_right length]. rewrite Nat2Z.inj_succ.
    fold (count_trace Warn tr'). fold (count_trace Error tr'). lia.
Qed.

(** After a loop of fewer than [2^32] calls since [reset], the counter of
    time steps is the number of calls, the counter of warnings is the
    number of warnings printed and the counter of errors the number of
    errors printed; a call prints at most one of the two, so that
    warnings and errors together never outnumber the calls. *)
Theorem counters_count_diagnostics (r0 : Rate) (now : timespec)
        (clock : list (timespec * timespec)) (r' : Rate) (tr : list (list event)) :
  Z.of_nat (length clock) < UInt.modulus ->
  sleeps (reset r0 now) clock = Some (r', tr) ->
  getNumTimeSteps r' = Z.of_nat (length clock) /\
  getNumWarnings r' = count_trace Warn tr /\
  getNumErrors r' = count_trace Error tr /\
  getNumWarnings r' + getNumErrors r' <= getNumTimeSteps r'.
Proof.
  intros Hlen H.
  pose proof (sleeps_count clock (reset r0 now) r' tr 0 eq_refl H) as Hn.
  rewrite Z.add_0_l in Hn. unfold UInt.wrap in Hn.
  rewrite Z.mod_small in Hn by lia.
  destruct (sleeps_counts clock (reset r0 now) r' tr H (Z.le_refl 0) (Z.le_refl 0)
              Hlen Hlen) as (Hw & He & _ & _ & Hle).
  cbn [reset numWarnings_ numErrors_] in Hw, He.
  unfold getNumTimeSteps, getNumWarnings, getNumErrors. lia.
Qed.

(** Three cycles of the 1 ms pacer with 0.2 ms, 12 ms and 5 ms of work:
    no message, one error, one warning. *)
Lemma counters_count_diagnostics_witness :
  Z.of_nat (length clock_busy) < UInt.modulus /\
  exists r' tr,
    sleeps pacer_1ms clock_busy = Some (r', tr) /\
    getNumTimeSteps r' = 3 /\ getNumWarnings r' = 1 /\ getNumErrors r' = 1.
Proof.
  assert (Hlen : Z.of_nat (length clock_busy) < UInt.modulus) by (vm_compute; reflexivity).
  split; [exact Hlen | ].
  destruct (sleeps pacer_1ms clock_busy) as [[r' tr] | ] eqn:E;
    [ | vm_compute in E; discriminate].
  exists r', tr. split; [reflexivity | ].
  destruct (counters_count_diagnostics pacer_1ms (mkTimespec 100 0) clock_busy r' tr
              Hlen E) as (Hn & Hw & He & _).
  rewrite Hn, Hw, He.
  vm_compute in E. injection E as _ <-.
  repeat split; vm_compute; reflexivity.
Defined.

(** * The schedule after a call *)

Lemma ts_ltb_antisym (a b : timespec) :
  ts_ltb a b = false -> ts_ltb b a = false -> a = b.
Proof.
  destruct a as [sa na], b as [sb nb]. unfold ts_ltb. cbn [tv_sec tv_nsec].
  intros H1 H2.
  apply orb_false_iff in H1. destruct H1 as [H1 H1'].
  apply orb_false_iff in H2. destruct H2 as [H2 H2'].
  apply Z.ltb_ge in H1, H2. assert (sa = sb) by lia. subst sb.
  rewrite Z.eqb_refl in H1', H2'. cbn [andb] in H1', H2'.
  apply Z.ltb_ge in H1', H2'. f_equal. lia.
Qed.

Lemma ts_ltb_asym (a b : timespec) : ts_ltb a b = true -> ts_ltb b a = false.
Proof.
  intro H. pose proof (ts_ltb_leb _ _ H) as Hle. unfold ts_leb in Hle.
  now apply negb_true_iff in Hle.
Qed.

Lemma ts_max_spec (now2 step : timespec) :
  (if ts_ltb step now2 then now2 else step) = ts_max now2 step.
Proof.
  unfold ts_max. destruct (ts_ltb step now2) eqn:E1.
  - now rewrite (ts_ltb_asym _ _ E1).
  - destruct (ts_ltb now2 step) eqn:E2; [reflexivity | ].
    symmetry. now apply ts_ltb_antisym.
Qed.

Lemma ts_max_ge (a b : timespec) :
  ts_leb a (ts_max a b) = true /\ ts_leb b (ts_max a b) = true.
Proof.
  unfold ts_max. destruct (ts_ltb a b) eqn:E.
  - split; [now apply ts_ltb_leb | apply ts_leb_refl].
  - split; [apply ts_leb_refl | ]. unfold ts_leb. now rewrite E.
Qed.

Lemma sleep_schedule (r : Rate) (now1 now2 : timespec) (r' : Rate) (evs : list event) :
  TimeStepIsValid (timeStep_ r) = true ->
  normalized (stepTime_ r) -> normalized now2 ->
  sleep r now1 now2 = Some (r', evs) ->
  exists step,
    advance (timeStep_ r) (stepTime_ r) = Some step /\ normalized step /\
    sleepEndTime_ r' = (if ts_ltb step now2 then now2 else step) /\
    stepTime_ r' = (if ts_ltb step now2 && negb (enforceRate_ r) then now2 else step) /\
    nanosleeps evs = (if ts_ltb step now2 then [] else [(clockId_ r, step)]).
Proof.
  intros Hv Hst H2 H. apply sleep_inv in H.
  destruct H as (awake & step & d & _ & Hadv & Hd & Hpost).
  pose proof (sleep_post_nanosleeps _ _ _ _ _ _ _ _ Hpost) as Hns.
  destruct Hpost as (_ & _ & _ & _ & _ & _ & _ & Hend & Hstep & _).
  pose proof (advance_normalized _ _ _ Hv (proj1 Hst) Hadv) as Hsn.
  destruct (GetDuration_sign now2 step H2 Hsn (GetDuration_in_range _ _ _ Hd))
    as (d' & Hd' & _ & Hneg).
  rewrite Hd in Hd'. injection Hd' as <-.
  rewrite ltb_zero, Hneg in Hend, Hstep, Hns.
  exists step. repeat (split; [assumption | ]). assumption.
Qed.

(** After every defined call the recorded end of the sleep is the later
    of the clock sample and the advanced target, so it is never before
    either, and the stored target is never after it; when the rate is not
    enforced the stored target is that same instant, so the next target
    is never computed from an instant that has passed. *)
Theorem sleep_end_is_later_of_clock_and_target
        (r : Rate) (now1 now2 : timespec) (r' : Rate) (evs : list event) :
  TimeStepIsValid (timeStep_ r) = true ->
  normalized (stepTime_ r) -> normalized now2 ->
  sleep r now1 now2 = Some (r', evs) ->
  exists step,
    advance (timeStep_ r) (stepTime_ r) = Some step /\
    getSleepEndTime r' = ts_max now2 step /\
    getStepTime r' = (if enforceRate_ r then step else ts_max now2 step) /\
    ts_leb now2 (getSleepEndTime r') = true /\
    ts_leb step (getSleepEndTime r') = true /\
    ts_leb (getStepTime r') (getSleepEndTime r') = true.
Proof.
  intros Hv Hst H2 H.
  destruct (sleep_schedule _ _ _ _ _ Hv Hst H2 H) as (step & Hadv & _ & Hend & Hstep & _).
  rewrite ts_max_spec in Hend.
  assert (Hstep' : stepTime_ r' = if enforceRate_ r then step else ts_max now2 step).
  { rewrite Hstep, <- ts_max_spec.
    destruct (enforceRate_ r), (ts_ltb step now2); reflexivity. }
  destruct (ts_max_ge now2 step) as [G1 G2].
  exists step. unfold getSleepEndTime, getStepTime. rewrite Hend, Hstep'.
  repeat (split; [assumption || reflexivity | ]).
  destruct (enforceRate_ r); [assumption | apply ts_leb_refl].
Qed.

(** A late cycle of the lenient 1 ms pacer: target and end of sleep are
    both the clock sample. *)
Lemma sleep_end_is_later_of_clock_and_target_witness :
  (TimeStepIsValid (timeStep_ pacer_lenient) = true /\
   normalized (stepTime_ pacer_lenient) /\ normalized (mkTimespec 100 12000500)) /\
  exists r' evs,
    sleep pacer_lenient (mkTimespec 100 12000000) (mkTimespec 100 12000500)
      = Some (r', evs) /\
    ts_leb (mkTimespec 100 12000500) (getSleepEndTime r') = true /\
    ts_leb (getStepTime r') (getSleepEndTime r') = true.
Proof.
  assert (Hv : TimeStepIsValid (timeStep_ pacer_lenient) = true) by (vm_compute; reflexivity).
  assert (Hs : normalized (stepTime_ pacer_lenient)) by (vm_compute; split; congruence).
  assert (Hn : normalized (mkTimespec 100 12000500)) by (vm_compute; split; congruence).
  split; [repeat (split; [assumption | ]); assumption | ].
  destruct (sleep pacer_lenient (mkTimespec 100 12000000) (mkTimespec 100 12000500))
    as [[r' evs] | ] eqn:E; [ | vm_compute in E; discriminate].
  exists r', evs. split; [reflexivity | ].
  destruct (sleep_end_is_later_of_clock_and_target pacer_lenient
              (mkTimespec 100 12000000) (mkTimespec 100 12000500) r' evs Hv Hs Hn E)
    as (step & _ & _ & _ & G1 & _ & G3).
  split; assumption.
Defined.

Lemma enforced_step (ra rb : Rate) (a1 a2 b1 b2 : timespec) (ra' rb' : Rate)
      (ea eb : list event) :
  enforceRate_ ra = true -> enforceRate_ rb = true ->
  timeStep_ ra = timeStep_ rb -> stepTime_ ra = stepTime_ rb ->
  sleep ra a1 a2 = Some (ra', ea) -> sleep rb b1 b2 = Some (rb', eb) ->
  enforceRate_ ra' = true /\ enforceRate_ rb' = true /\
  timeStep_ ra' = timeStep_ rb' /\ stepTime_ ra' = stepTime_ rb'.
Proof.
  intros Ha Hb Hts Hst Hsa Hsb.
  apply sleep_inv in Hsa. destruct Hsa as (awa & sa & da & _ & Hadva & _ & Hpa).
  apply sleep_inv in Hsb. destruct Hsb as (awb & sb & db & _ & Hadvb & _ & Hpb).
  destruct Hpa as (_ & A2 & _ & _ & A5 & _ & _ & _ & A9 & _).
  destruct Hpb as (_ & B2 & _ & _ & B5 & _ & _ & _ & B9 & _).
  rewrite Hts, Hst, Hadvb in Hadva. injection Hadva as <-.
  rewrite Ha, andb_false_r in A9. rewrite Hb, andb_false_r in B9.
  repeat split; congruence.
Qed.

(** With the rate enforced, the target does not depend on what the clock
    reads: two loops of the same number of calls from the same state, on
    any two clocks, end with the same target. *)
Theorem enforced_schedule_ignores_clock
        (r : Rate) (clock1 clock2 : list (timespec * timespec))
        (r1 r2 : Rate) (tr1 tr2 : list (list event)) :
  getEnforceRate r = true -> length clock1 = length clock2 ->
  sleeps r clock1 = Some (r1, tr1) -> sleeps r clock2 = Some (r2, tr2) ->
  getStepTime r1 = getStepTime r2.
Proof.
  unfold getEnforceRate, getStepTime. intros He Hlen H1 H2.
  assert (G : forall c1 c2 ra rb ra' rb' ta tb,
             enforceRate_ ra = true -> enforceRate_ rb = true ->
             timeStep_ ra = timeStep_ rb -> stepTime_ ra = stepTime_ rb ->
             length c1 = length c2 ->
             sleeps ra c1 = Some (ra', ta) -> sleeps rb c2 = Some (rb', tb) ->
             stepTime_ ra' = stepTime_ rb').
  { induction c1 as [ | [a1 a2] c1 IH]; intros [ | [b1 b2] c2] ra rb ra' rb' ta tb
      Ea Eb Hts Hst Hl Ha Hb; try discriminate.
    - cbn in Ha, Hb. injection Ha as <- _. injection Hb as <- _. assumption.
    - apply sleeps_cons_inv in Ha. destruct Ha as (ra1 & ea & ta' & Hsa & Hra & _).
      apply sleeps_cons_inv in Hb. destruct Hb as (rb1 & eb & tb' & Hsb & Hrb & _).
      destruct (enforced_step _ _ _ _ _ _ _ _ _ _ Ea Eb Hts Hst Hsa Hsb)
        as (Ea' & Eb' & Hts' & Hst').
      injection Hl as Hl.
      exact (IH c2 ra1 rb1 ra' rb' ta' tb' Ea' Eb' Hts' Hst' Hl Hra Hrb). }
  exact (G clock1 clock2 r r r1 r2 tr1 tr2 He He eq_refl eq_refl Hlen H1 H2).
Qed.

(** The 1 ms pacer on a quiet clock and on a busy one: after three calls
    the target is 100.003 s on both. *)
Lemma enforced_schedule_ignores_clock_witness :
  (getEnforceRate pacer_1ms = true /\ length clock_1ms = length clock_busy) /\
  exists r1 tr1 r2 tr2,
    sleeps pacer_1ms clock_1ms = Some (r1, tr1) /\
    sleeps pacer_1ms clock_busy = Some (r2, tr2) /\
    getStepTime r1 = getStepTime r2.
Proof.
  split; [split; reflexivity | ].
  destruct (sleeps pacer_1ms clock_1ms) as [[r1 tr1] | ] eqn:E1;
    [ | vm_compute in E1; discriminate].
  destruct (sleeps pacer_1ms clock_busy) as [[r2 tr2] | ] eqn:E2;
    [ | vm_compute in E2; discriminate].
  exists r1, tr1, r2, tr2. split; [reflexivity | split; [reflexivity | ]].
  exact (enforced_schedule_ignores_clock pacer_1ms clock_1ms clock_busy r1 r2 tr1 tr2
           eq_refl eq_refl E1 E2).
Defined.

(** ** The move constructor *)

(** A pacer built by the move constructor continues the schedule of its
    source: its next [sleep] computes the same target, takes the same
    decision between waiting and returning, and keeps the same
    configuration and count.  The awake time of that call, though, is
    measured from the end-of-sleep member of the new object, which the
    move constructor does not set, and not from the end of the last sleep
    of the source. *)
Theorem moved_pacer_continues_schedule
        (fresh other : Rate) (now1 now2 : timespec)
        (r1 r2 : Rate) (e1 e2 : list event) :
  sleep other now1 now2 = Some (r1, e1) ->
  sleep (Rate_Rate_move fresh other) now1 now2 = Some (r2, e2) ->
  getStepTime r2 = getStepTime r1 /\
  getSleepEndTime r2 = getSleepEndTime r1 /\
  nanosleeps e2 = nanosleeps e1 /\
  getNumTimeSteps r2 = getNumTimeSteps r1 /\
  getTimeStep r2 = getTimeStep r1 /\ getEnforceRate r2 = getEnforceRate r1 /\
  GetDuration (sleepEndTime_ other) now1 = Some (awakeTime_ r1) /\
  GetDuration (sleepEndTime_ fresh) now1 = Some (awakeTime_ r2).
Proof.
  intros H1 H2.
  pose proof (sleep_count _ _ _ _ _ H1) as Hc1.
  pose proof (sleep_count _ _ _ _ _ H2) as Hc2.
  apply sleep_inv in H1. destruct H1 as (aw1 & s1 & d1 & Haw1 & Hadv1 & Hd1 & Hp1).
  apply sleep_inv in H2. destruct H2 as (aw2 & s2 & d2 & Haw2 & Hadv2 & Hd2 & Hp2).
  cbn [Rate_Rate_move timeStep_ stepTime_ sleepEndTime_] in Hadv2, Haw2.
  rewrite Hadv1 in Hadv2. injection Hadv2 as <-.
  rewrite Hd1 in Hd2. injection Hd2 as <-.
  pose proof (sleep_post_nanosleeps _ _ _ _ _ _ _ _ Hp1) as Hn1.
  pose proof (sleep_post_nanosleeps _ _ _ _ _ _ _ _ Hp2) as Hn2.
  destruct Hp1 as (_ & A2 & _ & _ & A5 & _ & _ & A8 & A9 & _ & A11 & _).
  destruct Hp2 as (_ & B2 & _ & _ & B5 & _ & _ & B8 & B9 & _ & B11 & _).
  cbn [Rate_Rate_move timeStep_ enforceRate_ clockId_ numTimeSteps_] in *.
  unfold getStepTime, getSleepEndTime, getNumTimeSteps, getTimeStep, getEnforceRate.
  rewrite A11, B11.
  repeat split; congruence.
Qed.

(** The 1 ms pacer after one cycle, moved into an object whose timestamps
    are zero: the next call has the same target, and an awake time of
    more than 100 s, which is reported as an error. *)
Lemma moved_pacer_continues_schedule_witness :
  exists r1 r2 e1 e2,
    sleep pacer_after_one (mkTimespec 100 1200000) (mkTimespec 100 1200100)
      = Some (r1, e1) /\
    sleep (Rate_Rate_move (blank (mkTimespec 0 0) S754_nan) pacer_after_one)
          (mkTimespec 100 1200000) (mkTimespec 100 1200100) = Some (r2, e2) /\
    getStepTime r2 = getStepTime r1 /\
    logs e1 = [] /\ length (logs e2) = 1%nat.
Proof.
  destruct (sleep pacer_after_one (mkTimespec 100 1200000) (mkTimespec 100 1200100))
    as [[r1 e1] | ] eqn:E1; [ | vm_compute in E1; discriminate].
  destruct (sleep (Rate_Rate_move (blank (mkTimespec 0 0) S754_nan) pacer_after_one)
                  (mkTimespec 100 1200000) (mkTimespec 100 1200100))
    as [[r2 e2] | ] eqn:E2; [ | vm_compute in E2; discriminate].
  exists r1, r2, e1, e2.
  repeat (split; [reflexivity | ]).
  destruct (moved_pacer_continues_schedule _ _ _ _ _ _ _ _ E1 E2) as (Hst & _).
  split; [exact Hst | ].
  vm_compute in E1, E2.
  injection E1 as _ <-. injection E2 as _ <-.
  split; vm_compute; reflexivity.
Defined.

(** * The sign of a duration *)

Lemma GetDuration_class (s e : timespec) :
  normalized s -> normalized e ->
  Long.in_range (tv_sec e - tv_sec s) = true ->
  exists d, GetDuration s e = Some d /\
            (s = e -> d = S754_zero false) /\
            (s <> e -> exists m e', d = S754_finite (ts_ltb e s) m e').
Proof.
  intros Hs He Hr. unfold normalized, NSecPerSec_ in Hs, He.
  unfold GetDuration, Long.sub. rewrite (checked_some _ Hr). cbn [bind].
  assert (Hrn : Long.in_range (tv_nsec e - tv_nsec s) = true).
  { apply in_range_bounds.
    assert (2 ^ 31 < 2 ^ 63) by (apply Z.pow_lt_mono_r; lia).
    change (2 ^ 31) with 2147483648 in H. lia. }
  rewrite (checked_some _ Hrn). cbn [bind].
  apply in_range_bounds in Hr.
  assert (Heq : s = e <-> tv_sec e - tv_sec s = 0 /\ tv_nsec e - tv_nsec s = 0).
  { destruct s as [ss sn], e as [es en]. cbn [tv_sec tv_nsec]. split.
    - intros [= -> ->]. lia.
    - intros [H1 H2]. f_equal; lia. }
  set (ds := tv_sec e - tv_sec s) in *. set (dn := tv_nsec e - tv_nsec s) in *.
  eexists. split; [reflexivity | ].
  assert (Hlt : ts_ltb e s = (ds <? 0) || ((ds =? 0) && (dn <? 0))).
  { unfold ts_ltb, ds, dn.
    destruct (Z.ltb_spec (tv_sec e) (tv_sec s)), (Z.ltb_spec (tv_sec e - tv_sec s) 0),
             (Z.eqb_spec (tv_sec e) (tv_sec s)), (Z.eqb_spec (tv_sec e - tv_sec s) 0),
             (Z.ltb_spec (tv_nsec e) (tv_nsec s)), (Z.ltb_spec (tv_nsec e - tv_nsec s) 0);
      cbn [orb andb]; try reflexivity; lia. }
  rewrite Hlt. clear Hlt.
  assert (Hdn : - NSecPerSec_ < dn < NSecPerSec_) by (unfold NSecPerSec_, dn; lia).
  destruct (nsec_to_sec dn Hdn) as [Hy0 Hy1]. cbv zeta in Hy0, Hy1.
  set (y := mul (of_Z dn) SecPerNSec_) in *.
  assert (Hds64 : Z.abs ds <= 2 ^ 64).
  { assert (2 ^ 63 < 2 ^ 64) by (apply Z.pow_lt_mono_r; lia).
    hide_pow 63. hide_pow 64. lia. }
  destruct (Z.eq_dec ds 0) as [Hds | Hds].
  - rewrite Hds, of_Z_0. cbn [Z.ltb Z.compare Z.eqb orb andb].
    destruct (Z.eq_dec dn 0) as [Hdn0 | Hdn0].
    + rewrite (Hy0 Hdn0). split; [reflexivity | ].
      intro Hne. exfalso. apply Hne, Heq. split; assumption.
    + destruct (Hy1 Hdn0) as (m & e' & -> & _). split.
      * intro Hse. apply Heq in Hse. tauto.
      * intros _. exists m, e'. reflexivity.
  - split; [intro Hse; apply Heq in Hse; tauto | intros _].
    destruct (sec_to_double ds Hds Hds64) as (mx & ex & Hx & Hex & Hmx).
    assert (Hsgn : (ds <? 0) || ((ds =? 0) && (dn <? 0)) = (ds <? 0)).
    { destruct (Z.eqb_spec ds 0); [contradiction | ]. cbn. apply orb_false_r. }
    rewrite Hsgn. clear Hsgn.
    destruct (Z.eq_dec dn 0) as [Hdn0 | Hdn0].
    + rewrite (Hy0 Hdn0), Hx. exists mx, ex. reflexivity.
    + destruct (Hy1 Hdn0) as (my & ey & Hy & Hey & Hmy).
      rewrite Hx in Hmx |- *. rewrite Hy in Hmy |- *.
      set (T := IV (S754_finite (ds <? 0) mx ex) + IV (S754_finite (dn <? 0) my ey)).
      assert (HT : (T <? 0) = (ds <? 0) /\ T <> 0 /\ T < 2 ^ 2097 /\ - 2 ^ 2097 < T).
      { unfold T, IV. cbn [sign_of].
        assert (H41 : 2 ^ 1141 <= 2 ^ 2097) by (apply Z.pow_le_mono_r; lia).
        change (2 ^ 1141) with (2 * 2 ^ 1140) in H41.
        assert (H74 : 2 ^ 1074 <= 2 ^ 1140) by (apply Z.pow_le_mono_r; lia).
        destruct (ds <? 0), (dn <? 0); cbn [cond_Zopp];
          (split; [first [apply Z.ltb_lt; blia | apply Z.ltb_ge; blia] | blia]). }
      destruct HT as (HTs & HT0 & HThi & HTlo).
      destruct (add_finite_sign (ds <? 0) mx ex (dn <? 0) my ey
                  ltac:(lia) ltac:(lia) HT0 HThi HTlo) as (m & e' & Hadd & _).
      fold T in Hadd. rewrite Hadd, HTs. exists m, e'. reflexivity.
Qed.

(** Rounding never changes the sign of a duration: between normalized
    timestamps whose seconds differ by a [long], [GetDuration] is defined
    and finite, it is negative exactly when the end is before the start,
    positive exactly when the start is before the end, and [+0] exactly
    when the two are the same instant. *)
Theorem GetDuration_sign_is_order (start end_ : timespec) :
  normalized start -> normalized end_ ->
  Long.in_range (tv_sec end_ - tv_sec start) = true ->
  exists d,
    GetDuration start end_ = Some d /\ isfinite d = true /\
    (d < Double.zero)%D = ts_ltb end_ start /\
    (d > Double.zero)%D = ts_ltb start end_ /\
    (start = end_ <-> d = S754_zero false).
Proof.
  intros Hs He Hr.
  destruct (GetDuration_class start end_ Hs He Hr) as (d & Hd & Hz & Hnz).
  exists d. split; [assumption | ].
  destruct (ts_ltb end_ start) eqn:E1.
  - assert (Hne : start <> end_).
    { intros ->. unfold ts_ltb in E1. rewrite !Z.ltb_irrefl, Z.eqb_refl in E1.
      discriminate. }
    destruct (Hnz Hne) as (m & e' & ->).
    rewrite (ts_ltb_asym _ _ E1).
    repeat split; try reflexivity; [contradiction | discriminate].
  - destruct (ts_ltb start end_) eqn:E2.
    + assert (Hne : start <> end_).
      { intros ->. unfold ts_ltb in E2. rewrite !Z.ltb_irrefl, Z.eqb_refl in E2.
        discriminate. }
      destruct (Hnz Hne) as (m & e' & ->).
      repeat split; try reflexivity; [contradiction | discriminate].
    + pose proof (ts_ltb_antisym _ _ E2 E1) as Heq.
      rewrite (Hz Heq). repeat split; try reflexivity. intros _; assumption.
Qed.

(** From 100.9 s back to 100.1 s: eight tenths of a second, negative. *)
Lemma GetDuration_sign_is_order_witness :
  (normalized (mkTimespec 100 900000000) /\ normalized (mkTimespec 100 100000000) /\
   Long.in_range (100 - 100) = true) /\
  exists d,
    GetDuration (mkTimespec 100 900000000) (mkTimespec 100 100000000) = Some d /\
    (d < Double.zero)%D = true /\ (d > Double.zero)%D = false.
Proof.
  assert (H1 : normalized (mkTimespec 100 900000000)) by (vm_compute; split; congruence).
  assert (H2 : normalized (mkTimespec 100 100000000)) by (vm_compute; split; congruence).
  assert (H3 : Long.in_range (100 - 100) = true) by reflexivity.
  split; [repeat (split; [assumption | ]); assumption | ].
  destruct (GetDuration_sign_is_order (mkTimespec 100 900000000)
              (mkTimespec 100 100000000) H1 H2 H3) as (d & Hd & _ & Hlt & Hgt & _).
  exists d. split; [exact Hd | ]. split; [exact Hlt | exact Hgt].
Defined.

(** * How far the target is from the ideal schedule *)

Lemma unit_upper (c T u B : Z) :
  unit_of c T u -> 1074 <= c -> c - 1074 <= B - 52 -> T < 2 ^ B ->
  u <= 2 ^ (B - 52).
Proof.
  intros (j & Hj & -> & Hu & Hl) Hc HB HT.
  apply Z.pow_le_mono_r; [lia | ].
  destruct Hl as [Hl | ->]; [ | lia].
  assert (H : 2 ^ (52 + j) < 2 ^ B).
  { rewrite pow2_split by lia. lia. }
  apply Z.pow_lt_mono_r_iff in H; lia.
Qed.

Lemma scaled_near (a b w E : Z) :
  0 < E -> Z.abs (a * E - b * E) < w * E -> Z.abs (a - b) < w.
Proof.
  intros HE H. rewrite <- Z.mul_sub_distr_r in H.
  rewrite Z.abs_mul, (Z.abs_eq E) in H by lia.
  apply (Z.mul_lt_mono_pos_r E); assumption.
Qed.

Lemma of_Z_1024 : Double.of_Z 1024 = S754_finite false 4503599627370496 (-42).
Proof. vm_compute. reflexivity. Qed.

Lemma ltb_1024 (m : positive) (e : Z) :
  ltb (S754_finite false m e) (Double.of_Z 1024) = true ->
  -1074 <= e -> Zpos m < 2 ^ 53 ->
  mag (S754_finite false m e) < 1024 * 2 ^ 1074.
Proof.
  intros Hlt He Hm. rewrite of_Z_1024 in Hlt.
  unfold ltb, SFltb, SFcompare in Hlt. cbn [mag].
  revert Hlt.
  destruct (Z.compare_spec e (-42)) as [Heq | Hlt' | Hgt]; try discriminate.
  - subst e. intro Hlt. change (-42 + 1074) with 1032.
    change (1024 * 2 ^ 1074) with (4503599627370496 * 2 ^ 1032).
    assert (Hc : (m ?= 4503599627370496)%positive = Lt).
    { unfold Pos.compare. destruct (Pos.compare_cont Eq m 4503599627370496);
        try discriminate. reflexivity. }
    assert (Hz : Zpos m < 4503599627370496) by (apply Pos2Z.pos_lt_pos; exact Hc).
    clear Hc Hlt.
    apply Z.mul_lt_mono_pos_r; [apply pow2_pos; lia | exact Hz].
  - intros _. assert (H : 2 ^ (e + 1074) <= 2 ^ 1031) by (apply Z.pow_le_mono_r; lia).
    change (1024 * 2 ^ 1074) with (2 ^ 53 * 2 ^ 1031).
    pose proof (pow2_pos (e + 1074) ltac:(lia)) as Hp.
    apply Z.lt_le_trans with (2 ^ 53 * 2 ^ (e + 1074)).
    + apply Z.mul_lt_mono_pos_r; assumption.
    + apply Z.mul_le_mono_nonneg_l; [apply Z.pow_nonneg; lia | assumption].
Qed.

(** The sum that [sleep] converts back to [tv_nsec], for a time step
    below 1024 s: its magnitude [S], in units of [2^-1074] ns, is within
    [2^-10] ns of the exact sum, and the conversion takes its integral
    part. *)
Lemma step_near (ts : double) (nsec n : Z) :
  TimeStepIsValid ts = true -> valid_binary prec emax ts = true ->
  mag ts < 1024 * 2 ^ 1074 ->
  0 <= nsec < NSecPerSec_ ->
  to_long (add (of_Z nsec) (mul ts (of_Z NSecPerSec_))) = Some n ->
  exists S, n = S / 2 ^ 1074 /\ 0 <= S /\
            Z.abs (S - (nsec * 2 ^ 1074 + mag ts * NSecPerSec_)) < 2 ^ 1064.
Proof.
  intros Hv Hb Hmts Hn. rewrite NSecPerSec_double. unfold NSecPerSec_ in Hn |- *.
  assert (H53 : nsec < 2 ^ 53) by (change (2 ^ 53) with 9007199254740992; lia).
  pose proof (valid_nonneg ts Hv) as Hnn.
  pose proof (pow2_pos 1074 ltac:(lia)) as HE.
  pose proof (pow2_pos 1064 ltac:(lia)) as H1064.
  destruct ts as [s | [ | ] | | [ | ] mt et]; cbn [nonneg] in Hnn; try contradiction.
  - cbn [mul SFmul]. rewrite add_zero_r by lia. intros [= <-].
    exists (nsec * 2 ^ 1074). cbn [mag].
    split; [symmetry; apply Z.div_mul; lia | ].
    split; [apply Z.mul_nonneg_nonneg; lia | ].
    replace (nsec * 2 ^ 1074 - (nsec * 2 ^ 1074 + 0 * 1000000000)) with 0 by ring.
    exact H1064.
  - cbn in Hv. discriminate.
  - pose proof (valid_binary_wf _ Hb eq_refl) as Hwf. cbn [wf] in Hwf.
    pose proof (mag_pos_finite false mt et ltac:(lia)) as Hmt0.
    destruct (SFmul_finite false mt et false 8388608000000000 (-23)
                ltac:(lia) ltac:(lia) ltac:(right; cbn; lia)) as (u & R & Hu & Hf & Hr).
    cbv zeta in Hu, Hf, Hr. cbn [xorb] in Hr.
    set (p := mul _ _) in *. clearbody p.
    set (K := mag (S754_finite false mt et)) in *. clearbody K.
    cbn [mag] in Hu, Hf. change (-23 + 1074) with 1051 in Hu, Hf.
    assert (HT : K * (8388608000000000 * 2 ^ 1051) = K * 1000000000 * 2 ^ 1074).
    { change (2 ^ 1074) with (2 ^ 23 * 2 ^ 1051). change (2 ^ 23) with 8388608.
      generalize (2 ^ 1051). intro A. ring. }
    rewrite HT in Hu, Hf. clear HT.
    set (T := K * 1000000000 * 2 ^ 1074) in *.
    assert (HTlo : 2 ^ 1074 <= T).
    { unfold T. hide_pow 1074. nia. }
    assert (HThi : T < 2 ^ 2188).
    { unfold T. change (2 ^ 2188) with (2 ^ 40 * 2 ^ 1074 * 2 ^ 1074).
      change (2 ^ 40) with 1099511627776.
      apply Z.mul_lt_mono_pos_r; [assumption | ].
      hide_pow 1074. lia. }
    pose proof (unit_le_product _ _ Hu HTlo) as Hule.
    pose proof (unit_upper 2148 T u 2188 Hu ltac:(lia) ltac:(lia) HThi) as Huhi.
    change (2188 - 52) with 2136 in Huhi.
    destruct (faithfulZ_near T u R ltac:(lia) ltac:(lia) Hf) as [HRn HR0].
    pose proof (faithfulZ_pos _ _ _ Hule Hf) as HRpos.
    destruct Hr as [HRz | mp ep Hep Hmp HRp | Hov].
    + lia.
    + assert (Hs : Zpos mp * 2 ^ (ep + 2148) = Zpos mp * 2 ^ (ep + 1074) * 2 ^ 1074).
      { replace (ep + 2148) with ((ep + 1074) + 1074) by lia.
        rewrite pow2_split by lia. generalize (2 ^ 1074) (2 ^ (ep + 1074)).
        intros A B. ring. }
      rewrite Hs in HRp. clear Hs.
      set (Mp := Zpos mp * 2 ^ (ep + 1074)) in *.
      assert (HMp0 : 0 < Mp) by (unfold Mp; apply (mag_pos_finite false mp ep); lia).
      assert (Hnear : Z.abs (Mp - K * 1000000000) < 2 ^ 1062).
      { apply (scaled_near _ _ _ (2 ^ 1074) HE).
        change (2 ^ 1062 * 2 ^ 1074) with (2 ^ 2136).
        rewrite HRp. fold T. clearbody T Mp. hide_pow 2136. hide_pow 1074. lia. }
      assert (HMphi : Mp < 2 ^ 1114 + 2 ^ 1062).
      { assert (K * 1000000000 < 2 ^ 1114).
        { change (2 ^ 1114) with (2 ^ 40 * 2 ^ 1074).
          change (2 ^ 40) with 1099511627776. hide_pow 1074. lia. }
        clearbody Mp. hide_pow 1114. hide_pow 1062. lia. }
      assert (H62 : 2 ^ 1062 + 2 ^ 1063 < 2 ^ 1064).
      { change (2 ^ 1063) with (2 * 2 ^ 1062). change (2 ^ 1064) with (4 * 2 ^ 1062).
        pose proof (pow2_pos 1062 ltac:(lia)). hide_pow 1062. lia. }
      destruct (Z.eq_dec nsec 0) as [-> | Hn0].
      { rewrite of_Z_0. cbn [add SFadd]. rewrite to_long_finite by lia.
        cbn [cond_Zopp mag]. fold Mp.
        unfold Long.checked. destruct (Long.in_range _); [ | discriminate].
        intros [= <-]. exists Mp.
        split; [reflexivity | ]. split; [lia | ].
        rewrite Z.mul_0_l, Z.add_0_l.
        pose proof (pow2_pos 1063 ltac:(lia)).
        clearbody Mp. hide_pow 1062. hide_pow 1063. hide_pow 1064. lia. }
      destruct (of_Z_mag nsec Hn0 ltac:(lia)) as (ma & ea & Heq & Hea & _ & Hmag).
      assert (Hs : (nsec <? 0) = false) by (apply Z.ltb_ge; lia).
      rewrite Heq, Hs in *.
      rewrite Z.abs_eq in Hmag by lia.
      set (T' := IV (S754_finite false ma ea) + IV (S754_finite false mp ep)).
      assert (HT' : T' = nsec * 2 ^ 1074 + Mp).
      { unfold T', IV. cbn [sign_of cond_Zopp]. rewrite Hmag. reflexivity. }
      assert (HT'pos : 0 < T').
      { rewrite HT'. clearbody Mp. hide_pow 1074. nia. }
      assert (HT'hi : T' < 2 ^ 1115).
      { rewrite HT'. change (2 ^ 1115) with (2 * 2 ^ 1114).
        assert (nsec * 2 ^ 1074 < 2 ^ 1113).
        { change (2 ^ 1113) with (2 ^ 39 * 2 ^ 1074).
          change (2 ^ 39) with 549755813888.
          apply Z.mul_lt_mono_pos_r; [assumption | lia]. }
        assert (2 ^ 1062 < 2 ^ 1113) by (apply Z.pow_lt_mono_r; lia).
        change (2 ^ 1114) with (2 * 2 ^ 1113) in *.
        clearbody Mp T'. hide_pow 1074. hide_pow 1113. hide_pow 1062.
        lia. }
      assert (H2097 : 2 ^ 1115 < 2 ^ 2097) by (apply Z.pow_lt_mono_r; lia).
      destruct (add_finite_sign false ma ea false mp ep ltac:(lia) ltac:(lia))
        as (m & e & Hadd & He & Hm & u' & Hu' & Hf'); fold T'.
      * lia.
      * clearbody T'. hide_pow 1115. hide_pow 2097. lia.
      * clearbody T'. hide_pow 2097. lia.
      * fold T' in Hadd, Hu', Hf'.
        assert ((T' <? 0) = false) as Hsg by (apply Z.ltb_ge; lia).
        rewrite Hsg in Hadd. rewrite Hadd in Hf' |- *.
        rewrite (Z.abs_eq T') in Hu', Hf' by lia.
        pose proof (unit_le _ _ Hu' HT'pos) as Hule'.
        pose proof (unit_upper 1074 T' u' 1115 Hu' ltac:(lia) ltac:(lia) HT'hi) as Hu'hi.
        change (1115 - 52) with 1063 in Hu'hi.
        destruct (faithfulZ_near T' u' _ ltac:(lia) ltac:(lia) Hf') as [HSn HS0].
        rewrite to_long_finite by lia. cbn [cond_Zopp].
        set (S := mag (S754_finite false m e)) in *.
        unfold Long.checked. destruct (Long.in_range _); [ | discriminate].
        intros [= <-]. exists S.
        split; [reflexivity | ]. split; [assumption | ].
        clearbody S T' Mp. hide_pow 1074. hide_pow 1062. hide_pow 1063. hide_pow 1064.
        lia.
    + destruct (of_Z nsec) as [[ | ] | [ | ] | | [ | ] ? ?]; cbn; discriminate.
Qed.

Lemma lt_1024_mag (ts : double) :
  TimeStepIsValid ts = true -> is_binary64 ts ->
  (ts < Double.of_Z 1024)%D = true ->
  mag ts < 1024 * 2 ^ 1074.
Proof.
  intros Hv Hb Hlt. pose proof (valid_nonneg ts Hv) as Hnn.
  destruct ts as [s | [ | ] | | [ | ] m e]; cbn [nonneg] in Hnn; try contradiction.
  - cbn [mag]. pose proof (pow2_pos 1074 ltac:(lia)). lia.
  - cbn in Hv. discriminate.
  - pose proof (valid_binary_wf _ Hb eq_refl) as Hwf. cbn [wf] in Hwf.
    apply ltb_1024; [assumption | lia | lia].
Qed.

(** One advance of the target, in whole numbers: [1024 * 2^1074] times
    the distance between the nanoseconds gained and the exact
    [timeStep * 10^9]. *)
Lemma advance_near_scaled (ts : double) (t t' : timespec) :
  TimeStepIsValid ts = true -> is_binary64 ts ->
  (ts < Double.of_Z 1024)%D = true -> normalized t ->
  advance ts t = Some t' ->
  - (1025 * 2 ^ 1074)
    < 1024 * ((nanos t' - nanos t) * 2 ^ 1074 - mag ts * NSecPerSec_)
    < 2 ^ 1074.
Proof.
  intros Hv Hb Hlt Hn Ha.
  destruct (advance_nanos _ _ _ Ha) as (n & Hl & Hnanos).
  destruct (step_near ts (tv_nsec t) n Hv Hb (lt_1024_mag _ Hv Hb Hlt) Hn Hl)
    as (S & HS & HS0 & Hnear).
  pose proof (pow2_pos 1074 ltac:(lia)) as HE.
  pose proof (Z.mul_div_le S (2 ^ 1074) HE) as Hlo.
  pose proof (Z.mul_succ_div_gt S (2 ^ 1074) HE) as Hhi.
  rewrite <- HS in Hlo, Hhi.
  assert (Hd : nanos t' - nanos t = n - tv_nsec t).
  { rewrite Hnanos. unfold nanos. ring. }
  rewrite Hd. clear Hd Hnanos Hl Ha HS.
  change (2 ^ 1074) with (1024 * 2 ^ 1064) in *.
  set (K := mag ts * NSecPerSec_) in *. clearbody K.
  hide_pow 1064. nia.
Qed.

Lemma to_Q_mag (x : double) :
  nonneg x -> wf x ->
  (to_Q x * inject_Z (2 ^ 1074) == inject_Z (mag x))%Q.
Proof.
  destruct x as [s | [ | ] | | [ | ] m e]; cbn [nonneg wf]; try contradiction;
    intros _ Hwf.
  - cbn [to_Q mag]. ring.
  - cbn [to_Q mag]. rewrite inject_Z_mult.
    rewrite !Zpower_Qpower by lia.
    change (inject_Z 2) with (2 # 1)%Q.
    rewrite (Qpower_plus (2 # 1) e 1074) by discriminate. ring.
Qed.

(** One advance of the target, in nanoseconds: for a valid time step
    below 1024 s the target gains the exact [timeStep * 10^9] less the
    fraction of a nanosecond that the conversion to [long] drops, up to
    a rounding error of [2^-10] ns. *)
Lemma advance_near (ts : double) (t t' : timespec) :
  TimeStepIsValid ts = true -> is_binary64 ts ->
  (ts < Double.of_Z 1024)%D = true -> normalized t ->
  advance ts t = Some t' ->
  (- (1025 # 1024)
   < inject_Z (nanos t') - inject_Z (nanos t) - to_Q ts * inject_Z NSecPerSec_
   < 1 # 1024)%Q.
Proof.
  intros Hv Hb Hlt Hn Ha.
  pose proof (advance_near_scaled ts t t' Hv Hb Hlt Hn Ha) as [H1 H2].
  pose proof (pow2_pos 1074 ltac:(lia)) as HE.
  assert (Hwf : wf ts).
  { apply valid_binary_wf; [assumption | ].
    apply TimeStepIsValid_iff in Hv. apply Hv. }
  pose proof (to_Q_mag ts (valid_nonneg ts Hv) Hwf) as HQ.
  set (E := 2 ^ 1074) in *. clearbody E.
  rewrite Zlt_Qlt in H1, H2, HE. unfold Z.sub in H1, H2.
  repeat first [rewrite inject_Z_mult in H1 | rewrite inject_Z_plus in H1
               | rewrite inject_Z_opp in H1].
  repeat first [rewrite inject_Z_mult in H2 | rewrite inject_Z_plus in H2
               | rewrite inject_Z_opp in H2].
  rewrite <- HQ in H1, H2.
  set (e := inject_Z E) in *. clearbody e.
  set (a := inject_Z (nanos t')) in *. set (b := inject_Z (nanos t)) in *.
  set (q := to_Q ts) in *. set (c := inject_Z NSecPerSec_) in *.
  clearbody a b q c.
  change (inject_Z 1024) with (1024 # 1)%Q in *.
  change (inject_Z 1025) with (1025 # 1)%Q in *.
  change (inject_Z 0) with 0%Q in HE.
  split.
  - apply (Qmult_lt_r _ _ ((1024 # 1) * e)); [nra | ].
    apply Qle_lt_trans with (- ((1025 # 1) * e))%Q; [apply Qle_lteq; right; field | ].
    eapply Qlt_le_trans; [exact H1 | apply Qle_lteq; right; ring].
  - apply (Qmult_lt_r _ _ ((1024 # 1) * e)); [nra | ].
    apply Qlt_le_trans with e; [ | apply Qle_lteq; right; field].
    eapply Qle_lt_trans; [ | exact H2]. apply Qle_lteq; right; ring.
Qed.

Lemma enforced_sleep_target (r : Rate) (now1 now2 : timespec) (r' : Rate)
      (evs : list event) :
  enforceRate_ r = true ->
  sleep r now1 now2 = Some (r', evs) ->
  advance (timeStep_ r) (stepTime_ r) = Some (stepTime_ r') /\
  timeStep_ r' = timeStep_ r /\ enforceRate_ r' = true.
Proof.
  intros He H. apply sleep_inv in H.
  destruct H as (awake & step & d & _ & Hadv & _ & Hpost).
  destruct Hpost as (_ & H2 & _ & _ & H5 & _ & _ & _ & H9 & _).
  rewrite He, andb_false_r in H9. rewrite H9, H2, H5. auto.
Qed.

Lemma enforced_loop_near (clock : list (timespec * timespec)) (r r' : Rate)
      (tr : list (list event)) :
  TimeStepIsValid (timeStep_ r) = true -> is_binary64 (timeStep_ r) ->
  (timeStep_ r < Double.of_Z 1024)%D = true ->
  enforceRate_ r = true -> normalized (stepTime_ r) ->
  sleeps r clock = Some (r', tr) ->
  timeStep_ r' = timeStep_ r /\
  (- (1025 # 1024) * inject_Z (Z.of_nat (length clock))
   <= drift r' (stepTime_ r) (Z.of_nat (length clock))
   <= (1 # 1024) * inject_Z (Z.of_nat (length clock)))%Q.
Proof.
  revert r tr. induction clock as [ | [a b] clock IH]; intros r tr Hv Hb Hlt He Hn H.
  - cbn in H. injection H as <- _. split; [reflexivity | ].
    unfold drift. cbn [length Z.of_nat]. change (inject_Z 0) with 0%Q.
    split; apply Qle_lteq; right; ring.
  - apply sleeps_cons_inv in H. destruct H as (r1 & evs & tr' & Hs & Hrest & _).
    destruct (enforced_sleep_target _ _ _ _ _ He Hs) as (Hadv & Hts & He1).
    pose proof (advance_normalized _ _ _ Hv (proj1 Hn) Hadv) as Hn1.
    pose proof (advance_near _ _ _ Hv Hb Hlt Hn Hadv) as [N1 N2].
    rewrite <- Hts in Hv, Hb, Hlt.
    destruct (IH r1 tr' Hv Hb Hlt He1 Hn1 Hrest) as (Hts' & I1 & I2).
    split; [congruence | ].
    unfold drift in *. cbn [length]. rewrite Nat2Z.inj_succ, <- Z.add_1_r.
    rewrite inject_Z_plus. change (inject_Z 1) with 1%Q.
    rewrite Hts' in *. rewrite Hts in *.
    set (n := inject_Z (Z.of_nat (length clock))) in *.
    set (x := inject_Z (nanos (stepTime_ r'))) in *.
    set (y := inject_Z (nanos (stepTime_ r1))) in *.
    set (z := inject_Z (nanos (stepTime_ r))) in *.
    set (q := to_Q (timeStep_ r)) in *. set (k := inject_Z NSecPerSec_) in *.
    clearbody n x y z q k.
    split; lra.
Qed.

(** With the rate enforced and a valid time step below 1024 s, the target
    after [N] calls since [reset] is never ahead of the ideal
    [reset time + N * timeStep] by more than [N * 2^-10] ns, and never
    behind it by more than [N * (1 + 2^-10)] ns: each call drops less
    than one nanosecond, and nothing else accumulates. *)
Theorem enforced_target_near_ideal
        (r0 : Rate) (now : timespec) (clock : list (timespec * timespec))
        (r' : Rate) (tr : list (list event)) :
  TimeStepIsValid (timeStep_ r0) = true -> is_binary64 (timeStep_ r0) ->
  (timeStep_ r0 < Double.of_Z 1024)%D = true ->
  getEnforceRate r0 = true -> normalized now ->
  sleeps (reset r0 now) clock = Some (r', tr) ->
  (- (1025 # 1024) * inject_Z (Z.of_nat (length clock))
   <= drift r' now (Z.of_nat (length clock))
   <= (1 # 1024) * inject_Z (Z.of_nat (length clock)))%Q.
Proof.
  intros Hv Hb Hlt He Hn H.
  apply (enforced_loop_near clock (reset r0 now) r' tr); assumption.
Qed.

(** Thirty cycles at 30 Hz: the target is within 31 ns of the ideal. *)
Lemma enforced_target_near_ideal_witness :
  (TimeStepIsValid (timeStep_ pacer_30hz) = true /\ is_binary64 (timeStep_ pacer_30hz) /\
   (timeStep_ pacer_30hz < Double.of_Z 1024)%D = true /\
   getEnforceRate pacer_30hz = true /\ normalized (mkTimespec 100 0)) /\
  exists r' tr,
    sleeps pacer_30hz clock_30hz = Some (r', tr) /\
    (- (1025 # 1024) * inject_Z 30 <= drift r' (mkTimespec 100 0) 30
     <= (1 # 1024) * inject_Z 30)%Q.
Proof.
  assert (Hv : TimeStepIsValid (timeStep_ pacer_30hz) = true) by (vm_compute; reflexivity).
  assert (Hb : is_binary64 (timeStep_ pacer_30hz)) by (vm_compute; reflexivity).
  assert (Hlt : (timeStep_ pacer_30hz < Double.of_Z 1024)%D = true)
    by (vm_compute; reflexivity).
  assert (He : getEnforceRate pacer_30hz = true) by reflexivity.
  assert (Hn : normalized (mkTimespec 100 0)) by (vm_compute; split; congruence).
  split; [repeat (split; [assumption | ]); assumption | ].
  destruct (sleeps pacer_30hz clock_30hz) as [[r' tr] | ] eqn:E;
    [ | vm_compute in E; discriminate].
  exists r', tr. split; [reflexivity | ].
  exact (enforced_target_near_ideal pacer_30hz (mkTimespec 100 0) clock_30hz r' tr
           Hv Hb Hlt He Hn E).
Defined.

(** * The life cycle of a node *)

Section NodeLifeCycle.

Context {S : Type} `{Nodewrap.NodeImpl S}.

Lemma count_calls_app (p : Nodewrap.call -> bool) (a b : list Nodewrap.call) :
  count_calls p (a ++ b) = (count_calls p a + count_calls p b)%nat.
Proof. unfold count_calls. now rewrite filter_app, length_app. Qed.

Lemma deliver_done (w w' : Nodewrap.state S) (q : Nodewrap.request)
      (c : list Nodewrap.call) :
  Nodewrap.deliver w q = Nodewrap.Done w' c ->
  Nodewrap.signalHandlerInstalled_ w' = Nodewrap.signalHandlerInstalled_ w /\
  Nodewrap.impl_ w' = Nodewrap.impl_ w /\
  count_calls is_bind c = 0%nat /\ count_calls is_unbind c = 0%nat /\
  (stops w q = true -> Nodewrap.running_ w' = false) /\
  (stops w q = false -> w' = w).
Proof.
  destruct q as [ | signum]; unfold Nodewrap.deliver, Nodewrap.signalHandler,
    Nodewrap.stop; cbn [stops].
  - intros [= <- <-]. repeat split; discriminate.
  - destruct (Nodewrap.signalHandlerInstalled_ w) eqn:E.
    + destruct (signum =? Nodewrap.SIGSEGV); [discriminate | ].
      intros [= <- <-]. cbn. rewrite E. repeat split; discriminate.
    + intros [= <- <-]. rewrite E. repeat split; discriminate.
Qed.

Lemma deliver_total (w : Nodewrap.state S) (q : Nodewrap.request) :
  kills w q = false -> exists w' c, Nodewrap.deliver w q = Nodewrap.Done w' c.
Proof.
  destruct q as [ | signum]; unfold Nodewrap.deliver, Nodewrap.signalHandler,
    Nodewrap.stop; cbn [kills].
  - intros _. eauto.
  - destruct (Nodewrap.signalHandlerInstalled_ w); cbn [andb]; [ | eauto].
    intros ->. eauto.
Qed.

Lemma deliver_all_done (qs : list Nodewrap.request) (w w' : Nodewrap.state S)
      (c : list Nodewrap.call) :
  Nodewrap.deliver_all w qs = Nodewrap.Done w' c ->
  Nodewrap.signalHandlerInstalled_ w' = Nodewrap.signalHandlerInstalled_ w /\
  Nodewrap.impl_ w' = Nodewrap.impl_ w /\
  count_calls is_bind c = 0%nat /\ count_calls is_unbind c = 0%nat.
Proof.
  revert w c. induction qs as [ | q qs IH]; intros w c; cbn [Nodewrap.deliver_all].
  - intros [= <- <-]. repeat split.
  - destruct (Nodewrap.deliver w q) as [w1 c1 | | ] eqn:E1; try discriminate.
    destruct (Nodewrap.deliver_all w1 qs) as [w2 c2 | | ] eqn:E2; try discriminate.
    intros [= <- <-].
    destruct (deliver_done _ _ _ _ E1) as (A1 & A2 & A3 & A4 & _).
    destruct (IH _ _ E2) as (B1 & B2 & B3 & B4).
    rewrite !count_calls_app, A3, A4, B3, B4. repeat split; congruence.
Qed.

Lemma deliver_all_total (qs : list Nodewrap.request) (w : Nodewrap.state S) :
  Forall (fun q => kills w q = false) qs ->
  exists w' c, Nodewrap.deliver_all w qs = Nodewrap.Done w' c.
Proof.
  revert w. induction qs as [ | q qs IH]; intros w Hk; cbn [Nodewrap.deliver_all].
  - eauto.
  - inversion Hk as [ | ? ? Hq Hqs]; subst.
    destruct (deliver_total w q Hq) as (w1 & c1 & E1). rewrite E1.
    destruct (deliver_done _ _ _ _ E1) as (A1 & _).
    destruct (IH w1) as (w2 & c2 & ->); [ | eauto].
    eapply Forall_impl; [ | exact Hqs].
    intros q'. destruct q'; cbn [kills]; [auto | now rewrite A1].
Qed.

Lemma run_done (qs : list Nodewrap.request) (w w' : Nodewrap.state S)
      (c : list Nodewrap.call) :
  Nodewrap.run w qs = Nodewrap.Done w' c ->
  Nodewrap.signalHandlerInstalled_ w' = Nodewrap.signalHandlerInstalled_ w /\
  Nodewrap.impl_ w' = Nodewrap.impl_ w /\ Nodewrap.running_ w' = false /\
  count_calls is_bind c = 0%nat /\ count_calls is_unbind c = 0%nat /\
  (Nodewrap.running_ w = true -> Exists (fun q => stops w q = true) qs).
Proof.
  revert w c. induction qs as [ | q qs IH]; intros w c.
  - cbn [Nodewrap.run]. destruct (Nodewrap.running_ w) eqn:Er; cbn [negb];
      [discriminate | ].
    intros [= <- <-]. repeat split; try assumption. discriminate.
  - cbn [Nodewrap.run]. destruct (Nodewrap.running_ w) eqn:Er; cbn [negb].
    + destruct (Nodewrap.deliver w q) as [w1 c1 | | ] eqn:E1; try discriminate.
      destruct (Nodewrap.run w1 qs) as [w2 c2 | | ] eqn:E2; try discriminate.
      intros [= <- <-].
      destruct (deliver_done _ _ _ _ E1) as (A1 & A2 & A3 & A4 & A5 & A6).
      destruct (IH _ _ E2) as (B1 & B2 & B3 & B4 & B5 & B6).
      rewrite !count_calls_app, A3, A4, B4, B5.
      repeat split; try congruence.
      intros _. destruct (stops w q) eqn:Es; [now left | right].
      rewrite (A6 eq_refl) in B6. exact (B6 Er).
    + intros [= <- <-]. repeat split; try assumption. discriminate.
Qed.

Lemma run_total (qs : list Nodewrap.request) (w : Nodewrap.state S) :
  Forall (fun q => kills w q = false) qs ->
  Exists (fun q => stops w q = true) qs ->
  exists w' c, Nodewrap.run w qs = Nodewrap.Done w' c.
Proof.
  revert w. induction qs as [ | q qs IH]; intros w Hk Hs.
  - inversion Hs.
  - cbn [Nodewrap.run]. destruct (Nodewrap.running_ w) eqn:Er; cbn [negb]; [ | eauto].
    inversion Hk as [ | ? ? Hq Hqs]; subst.
    destruct (deliver_total w q Hq) as (w1 & c1 & E1). rewrite E1.
    destruct (deliver_done _ _ _ _ E1) as (A1 & _ & _ & _ & A5 & A6).
    destruct (stops w q) eqn:Es.
    + destruct qs as [ | q' qs']; cbn [Nodewrap.run]; rewrite (A5 eq_refl);
        cbn [negb]; eauto.
    + rewrite (A6 eq_refl). inversion Hs as [? ? Hq' | ? ? Hqs']; subst;
        [congruence | ].
      destruct (IH w Hqs Hqs') as (w2 & c2 & ->). eauto.
Qed.

Lemma init_done (w : Nodewrap.state S) (during : list Nodewrap.request)
      (ok : bool) (w1 : Nodewrap.state S) (c : list Nodewrap.call) :
  Nodewrap.init w during = Nodewrap.Done (ok, w1) c ->
  ok = fst (Nodewrap.impl_init (Nodewrap.impl_ w)) /\
  Nodewrap.impl_ w1 = snd (Nodewrap.impl_init (Nodewrap.impl_ w)) /\
  Nodewrap.signalHandlerInstalled_ w1 = Nodewrap.signalHandlerInstalled_ w /\
  (ok = true -> Nodewrap.running_ w1 = true) /\
  count_calls is_bind c = (if Nodewrap.signalHandlerInstalled_ w then 1 else 0)%nat /\
  count_calls is_unbind c = 0%nat.
Proof.
  unfold Nodewrap.init.
  destruct (Nodewrap.impl_init (Nodewrap.impl_ w)) as [ok' s] eqn:Ei.
  destruct (Nodewrap.deliver_all _ during) as [w2 c2 | | ] eqn:Ed; try discriminate.
  destruct (deliver_all_done _ _ _ _ Ed) as (A1 & A2 & A3 & A4).
  cbn [Nodewrap.with_impl Nodewrap.signalHandlerInstalled_ Nodewrap.impl_] in A1, A2.
  destruct ok'; cbn [negb]; intros [= <- <- <-]; cbn [fst snd];
    rewrite !count_calls_app, ?A3, ?A4;
    (repeat split; try assumption; try discriminate;
     try (destruct (Nodewrap.signalHandlerInstalled_ w); reflexivity)).
Qed.

(** Whenever [execute] returns, it returns what the [init] of the node
    returned, it has run the cleanup (unbinding the signal handler if it
    had bound it, then [preCleanup], [stopAllWorkers], the stop of the
    spinner and [cleanup], in this order) as its last calls, whether
    [init] succeeded or not, and it has bound and unbound the signal
    handler equally often. *)
Theorem execute_always_cleans_up
        (w w' : Nodewrap.state S) (during waiting : list Nodewrap.request)
        (initSuccess : bool) (calls : list Nodewrap.call) :
  Nodewrap.execute w during waiting = Nodewrap.Done (initSuccess, w') calls ->
  initSuccess = fst (Nodewrap.impl_init (Nodewrap.impl_ w)) /\
  Nodewrap.impl_ w' =
    Nodewrap.impl_cleanup
      (Nodewrap.impl_stopAllWorkers
         (Nodewrap.impl_preCleanup (snd (Nodewrap.impl_init (Nodewrap.impl_ w))))) /\
  (exists before,
      calls = before
              ++ (if Nodewrap.signalHandlerInstalled_ w then [Nodewrap.UnbindAll] else [])
              ++ [Nodewrap.ImplPreCleanup; Nodewrap.ImplStopAllWorkers;
                  Nodewrap.SpinnerStop; Nodewrap.ImplCleanup]) /\
  count_calls is_bind calls = count_calls is_unbind calls /\
  (initSuccess = true -> Nodewrap.running_ w' = false).
Proof.
  unfold Nodewrap.execute.
  destruct (Nodewrap.init w during) as [[ok w1] c1 | | ] eqn:Ei; try discriminate.
  destruct (init_done _ _ _ _ _ Ei) as (I1 & I2 & I3 & I4 & I5 & I6).
  destruct ok.
  - destruct (Nodewrap.run w1 waiting) as [w2 c2 | | ] eqn:Er; try discriminate.
    destruct (run_done _ _ _ _ Er) as (R1 & R2 & R3 & R4 & R5 & _).
    unfold Nodewrap.cleanup. intros [= <- <- <-].
    cbn [Nodewrap.with_impl Nodewrap.impl_ Nodewrap.running_].
    rewrite R1, I3, R2, I2.
    split; [assumption | ]. split; [reflexivity | ].
    split; [exists (c1 ++ c2); now rewrite app_assoc | ].
    split; [ | auto].
    rewrite !count_calls_app, I5, I6, R4, R5.
    destruct (Nodewrap.signalHandlerInstalled_ w); reflexivity.
  - unfold Nodewrap.cleanup. intros [= <- <- <-].
    cbn [Nodewrap.with_impl Nodewrap.impl_ Nodewrap.running_].
    rewrite I3, I2.
    split; [assumption | ]. split; [reflexivity | ].
    split; [exists c1; reflexivity | ].
    split; [ | discriminate].
    rewrite !count_calls_app, I5, I6.
    destruct (Nodewrap.signalHandlerInstalled_ w); reflexivity.
Qed.

(** Provided no segmentation fault reaches the handler, [execute] returns
    exactly when the [init] of the node fails or a stop request (a call
    of [stop], or a signal when the handler is bound) arrives after
    [init] has set [running_]; otherwise it stays blocked in [run].  The
    requests that arrive while the node initializes play no part: [init]
    sets [running_] after them, so a stop requested during the
    initialization is lost. *)
Theorem execute_returns_iff_stopped_after_init
        (w : Nodewrap.state S) (during waiting : list Nodewrap.request) :
  Forall (fun q => kills w q = false) during ->
  Forall (fun q => kills w q = false) waiting ->
  ((exists r calls, Nodewrap.execute w during waiting = Nodewrap.Done r calls) <->
   fst (Nodewrap.impl_init (Nodewrap.impl_ w)) = false \/
   Exists (fun q => stops w q = true) waiting) /\
  ((exists calls, Nodewrap.execute w during waiting = Nodewrap.Blocked calls) <->
   fst (Nodewrap.impl_init (Nodewrap.impl_ w)) = true /\
   Forall (fun q => stops w q = false) waiting).
Proof.
  intros Hd Hw.
  assert (Hinit : exists ok w1 c1,
             Nodewrap.init w during = Nodewrap.Done (ok, w1) c1).
  { unfold Nodewrap.init.
    destruct (Nodewrap.impl_init (Nodewrap.impl_ w)) as [ok s].
    destruct (deliver_all_total during (Nodewrap.with_impl w s)) as (w1 & c1 & ->);
      [exact Hd | ].
    destruct ok; cbn [negb]; eauto. }
  destruct Hinit as (ok & w1 & c1 & Ei).
  destruct (init_done _ _ _ _ _ Ei) as (I1 & _ & I3 & I4 & _).
  assert (Hstops : forall q, stops w1 q = stops w q).
  { intros [ | n]; cbn [stops]; congruence. }
  assert (Hkills : Forall (fun q => kills w1 q = false) waiting).
  { eapply Forall_impl; [ | exact Hw].
    intros [ | n]; cbn [kills]; [auto | now rewrite I3]. }
  unfold Nodewrap.execute. rewrite Ei. rewrite <- I1.
  destruct ok.
  - specialize (I4 eq_refl).
    destruct (Nodewrap.run w1 waiting) as [w2 c2 | c2 | c2] eqn:Er.
    + destruct (run_done _ _ _ _ Er) as (_ & _ & _ & _ & _ & R6).
      pose proof (R6 I4) as Hex.
      assert (Hex' : Exists (fun q => stops w q = true) waiting).
      { eapply Exists_impl; [ | exact Hex].
        intros q Hq. cbn beta in Hq |- *. now rewrite <- Hstops. }
      split; split.
      * intros _. now right.
      * intros _. unfold Nodewrap.cleanup. eauto.
      * intros (calls & Hc). unfold Nodewrap.cleanup in Hc. discriminate.
      * intros [_ Hall]. exfalso.
        apply Exists_exists in Hex'. destruct Hex' as (q & Hin & Hq).
        rewrite Forall_forall in Hall. specialize (Hall q Hin). congruence.
    + assert (Hall : Forall (fun q => stops w q = false) waiting).
      { apply Forall_forall. intros q Hin.
        destruct (stops w q) eqn:Es; [exfalso | reflexivity].
        destruct (run_total waiting w1 Hkills) as (w2 & c2' & Hr).
        - apply Exists_exists. exists q. split; [assumption | now rewrite Hstops].
        - congruence. }
      split; split.
      * intros (r & calls & Hc). discriminate.
      * intros [Hf | Hex]; [discriminate | exfalso].
        apply Exists_exists in Hex. destruct Hex as (q & Hin & Hq).
        rewrite Forall_forall in Hall. specialize (Hall q Hin). congruence.
      * intros _. split; [reflexivity | assumption].
      * intros _. eauto.
    + exfalso. clear - Er Hkills.
      revert w1 c2 Er Hkills. induction waiting as [ | q qs IH]; intros w1 c2 Er Hk.
      * cbn in Er. destruct (negb (Nodewrap.running_ w1)); discriminate.
      * cbn [Nodewrap.run] in Er. destruct (negb (Nodewrap.running_ w1));
          [discriminate | ].
        inversion Hk as [ | ? ? Hq Hqs]; subst.
        destruct (deliver_total w1 q Hq) as (w2 & c & E). rewrite E in Er.
        destruct (deliver_done _ _ _ _ E) as (A1 & _).
        destruct (Nodewrap.run w2 qs) as [ | | c'] eqn:Er2; try discriminate.
        apply (IH w2 c' Er2).
        eapply Forall_impl; [ | exact Hqs].
        intros [ | n]; cbn [kills]; [auto | now rewrite A1].
  - unfold Nodewrap.cleanup. split; split.
    + intros _. now left.
    + intros _. eauto.
    + intros (calls & Hc). discriminate.
    + intros [Hf _]. discriminate.
Qed.

End NodeLifeCycle.

(** A node whose [init] succeeds, with the signal handler bound; [stop]
    is called while the node initializes and nothing arrives afterwards:
    [execute] is blocked. *)
Lemma execute_returns_iff_stopped_after_init_witness :
  (Forall (fun q => kills (Nodewrap.mkState true false 0%nat) q = false)
          [Nodewrap.Stop; Nodewrap.Signal 2] /\
   Forall (fun q => kills (Nodewrap.mkState true false 0%nat) q = false) []) /\
  (exists calls,
      @Nodewrap.execute nat (counting_node true) (Nodewrap.mkState true false 0%nat)
                        [Nodewrap.Stop; Nodewrap.Signal 2] []
      = Nodewrap.Blocked calls) /\
  ~ (exists r calls,
        @Nodewrap.execute nat (counting_node true) (Nodewrap.mkState true false 0%nat)
                          [Nodewrap.Stop; Nodewrap.Signal 2] []
        = Nodewrap.Done r calls).
Proof.
  assert (Hd : Forall (fun q => kills (Nodewrap.mkState true false 0%nat) q = false)
                      [Nodewrap.Stop; Nodewrap.Signal 2])
    by (repeat constructor).
  assert (Hw : Forall (fun q => kills (Nodewrap.mkState true false 0%nat) q = false) [])
    by constructor.
  split; [split; assumption | ].
  destruct (@execute_returns_iff_stopped_after_init nat (counting_node true)
              (Nodewrap.mkState true false 0%nat)
              [Nodewrap.Stop; Nodewrap.Signal 2] [] Hd Hw) as [Hdone Hblocked].
  split.
  - apply Hblocked. split; [reflexivity | constructor].
  - intro Hr. apply Hdone in Hr. destruct Hr as [Hf | Hex].
    + discriminate.
    + inversion Hex.
Defined.

(** The same node stopped by an interrupt after [init]: [execute] returns
    [true], and the node has seen its four calls. *)
Lemma execute_always_cleans_up_witness :
  exists w' calls,
    @Nodewrap.execute nat (counting_node true) (Nodewrap.mkState true false 0%nat)
                      [] [Nodewrap.Signal 2]
    = Nodewrap.Done (true, w') calls /\
    Nodewrap.impl_ w' = 4%nat /\
    count_calls is_bind calls = count_calls is_unbind calls.
Proof.
  destruct (@Nodewrap.execute nat (counting_node true)
              (Nodewrap.mkState true false 0%nat) [] [Nodewrap.Signal 2])
    as [[ok w'] calls | | ] eqn:E; try (vm_compute in E; discriminate).
  destruct (@execute_always_cleans_up nat (counting_node true) _ _ _ _ _ _ E)
    as (Hok & Himpl & _ & Hbal & _).
  cbn in Hok. subst ok.
  exists w', calls. split; [reflexivity | ]. split; [exact Himpl | exact Hbal].
Defined.

(** * Loops without undefined behaviour *)

Lemma lt_1024_max_step (ts : double) :
  (ts < Double.of_Z 1024)%D = true -> (ts < max_step)%D = true.
Proof.
  rewrite of_Z_1024. change max_step with (S754_finite false 4503599627370496 (-19)).
  destruct ts as [s | [ | ] | | s m e].
  - intros _. reflexivity.
  - intros _. reflexivity.
  - intro Hx. exact Hx.
  - intro Hx. exact Hx.
  - unfold ltb, SFltb, SFcompare. destruct s; [reflexivity | ].
    destruct (Z.compare_spec e (-42)) as [-> | Hlt | Hgt]; try discriminate.
    + intros _. reflexivity.
    + intros _. destruct (Z.compare_spec e (-19)); [lia | reflexivity | lia].
Qed.

Lemma advance_step_bound (ts : double) (t t' : timespec) :
  TimeStepIsValid ts = true -> is_binary64 ts ->
  (ts < Double.of_Z 1024)%D = true -> normalized t ->
  advance ts t = Some t' ->
  normalized t' /\ tv_sec t' <= tv_sec t + 1024.
Proof.
  intros Hv Hb Hlt Hn Ha.
  pose proof (advance_normalized _ _ _ Hv (proj1 Hn) Ha) as Hn'.
  split; [assumption | ].
  pose proof (advance_near_scaled ts t t' Hv Hb Hlt Hn Ha) as [_ H2].
  pose proof (lt_1024_mag ts Hv Hb Hlt) as HK.
  assert (Hd : nanos t' - nanos t <= 1024 * NSecPerSec_).
  { unfold NSecPerSec_ in *. set (K := mag ts) in *. clearbody K.
    set (d := nanos t' - nanos t) in *. clearbody d.
    hide_pow 1074. nia. }
  unfold nanos, normalized, NSecPerSec_ in *. lia.
Qed.

Lemma loop_defined_from (clock : list (timespec * timespec)) (r : Rate) (k : Z) :
  TimeStepIsValid (timeStep_ r) = true -> is_binary64 (timeStep_ r) ->
  (timeStep_ r < Double.of_Z 1024)%D = true ->
  0 <= k -> k + Z.of_nat (length clock) <= 2 ^ 50 ->
  normalized (stepTime_ r) ->
  - 2 ^ 60 <= tv_sec (stepTime_ r) < 2 ^ 60 + 1024 * k ->
  normalized (sleepEndTime_ r) ->
  - 2 ^ 60 <= tv_sec (sleepEndTime_ r) < 2 ^ 60 + 1024 * k ->
  Forall (fun p => calendar_time (fst p) /\ calendar_time (snd p)) clock ->
  exists r' tr, sleeps r clock = Some (r', tr).
Proof.
  revert r k. induction clock as [ | [a b] clock IH];
    intros r k Hv Hb Hlt Hk Hlen Hsn Hss Hen Hes Hall.
  - exists r, []. reflexivity.
  - inversion Hall as [ | ? ? [Ha Hb'] Hall']; subst. cbn [fst snd] in *.
    cbn [length] in Hlen. rewrite Nat2Z.inj_succ in Hlen.
    change (2 ^ 50) with 1125899906842624 in Hlen.
    change (2 ^ 60) with 1152921504606846976 in *.
    assert (Hcr : forall t, normalized t ->
                  -1152921504606846976 <= tv_sec t < 1152921504606846976 + 1024 * k ->
                  clock_reading t).
    { intros t Ht Hsec. split; [assumption | ].
      change (2 ^ 61) with 2305843009213693952. lia. }
    assert (Hcal : forall t, calendar_time t -> clock_reading t).
    { intros t [Ht Hsec]. apply Hcr; [assumption | ].
      change (2 ^ 60) with 1152921504606846976 in Hsec. lia. }
    destruct (sleep_total r a b Hv Hb (lt_1024_max_step _ Hlt)
                (Hcr _ Hen Hes) (Hcr _ Hsn Hss) (Hcal _ Ha) (Hcal _ Hb'))
      as (r1 & evs & awake & step & Heq & _ & _ & _ & Hadv & _ & [Hlo _] & _ & Hpost).
    destruct (advance_step_bound _ _ _ Hv Hb Hlt Hsn Hadv) as [Hstn Hhi].
    destruct Hpost as (_ & Hts & _ & _ & _ & _ & _ & Hend & Hstep & _).
    destruct Hb' as [Hbn Hbs]. change (2 ^ 60) with 1152921504606846976 in Hbs.
    destruct (IH r1 (k + 1)) as (r' & tr & Hrun).
    + now rewrite Hts.
    + now rewrite Hts.
    + now rewrite Hts.
    + lia.
    + change (2 ^ 50) with 1125899906842624. lia.
    + rewrite Hstep. destruct (_ && _); assumption.
    + rewrite Hstep. destruct (_ && _); lia.
    + rewrite Hend. destruct (ts_ltb _ _); assumption.
    + rewrite Hend. destruct (ts_ltb _ _); lia.
    + assumption.
    + exists r', (evs :: tr).
      rewrite (sleeps_cons _ _ _ _ _ _ Heq), Hrun. reflexivity.
Qed.

(** A loop is free of undefined behaviour in every realistic setting:
    with a valid time step below 1024 s, on clock readings that are
    normalized and within [2^60] seconds of the epoch, whatever their
    order and whatever the policy, each of up to [2^50] calls since
    [reset] is defined (no conversion and no integer addition leaves the
    range of [long]). *)
Theorem loop_is_defined (r0 : Rate) (now : timespec)
        (clock : list (timespec * timespec)) :
  TimeStepIsValid (timeStep_ r0) = true -> is_binary64 (timeStep_ r0) ->
  (timeStep_ r0 < Double.of_Z 1024)%D = true ->
  calendar_time now ->
  Forall (fun p => calendar_time (fst p) /\ calendar_time (snd p)) clock ->
  Z.of_nat (length clock) <= 2 ^ 50 ->
  exists r' tr, sleeps (reset r0 now) clock = Some (r', tr).
Proof.
  intros Hv Hb Hlt [Hn Hs] Hall Hlen.
  apply (loop_defined_from clock (reset r0 now) 0); try assumption;
    cbn [reset stepTime_ sleepEndTime_]; lia.
Qed.

(** The 1 ms pacer on the busy clock. *)
Lemma loop_is_defined_witness :
  (TimeStepIsValid (timeStep_ pacer_1ms) = true /\ is_binary64 (timeStep_ pacer_1ms) /\
   (timeStep_ pacer_1ms < Double.of_Z 1024)%D = true /\
   calendar_time (mkTimespec 100 0) /\
   Forall (fun p => calendar_time (fst p) /\ calendar_time (snd p)) clock_busy /\
   Z.of_nat (length clock_busy) <= 2 ^ 50) /\
  exists r' tr, sleeps pacer_1ms clock_busy = Some (r', tr).
Proof.
  assert (Hv : TimeStepIsValid (timeStep_ pacer_1ms) = true) by (vm_compute; reflexivity).
  assert (Hb : is_binary64 (timeStep_ pacer_1ms)) by (vm_compute; reflexivity).
  assert (Hlt : (timeStep_ pacer_1ms < Double.of_Z 1024)%D = true)
    by (vm_compute; reflexivity).
  assert (Hcal : forall s n, (0 <=? n) && (n <? 1000000000)
                             && (-1152921504606846976 <=? s)
                             && (s <? 1152921504606846976) = true ->
                             calendar_time (mkTimespec s n)).
  { intros s n Hc. apply andb_prop in Hc. destruct Hc as [Hc H4].
    apply andb_prop in Hc. destruct Hc as [Hc H3].
    apply andb_prop in Hc. destruct Hc as [H1 H2].
    apply Z.leb_le in H1, H3. apply Z.ltb_lt in H2, H4.
    split; [split; assumption | ].
    change (2 ^ 60) with 1152921504606846976. cbn [tv_sec]. lia. }
  assert (Hnow : calendar_time (mkTimespec 100 0)) by (apply Hcal; reflexivity).
  assert (Hall : Forall (fun p => calendar_time (fst p) /\ calendar_time (snd p))
                        clock_busy).
  { repeat constructor; apply Hcal; reflexivity. }
  assert (Hlen : Z.of_nat (length clock_busy) <= 2 ^ 50) by (vm_compute; discriminate).
  split; [repeat (split; [assumption | ]); assumption | ].
  exact (loop_is_defined pacer_1ms (mkTimespec 100 0) clock_busy Hv Hb Hlt Hnow Hall Hlen).
Defined.

(** ** The awake time *)

(** The awake time of a cycle is measured from the recorded end of the
    previous sleep to the first clock sample of the call: it is finite,
    and it is negative exactly when that sample is before the recorded
    end, which needs a clock that ran backwards or a wait that returned
    before its target. *)
Theorem awake_time_negative_iff_sample_before_end
        (r : Rate) (now1 now2 : timespec) (r' : Rate) (evs : list event) :
  normalized (sleepEndTime_ r) -> normalized now1 ->
  sleep r now1 now2 = Some (r', evs) ->
  GetDuration (sleepEndTime_ r) now1 = Some (awakeTime_ r') /\
  getSleepStartTime r' = now1 /\
  isfinite (awakeTime_ r') = true /\
  (awakeTime_ r' < Double.zero)%D = ts_ltb now1 (sleepEndTime_ r).
Proof.
  intros He H1 H. apply sleep_inv in H.
  destruct H as (awake & step & d & Haw & _ & _ & Hpost).
  destruct Hpost as (_ & _ & _ & _ & _ & _ & Hstart & _ & _ & _ & Hawake & _).
  destruct (GetDuration_sign _ _ He H1 (GetDuration_in_range _ _ _ Haw))
    as (a & Ha & Hfin & Hneg).
  rewrite Haw in Ha. injection Ha as <-.
  rewrite Hawake, ltb_zero. unfold getSleepStartTime.
  repeat split; assumption.
Qed.

(** The second cycle of the 1 ms pacer, 0.2 ms after the first target. *)
Lemma awake_time_negative_iff_sample_before_end_witness :
  (normalized (sleepEndTime_ pacer_after_one) /\ normalized (mkTimespec 100 1200000)) /\
  exists r' evs,
    sleep pacer_after_one (mkTimespec 100 1200000) (mkTimespec 100 1200100)
      = Some (r', evs) /\
    (awakeTime_ r' < Double.zero)%D = false.
Proof.
  assert (He : normalized (sleepEndTime_ pacer_after_one))
    by (vm_compute; split; congruence).
  assert (H1 : normalized (mkTimespec 100 1200000)) by (vm_compute; split; congruence).
  split; [split; assumption | ].
  destruct (sleep pacer_after_one (mkTimespec 100 1200000) (mkTimespec 100 1200100))
    as [[r' evs] | ] eqn:E; [ | vm_compute in E; discriminate].
  exists r', evs. split; [reflexivity | ].
  destruct (awake_time_negative_iff_sample_before_end pacer_after_one
              (mkTimespec 100 1200000) (mkTimespec 100 1200100) r' evs He H1 E)
    as (_ & _ & _ & Hneg).
  rewrite Hneg. vm_compute. reflexivity.
Defined.
